(** * AirportSecuritySim: a shallow embedding and its verified properties

    The repository holds three SimPy programs that simulate an airport
    security checkpoint:

    - [central_queue.py]: one shared resource per stage;
    - [multiple_queues_random_selection.py]: four lanes, lane picked at random;
    - [multiple_queues_dynamic_selection_optimal.py]: four lanes, least loaded
      lane picked on arrival.

    The times of a run are idealised as rationals ([Q]), and the summary of
    the recorded times is given twice: over the rationals, and on doubles
    ([Double], rounding to the nearest double wherever the interpreter does).
    The module [random] is an abstract random source threaded through the
    run as explicit state; its generator and the list [wait_times] are the
    state of the interpreter that a run reads and leaves changed.  A
    generator is a defunctionalised continuation (the program point it is
    suspended at together with its local variables).  SimPy itself is not
    part of the repository: its environment and its resources are modelled
    in [Engine] from the specification of the event scheduler and of the
    resource pool. *)

From Stdlib Require Import QArith Qround Qpower Lia Lqa ZArith List Sorted.
From stdpp Require Import list.

Open Scope Q_scope.

(** ** Exceptions and fallible computations *)

Inductive exn :=
| IndexError          (* random.choice on an empty sequence *)
| TypeError           (* subscripting None *)
| StatisticsError     (* statistics.mean of no data *)
| InvariantViolation  (* release() of an idle pool *)
| ValueError.         (* env.run(until) with until not after the clock *)

Inductive result (A : Type) :=
| Ok (a : A)
| Raise (e : exn).
Arguments Ok {A} a.
Arguments Raise {A} e.

#[global] Instance result_ret : MRet result := @Ok.

#[global] Instance result_bind : MBind result :=
  fun A B (f : A -> result B) (m : result A) =>
    match m with
    | Ok a => f a
    | Raise e => Raise e
    end.

Definition Qltb (a b : Q) : bool :=
  match Qcompare a b with
  | Lt => true
  | _ => false
  end.

(** ** The simulation engine *)

Module Engine.

Section Scheduler.
Context {K : Type}.

(** Modelled from the spec: the event queue of the SimPy environment, which
    is not part of the repository (section 4.1, EventScheduler).  An event
    is ordered by due time, then by insertion sequence. *)
Record Event := mkEvent {
  due_time : Q;
  insertion_sequence : nat;
  continuation : K
}.

(** Modelled from the spec: the scheduler: the simulated clock, the next
    insertion sequence number and the pending events, earliest first. *)
Record EventScheduler := mkScheduler {
  now : Q;
  next_sequence : nat;
  pending : list Event
}.

(** Modelled from the spec: the order of the events, by due time and then by
    insertion sequence. *)
Definition earlier (a b : Event) : bool :=
  match Qcompare (due_time a) (due_time b) with
  | Lt => true
  | Eq => (insertion_sequence a <? insertion_sequence b)%nat
  | Gt => false
  end.

(** Modelled from the spec: a new event goes before the first pending event
    it is earlier than. *)
Fixpoint enqueue (e : Event) (q : list Event) : list Event :=
  match q with
  | [] => [e]
  | x :: q' => if earlier e x then e :: q else x :: enqueue e q'
  end.

(** Modelled from the spec: [schedule(delay, continuation)] enqueues a
    resumption at [now + delay]. *)
Definition schedule (delay : Q) (k : K) (sch : EventScheduler) : EventScheduler :=
  {| now := now sch;
     next_sequence := S (next_sequence sch);
     pending := enqueue (mkEvent (now sch + delay) (next_sequence sch) k)
                        (pending sch) |}.

(** Modelled from the spec: one turn of [run(horizon)]: pop the earliest
    event and advance the clock to it, unless the queue is empty or the
    event lies beyond the horizon. *)
Definition next_event (horizon : Q) (sch : EventScheduler)
  : option (K * EventScheduler) :=
  match pending sch with
  | [] => None
  | e :: rest =>
      if Qltb horizon (due_time e) then None
      else Some (continuation e,
                 {| now := due_time e;
                    next_sequence := next_sequence sch;
                    pending := rest |})
  end.

(** Modelled from the spec: [simpy.Environment()], the clock at 0 and nothing
    pending. *)
Definition new_scheduler : EventScheduler :=
  {| now := 0; next_sequence := 0%nat; pending := [] |}.
End Scheduler.
Arguments Event K : clear implicits.
Arguments EventScheduler K : clear implicits.

Section Pool.
Context {W : Type}.

(** Modelled from the spec: [simpy.Resource], which is not part of the
    repository (section 4.2, ResourcePool): a capacity, the number of slots
    in use and the FCFS sequence of suspended callers. *)
Record ResourcePool := mkPool {
  capacity : nat;
  in_use : nat;
  waiters : list W
}.

(** Modelled from the spec: [simpy.Resource(env, capacity=c)], idle. *)
Definition new_pool (c : nat) : ResourcePool :=
  {| capacity := c; in_use := 0%nat; waiters := [] |}.

(** Modelled from the spec: [acquire()].  [true] means the slot was taken
    at once; otherwise the caller has been appended to the waiters. *)
Definition acquire (w : W) (p : ResourcePool) : bool * ResourcePool :=
  if (in_use p <? capacity p)%nat
  then (true, {| capacity := capacity p; in_use := S (in_use p);
                 waiters := waiters p |})
  else (false, {| capacity := capacity p; in_use := in_use p;
                  waiters := waiters p ++ [w] |}).

(** Modelled from the spec: [release()].  The slot is handed to the
    earliest waiter, if any, who is returned so that the caller schedules
    its resumption at the current instant. *)
Definition release (p : ResourcePool) : result (option W * ResourcePool) :=
  match in_use p with
  | O => Raise InvariantViolation
  | S n =>
      match waiters p with
      | [] => Ok (None, {| capacity := capacity p; in_use := n;
                           waiters := [] |})
      | w :: ws => Ok (Some w, {| capacity := capacity p; in_use := S n;
                                  waiters := ws |})
      end
  end.
End Pool.
Arguments ResourcePool W : clear implicits.

End Engine.
Import Engine.

(** ** Summary statistics: [calculate_wait_time]

    The summary over the rationals, as the run is: what [calculate_wait_time]
    computes when no operation rounds.  [Double.calculate_wait_time] below is
    the function on doubles. *)

Definition sum_Q (l : list Q) : Q := fold_right Qplus 0 l.

(** [statistics.mean]: raises [StatisticsError] when there is no data. *)
Definition mean (data : list Q) : result Q :=
  match data with
  | [] => Raise StatisticsError
  | _ :: _ => Ok (sum_Q data / inject_Z (Z.of_nat (length data)))
  end.

(** [divmod(x, 1)] on a float. *)
Definition divmod1 (x : Q) : Q * Q :=
  (inject_Z (Qfloor x), x - inject_Z (Qfloor x)).

(** Python's [round] to an integer: halves go to the even neighbour. *)
Definition py_round (x : Q) : Z :=
  let f := Qfloor x in
  match Qcompare (x - inject_Z f) (1 # 2) with
  | Lt => f
  | Gt => (f + 1)%Z
  | Eq => if Z.even f then f else (f + 1)%Z
  end.

Definition calculate_wait_time (wait_times : list Q) : result (Z * Z) :=
  average_wait ← mean wait_times;
  let (minutes, frac_minutes) := divmod1 average_wait in
  let seconds := frac_minutes * 60 in
  Ok (py_round minutes, py_round seconds).

(** *** The summary on doubles

    The times of the programs are Python floats, IEEE 754 doubles.  The
    definitions above compute the summary in exact arithmetic; the ones
    below round where the interpreter does.  A finite double is held as the
    rational it stands for. *)
Module Double.

(** The exponent of [x]: the integer part of its binary logarithm, for [x]
    other than 0. *)
Definition Qlog2 (x : Q) : Z :=
  let n := Z.abs (Qnum x) in
  let e := (Z.log2 n - Z.log2 (Zpos (Qden x)))%Z in
  if Qle_bool (2 ^ e) (n # Qden x) then e else (e - 1)%Z.

(** The exponent of the last place of the doubles around [x]: 53 bits of
    precision, and the spacing of the subnormal numbers below [2 ^ -1022]. *)
Definition ulp_exponent (x : Q) : Z := Z.max (Qlog2 x - 52) (-1074).

(** Rounding to the nearest double, halves to the even mantissa: what every
    floating operation does to its exact result (within the range of the
    doubles; the values of the summary are far from overflow). *)
Definition RN (x : Q) : Q :=
  if Qeq_bool x 0 then 0
  else inject_Z (py_round (x / 2 ^ ulp_exponent x)) * 2 ^ ulp_exponent x.

(** [statistics.mean] on floats: the sum is exact, the quotient is rounded
    once, when it is converted to a float. *)
Definition mean (data : list Q) : result Q :=
  match data with
  | [] => Raise StatisticsError
  | _ :: _ => Ok (RN (sum_Q data / inject_Z (Z.of_nat (length data))))
  end.

(** [divmod(x, 1)] on a float: [fmod] is exact, and the remainder of a
    negative [x] is brought into the range from 0 to 1 by a floating
    addition of 1. *)
Definition divmod1 (x : Q) : Q * Q :=
  let floordiv := inject_Z (Qfloor x) in
  (floordiv, if Qle_bool 0 x then x - floordiv else RN (x - floordiv)).

Definition calculate_wait_time (wait_times : list Q) : result (Z * Z) :=
  average_wait ← mean wait_times;
  let (minutes, frac_minutes) := divmod1 average_wait in
  let seconds := RN (frac_minutes * 60) in
  Ok (py_round minutes, py_round seconds).

End Double.

(** ** The arrival rate schedule *)

Definition get_mean_interarrival_time (current_time : Q) : Q :=
  if Qltb current_time 10 then 1
  else if Qltb current_time 50 then 1 # 2
  else 1.

(** ** Passengers, lanes and the checkpoint *)

Inductive stage := officer | baggage_screener | body_screener.

#[global] Instance stage_eq_dec : EqDecision stage.
Proof. solve_decision. Defined.

Definition stages : list stage := [officer; baggage_screener; body_screener].

Definition next_stage (st : stage) : option stage :=
  match st with
  | officer => Some baggage_screener
  | baggage_screener => Some body_screener
  | body_screener => None
  end.

(** The bounds of the uniform service times, in minutes:
    [random.uniform(0.3, 0.7)], [random.uniform(2, 3)] and
    [random.uniform(0.5, 1)]. *)
Definition check_boarding_pass : Q * Q := (3 # 10, 7 # 10).
Definition scan_baggage : Q * Q := (2, 3).
Definition scan_body : Q * Q := (1 # 2, 1).

Definition service_bounds (st : stage) : Q * Q :=
  match st with
  | officer => check_boarding_pass
  | baggage_screener => scan_baggage
  | body_screener => scan_body
  end.

Inductive pname :=
| InitialPassenger (j : nat)
| InitialPassengerLane (lane_index j : nat)
| Passenger (i : nat).

#[global] Instance pname_eq_dec : EqDecision pname.
Proof. solve_decision. Defined.

(** What a passenger has done so far; kept as a ghost history.  The number
    is the index of the lane whose resource is used. *)
Inductive action :=
| Arrive (t : Q)
| Request (st : stage) (l : nat)
| Acquire (st : stage) (l : nat)
| Serve (st : stage) (l : nat)
| Release (st : stage) (l : nat)
| Depart (t : Q).

(** The local variables of a running [check_passenger] generator.  [lane] is
    the reference to the lane dictionary, held as its index in
    [security.lanes]. *)
Record passenger := mkPassenger {
  name : pname;
  arrival_time : Q;
  lane : nat;
  history : list action
}.

Definition log (p : passenger) (a : action) : passenger :=
  {| name := name p; arrival_time := arrival_time p; lane := lane p;
     history := history p ++ [a] |}.

(** A lane: the dictionary with keys "officer", "baggage_screener" and
    "body_screener". *)
Record lane_t := mkLane {
  l_officer : ResourcePool passenger;
  l_baggage_screener : ResourcePool passenger;
  l_body_screener : ResourcePool passenger
}.

Definition lane_get (ln : lane_t) (st : stage) : ResourcePool passenger :=
  match st with
  | officer => l_officer ln
  | baggage_screener => l_baggage_screener ln
  | body_screener => l_body_screener ln
  end.

Definition lane_set (ln : lane_t) (st : stage) (r : ResourcePool passenger) : lane_t :=
  match st with
  | officer => mkLane r (l_baggage_screener ln) (l_body_screener ln)
  | baggage_screener => mkLane (l_officer ln) r (l_body_screener ln)
  | body_screener => mkLane (l_officer ln) (l_baggage_screener ln) r
  end.

(** *** [choose_dynamic_lane] *)

(** [best_load] starts as [float('inf')]. *)
Inductive load := Finite (n : nat) | Inf.

Definition load_ltb (n : nat) (b : load) : bool :=
  match b with
  | Inf => true
  | Finite m => (n <? m)%nat
  end.

Definition effective_load (resource : ResourcePool passenger) : nat :=
  let effective_load := length (waiters resource) in
  if (capacity resource <=? in_use resource)%nat
  then (effective_load + 1)%nat
  else effective_load.

Definition total_load (ln : lane_t) : nat :=
  fold_left (fun total resource_name =>
               (total + effective_load (lane_get ln resource_name))%nat)
            stages 0%nat.

Fixpoint choose_dynamic_lane_loop (lanes : list lane_t) (lane_index : nat)
    (best : option lane_t * Z * load) : option lane_t * Z * load :=
  match lanes with
  | [] => best
  | ln :: rest =>
      let '(best_lane, best_lane_index, best_load) := best in
      choose_dynamic_lane_loop rest (S lane_index)
        (if load_ltb (total_load ln) best_load
         then (Some ln, Z.of_nat lane_index, Finite (total_load ln))
         else best)
  end.

Definition choose_dynamic_lane (lanes : list lane_t) : option lane_t * Z :=
  fst (choose_dynamic_lane_loop lanes 0 (None, (-1)%Z, Inf)).

(** [ln], found at index [i], carries the least total load of [lanes], and
    is the first lane to do so. *)
Definition least_loaded (lanes : list lane_t) (ln : lane_t) (i : nat) : Prop :=
  lanes !! i = Some ln /\
  (forall j ln', lanes !! j = Some ln' -> (total_load ln <= total_load ln')%nat) /\
  (forall j ln', (j < i)%nat -> lanes !! j = Some ln' ->
                 (total_load ln < total_load ln')%nat).

(** The state of the loop of [choose_dynamic_lane] once the lanes [seen]
    have been looked at. *)
Definition best_so_far (seen : list lane_t) (best : option lane_t * Z * load) : Prop :=
  (seen = [] /\ best = (None, (-1)%Z, Inf)) \/
  (exists ln i, best = (Some ln, Z.of_nat i, Finite (total_load ln)) /\
                least_loaded seen ln i).

(** ** The random source

    The state of Python's module [random], with the three samplers the
    programs call.  [randbelow n] is the index drawn by [random.choice] from a
    sequence of length [n]. *)
Record RandomSource := mkRandomSource {
  rng_state : Type;
  uniform : Q -> Q -> rng_state -> Q * rng_state;
  expovariate : Q -> rng_state -> Q * rng_state;
  randbelow : nat -> rng_state -> nat * rng_state
}.

(** [random.uniform(a, b)] lies between its bounds. *)
Definition uniform_in_range (R : RandomSource) : Prop :=
  forall a b g, a <= b -> a <= fst (uniform R a b g) /\ fst (uniform R a b g) <= b.

(** [random.expovariate(lambd)] is not negative. *)
Definition expovariate_nonnegative (R : RandomSource) : Prop :=
  forall lambd g, 0 < lambd -> 0 <= fst (expovariate R lambd g).

(** ** The three programs *)

Inductive variant :=
| central_queue
| multiple_queues_random_selection
| multiple_queues_dynamic_selection_optimal.

(** The suspended generators.  [k_check_passenger] is a [check_passenger]
    generator that has been handed to [env.process] and has not run yet;
    [k_granted] is one suspended at [yield req] whose request has just been
    granted by a release; [k_served] is one suspended in the service of a
    stage; the last two are [passenger_arrivals] before its first step and at
    its [yield env.timeout(...)] with counter [i]. *)
Inductive cont :=
| k_check_passenger (nm : pname) (assigned_lane : option nat)
| k_granted (p : passenger) (st : stage)
| k_served (p : passenger) (st : stage)
| k_passenger_arrivals_start
| k_passenger_arrivals (i : nat).

(** What a finished passenger reports: its local variables and the clock at
    that instant (ghost; the program keeps the difference in [wait_times]). *)
Record CompletionRecord := mkCompletion {
  entity : passenger;
  departure_time : Q
}.

Definition sojourn_time (c : CompletionRecord) : Q :=
  departure_time c - arrival_time (entity c).

(** [AirportSecurity.__init__]: the lanes of the checkpoint.  The central
    queue has no lanes; its three resources are kept as the single lane 0,
    with the capacities [run_airport] passes. *)
Definition AirportSecurity (v : variant) (num_lanes : nat) : list lane_t :=
  match v with
  | central_queue => [mkLane (new_pool 2) (new_pool 6) (new_pool 2)]
  | _ => replicate num_lanes (mkLane (new_pool 1) (new_pool 1) (new_pool 1))
  end.

Section Simulation.
Context (R : RandomSource) (v : variant).

(** The module-level state that outlives a call of [run_airport]: the
    random generator and the list [wait_times]. *)
Record globals := mkGlobals {
  g_rng : rng_state R;
  g_wait_times : list Q
}.

Record sim := mkSim {
  env : EventScheduler cont;
  lanes : list lane_t;
  rng : rng_state R;
  wait_times : list Q;
  completed : list CompletionRecord
}.

Definition set_env (e : EventScheduler cont) (s : sim) : sim :=
  mkSim e (lanes s) (rng s) (wait_times s) (completed s).

Definition set_rng (g : rng_state R) (s : sim) : sim :=
  mkSim (env s) (lanes s) g (wait_times s) (completed s).

Definition set_pool (l : nat) (st : stage) (ln : lane_t)
    (r : ResourcePool passenger) (s : sim) : sim :=
  mkSim (env s) (<[l := lane_set ln st r]> (lanes s)) (rng s)
        (wait_times s) (completed s).

(** [yield env.timeout(d)], the generator going on as [k]. *)
Definition env_timeout (d : Q) (k : cont) (s : sim) : sim :=
  set_env (schedule d k (env s)) s.

(** [env.process(generator)]: the generator starts at the current instant. *)
Definition env_process (k : cont) (s : sim) : sim :=
  set_env (schedule 0 k (env s)) s.

(** [random.choice(security.lanes)] *)
Definition choice (s : sim) : result (nat * sim) :=
  match lanes s with
  | [] => Raise IndexError
  | _ :: _ =>
      let (i, g) := randbelow R (length (lanes s)) (rng s) in
      match lanes s !! i with
      | Some _ => Ok (i, set_rng g s)
      | None => Raise IndexError
      end
  end.

(** The lane a passenger uses: the first lines of [check_passenger]. *)
Definition select_lane (assigned_lane : option nat) (s : sim)
  : result (nat * sim) :=
  match v with
  | central_queue => Ok (0%nat, s)
  | multiple_queues_random_selection =>
      match assigned_lane with
      | None => choice s
      | Some l => Ok (l, s)
      end
  | multiple_queues_dynamic_selection_optimal =>
      match assigned_lane with
      | None =>
          match choose_dynamic_lane (lanes s) with
          | (Some _, assigned_lane_index) => Ok (Z.to_nat assigned_lane_index, s)
          | (None, _) => Raise TypeError
          end
      | Some l => Ok (l, s)
      end
  end.

(** [yield env.process(security.check_boarding_pass(name))] and its
    siblings: hold the resource for a uniform service time, drawn when the
    passenger takes the slot. *)
Definition serve (p : passenger) (st : stage) (s : sim) : sim :=
  let (low, high) := service_bounds st in
  let (d, g) := uniform R low high (rng s) in
  env_timeout d (k_served (log p (Serve st (lane p))) st) (set_rng g s).

(** [with lane[st].request() as req: yield req] followed by the service.
    A full resource suspends the passenger among its waiters. *)
Definition request (p : passenger) (st : stage) (s : sim) : result sim :=
  match lanes s !! lane p with
  | None => Raise TypeError
  | Some ln =>
      let p := log p (Request st (lane p)) in
      match acquire p (lane_get ln st) with
      | (true, r) =>
          Ok (serve (log p (Acquire st (lane p))) st (set_pool (lane p) st ln r s))
      | (false, r) => Ok (set_pool (lane p) st ln r s)
      end
  end.

(** Leaving the [with] block of a stage: the slot is released and handed to
    the earliest waiter, who resumes at this instant. *)
Definition release_stage (p : passenger) (st : stage) (s : sim) : result sim :=
  match lanes s !! lane p with
  | None => Raise TypeError
  | Some ln =>
      '(w, r) ← release (lane_get ln st);
      let s := set_pool (lane p) st ln r s in
      Ok (match w with
          | Some w => env_timeout 0 (k_granted (log w (Acquire st (lane p))) st) s
          | None => s
          end)
  end.

(** The last lines of [check_passenger]. *)
Definition depart (p : passenger) (s : sim) : sim :=
  let total_time := now (env s) - arrival_time p in
  mkSim (env s) (lanes s) (rng s)
        (wait_times s ++ [total_time])
        (completed s ++ [mkCompletion (log p (Depart (now (env s)))) (now (env s))]).

(** One turn of the loop of [passenger_arrivals], from the evaluation of
    the mean to the [yield]. *)
Definition passenger_arrivals (i : nat) (s : sim) : sim :=
  let mean_interarrival := get_mean_interarrival_time (now (env s)) in
  let (gap, g) := expovariate R (1 / mean_interarrival) (rng s) in
  env_timeout gap (k_passenger_arrivals i) (set_rng g s).

(** [check_passenger], from its first line to its first suspension. *)
Definition check_passenger (nm : pname) (assigned_lane : option nat) (s : sim)
  : result sim :=
  let arrival_time := now (env s) in
  '(l, s) ← select_lane assigned_lane s;
  request (mkPassenger nm arrival_time l [Arrive arrival_time]) officer s.

(** [check_passenger], resumed when the service of stage [st] is over: it
    leaves the [with] block, and asks for the next stage or finishes. *)
Definition check_passenger_served (p : passenger) (st : stage) (s : sim)
  : result sim :=
  s ← release_stage p st s;
  let p := log p (Release st (lane p)) in
  match next_stage st with
  | Some st' => request p st' s
  | None => Ok (depart p s)
  end.

(** Run a generator from the point it is suspended at to its next
    suspension or its end. *)
Definition resume (k : cont) (s : sim) : result sim :=
  match k with
  | k_check_passenger nm assigned_lane => check_passenger nm assigned_lane s
  | k_granted p st => Ok (serve p st s)
  | k_served p st => check_passenger_served p st s
  | k_passenger_arrivals_start => Ok (passenger_arrivals 0 s)
  | k_passenger_arrivals i =>
      let i := S i in
      Ok (passenger_arrivals i (env_process (k_check_passenger (Passenger i) None) s))
  end.

(** The loop of [env.run]: one event after the other.  The second component
    tells whether the loop came to its end within the given number of
    events. *)
Fixpoint env_steps (fuel : nat) (running_time : Q) (s : sim) : result (sim * bool) :=
  match fuel with
  | O => Ok (s, false)
  | S fuel =>
      match next_event running_time (env s) with
      | None => Ok (s, true)
      | Some (k, e) =>
          s ← resume k (set_env e s);
          env_steps fuel running_time s
      end
  end.

(** [env.run(until=running_time)]: a time that is not after the clock is
    refused with [ValueError] before any event is run (the configuration
    error of a non-positive horizon in the specification). *)
Definition env_run (fuel : nat) (running_time : Q) (s : sim) : result (sim * bool) :=
  if Qltb (now (env s)) running_time then env_steps fuel running_time s
  else Raise ValueError.

(** The passengers [run_airport] puts in place before the run. *)
Definition initial_passengers (num_lanes : nat) : list cont :=
  match v with
  | central_queue =>
      map (fun j => k_check_passenger (InitialPassenger (j + 1)) None) (seq 0 2)
  | _ =>
      flat_map (fun lane_index =>
                  map (fun j => k_check_passenger
                                  (InitialPassengerLane (lane_index + 1) (j + 1))
                                  (Some lane_index))
                      (seq 0 2))
               (seq 0 num_lanes)
  end.

Definition setup (num_lanes : nat) (g : globals) : sim :=
  let s := mkSim new_scheduler (AirportSecurity v num_lanes)
                 (g_rng g) (g_wait_times g) [] in
  let s := fold_left (fun s k => env_process k s) (initial_passengers num_lanes) s in
  env_process k_passenger_arrivals_start s.

Definition run_airport (fuel : nat) (running_time : Q) (num_lanes : nat)
    (g : globals) : result (sim * bool) :=
  env_run fuel running_time (setup num_lanes g).

Definition globals_of (s : sim) : globals :=
  mkGlobals (rng s) (wait_times s).

(** [main], for any running time and number of lanes; [fuel] bounds the
    number of events the run may take. *)
Definition simulate_and_report (fuel : nat) (running_time : Q) (num_lanes : nat)
    (g : globals) : result (Z * Z) :=
  '(s, _) ← run_airport fuel running_time num_lanes g;
  calculate_wait_time (wait_times s).

End Simulation.

Arguments env {R} s.
Arguments lanes {R} s.
Arguments rng {R} s.
Arguments wait_times {R} s.
Arguments completed {R} s.
Arguments g_rng {R} g.
Arguments g_wait_times {R} g.
Arguments mkGlobals {R} _ _.
Arguments mkSim {R} _ _ _ _ _.
Arguments globals_of {R} s.

(** ** A concrete random source

    A counter that walks through the quarters of the unit interval. *)
Definition quarter (n : nat) : Q := inject_Z (Z.of_nat (n mod 4)) / 4.

Definition cyclic_source : RandomSource :=
  {| rng_state := nat;
     uniform := fun a b n => (Qred (a + (b - a) * quarter n), S n);
     expovariate := fun lambd n => (Qred ((1 + quarter n) / lambd), S n);
     randbelow := fun k n => ((n mod k)%nat, S n) |}.

(** ** The modules and their state

    What an interpreter holds once it has imported one of the programs: the
    generator of the module [random] and the list [wait_times].  A new
    interpreter seeds the generator from the operating system: [entropy] is
    the state it starts in, which differs from one execution to the next. *)
Section Module.
Context {R : RandomSource}.

(** [random.seed(a)]: the state of the generator becomes a function of [a]
    alone. *)
Context (seed : Z -> rng_state R).



End Module.


(** ** A single pool under test

    Entities that ask for one pool at a given time, hold it for a fixed time
    and release it: the pattern of one stage of [check_passenger]
    ([with lane["officer"].request() as req: yield req; ...]), run by the
    same scheduler and pool. *)
Module FCFS.

Inductive cont :=
| k_request (entity : nat)   (* about to call request() *)
| k_granted (entity : nat)   (* suspended at [yield req], slot handed over *)
| k_holding (entity : nat).  (* suspended while holding the pool *)

Record sim := mkSim {
  env : EventScheduler cont;
  pool : ResourcePool nat;
  service_log : list (nat * Q)   (* who began service, and when *)
}.

Definition begin_service (holding_time : Q) (entity : nat) (s : sim) : sim :=
  mkSim (schedule holding_time (k_holding entity) (env s))
        (pool s)
        (service_log s ++ [(entity, now (env s))]).

Definition resume (holding_time : Q) (k : cont) (s : sim) : result sim :=
  match k with
  | k_request entity =>
      match acquire entity (pool s) with
      | (true, r) =>
          Ok (begin_service holding_time entity (mkSim (env s) r (service_log s)))
      | (false, r) => Ok (mkSim (env s) r (service_log s))
      end
  | k_granted entity => Ok (begin_service holding_time entity s)
  | k_holding entity =>
      '(w, r) ← release (pool s);
      Ok (match w with
          | Some w => mkSim (schedule 0 (k_granted w) (env s)) r (service_log s)
          | None => mkSim (env s) r (service_log s)
          end)
  end.

Fixpoint env_run (fuel : nat) (holding_time horizon : Q) (s : sim)
  : result (sim * bool) :=
  match fuel with
  | O => Ok (s, false)
  | S fuel =>
      match next_event horizon (env s) with
      | None => Ok (s, true)
      | Some (k, e) =>
          s ← resume holding_time k (mkSim e (pool s) (service_log s));
          env_run fuel holding_time horizon s
      end
  end.

(** Entity [i + 1] asks for the pool at the [i]-th of the given times. *)
Definition setup (capacity : nat) (request_times : list Q) : sim :=
  mkSim (fold_left (fun e '(i, t) => schedule t (k_request (S i)) e)
                   (imap (fun i t => (i, t)) request_times)
                   new_scheduler)
        (new_pool capacity)
        [].

Definition scenario : result (sim * bool) :=
  env_run 20 5 100 (setup 1 [0; 1; 2]).

End FCFS.

(** ** Invariants of a run *)

Definition stage_history (l : nat) (st : stage) : list action :=
  [Request st l; Acquire st l; Serve st l; Release st l].

Definition stages_before (st : stage) : list stage :=
  match st with
  | officer => []
  | baggage_screener => [officer]
  | body_screener => [officer; baggage_screener]
  end.

(** The history of a passenger who is about to ask for stage [st]. *)
Definition history_before (p : passenger) (st : stage) : list action :=
  Arrive (arrival_time p) :: flat_map (stage_history (lane p)) (stages_before st).

Definition history_waiting (p : passenger) (st : stage) : list action :=
  history_before p st ++ [Request st (lane p)].

Definition history_granted (p : passenger) (st : stage) : list action :=
  history_before p st ++ [Request st (lane p); Acquire st (lane p)].

Definition history_in_service (p : passenger) (st : stage) : list action :=
  history_before p st ++ [Request st (lane p); Acquire st (lane p); Serve st (lane p)].

(** The history of a passenger who left at [t]: the three stages in order,
    all on its own lane. *)
Definition full_history (p : passenger) (t : Q) : list action :=
  Arrive (arrival_time p) :: flat_map (stage_history (lane p)) stages ++ [Depart t].

Definition Forall_pools (P : nat -> stage -> ResourcePool passenger -> Prop)
    (lanes : list lane_t) : Prop :=
  forall l ln st, lanes !! l = Some ln -> P l st (lane_get ln st).

Definition Forall_waiters (P : nat -> stage -> passenger -> Prop)
    (lanes : list lane_t) : Prop :=
  Forall_pools (fun l st r => Forall (P l st) (waiters r)) lanes.

Definition cont_history_ok (k : cont) : Prop :=
  match k with
  | k_granted p st => history p = history_granted p st
  | k_served p st => history p = history_in_service p st
  | _ => True
  end.

Definition waiter_history_ok (l : nat) (st : stage) (p : passenger) : Prop :=
  history p = history_waiting p st /\ lane p = l.

Definition completion_history_ok (c : CompletionRecord) : Prop :=
  history (entity c) = full_history (entity c) (departure_time c).

(** Every passenger in the system has the history of the program point it is
    suspended at, waits in its own lane, and [wait_times] is what the list
    held before the run followed by the sojourn time of each completion. *)
Record history_invariant {R} (before : list Q) (s : sim R) : Prop := {
  hi_events : Forall (fun e => cont_history_ok (continuation e)) (pending (env s));
  hi_waiters : Forall_waiters waiter_history_ok (lanes s);
  hi_completed : Forall completion_history_ok (completed s);
  hi_wait_times : wait_times s = before ++ map sojourn_time (completed s)
}.

Definition cont_timing_ok (t : Q) (k : cont) : Prop :=
  match k with
  | k_granted p st => arrival_time p <= t
  | k_served p st => arrival_time p < t
  | _ => True
  end.

Definition event_timing_ok (t : Q) (e : Event cont) : Prop :=
  t <= due_time e /\ cont_timing_ok (due_time e) (continuation e).

Definition by_due_time (a b : Event cont) : Prop := due_time a <= due_time b.

(** The clock never runs ahead of a pending event, the events are kept in
    the order of their due times, nobody arrived in the future, and whoever
    is in service or has left has spent time in the system. *)
Record timing_invariant {R} (s : sim R) : Prop := {
  ti_sorted : StronglySorted by_due_time (pending (env s));
  ti_events : Forall (event_timing_ok (now (env s))) (pending (env s));
  ti_waiters : Forall_waiters (fun _ _ p => arrival_time p <= now (env s)) (lanes s);
  ti_completed : Forall (fun c => arrival_time (entity c) < departure_time c)
                        (completed s)
}.

(** No pool has more slots in use than it has. *)
Definition pools_invariant {R} (s : sim R) : Prop :=
  Forall_pools (fun _ _ r => (in_use r <= capacity r)%nat) (lanes s).

(** [random.choice] draws an index of the sequence. *)
Definition randbelow_in_range (R : RandomSource) : Prop :=
  forall n g, (0 < n)%nat -> (fst (randbelow R n g) < n)%nat.

(** The pool a suspended generator holds a slot of, if any. *)
Definition held (k : cont) : option (nat * stage) :=
  match k with
  | k_granted p st | k_served p st => Some (lane p, st)
  | _ => None
  end.

(** The number of slots of the resource of stage [st] in lane [l] that the
    holder [h] accounts for. *)
Definition holding (h : option (nat * stage)) (l : nat) (st : stage) : nat :=
  match h with
  | Some (l', st') => if bool_decide (l' = l /\ st' = st) then 1 else 0
  | None => 0
  end.

Fixpoint holders (l : nat) (st : stage) (q : list (Event cont)) : nat :=
  match q with
  | [] => 0
  | e :: q => holding (held (continuation e)) l st + holders l st q
  end.

Definition cont_lane_ok (num_lanes : nat) (k : cont) : Prop :=
  match k with
  | k_check_passenger _ (Some l) => (l < num_lanes)%nat
  | k_granted p _ | k_served p _ => (lane p < num_lanes)%nat
  | _ => True
  end.

(** There is a lane, every generator refers to a lane that exists, waiters
    wait in their own lane, and the slots in use of a pool are those of the
    generators that hold one: the pending ones and the running one, [h]. *)
Record safety_invariant {R} (h : option (nat * stage)) (s : sim R) : Prop := {
  si_lanes : (0 < length (lanes s))%nat;
  si_conts : Forall (fun e => cont_lane_ok (length (lanes s)) (continuation e))
                    (pending (env s));
  si_waiters : Forall_waiters (fun l _ p => lane p = l) (lanes s);
  si_holders : Forall_pools
                 (fun l st r =>
                    in_use r = (holding h l st + holders l st (pending (env s)))%nat)
                 (lanes s)
}.

(** *** Names

    How often a name occurs among the generators of the system and the
    completion records, and the counter of [passenger_arrivals]. *)
Definition cont_name (k : cont) : option pname :=
  match k with
  | k_check_passenger nm _ => Some nm
  | k_granted p _ | k_served p _ => Some (name p)
  | _ => None
  end.

Definition is_named (nm : pname) (o : option pname) : nat :=
  if bool_decide (o = Some nm) then 1 else 0.

Fixpoint pending_named (nm : pname) (q : list (Event cont)) : nat :=
  match q with
  | [] => 0
  | e :: q => is_named nm (cont_name (continuation e)) + pending_named nm q
  end.

Fixpoint count_named (nm : pname) (ps : list passenger) : nat :=
  match ps with
  | [] => 0
  | p :: ps => is_named nm (Some (name p)) + count_named nm ps
  end.

Definition lane_named (nm : pname) (ln : lane_t) : nat :=
  count_named nm (waiters (l_officer ln))
  + count_named nm (waiters (l_baggage_screener ln))
  + count_named nm (waiters (l_body_screener ln)).

Fixpoint lanes_named (nm : pname) (lanes : list lane_t) : nat :=
  match lanes with
  | [] => 0
  | ln :: lanes => lane_named nm ln + lanes_named nm lanes
  end.

Definition named {R} (nm : pname) (s : sim R) : nat :=
  pending_named nm (pending (env s))
  + lanes_named nm (lanes s)
  + count_named nm (map entity (completed s)).

(** The value of [i] in a suspended [passenger_arrivals]. *)
Definition arrivals_counter (k : cont) : option nat :=
  match k with
  | k_passenger_arrivals_start => Some 0%nat
  | k_passenger_arrivals i => Some i
  | _ => None
  end.

Definition counters (q : list (Event cont)) : list nat :=
  omap (fun e => arrivals_counter (continuation e)) q.

(** The passenger a resumed generator creates. *)
Definition spawned (nm : pname) (k : cont) : nat :=
  match k with
  | k_passenger_arrivals i => is_named nm (Some (Passenger (S i)))
  | _ => 0
  end.

Definition next_counter (k : cont) : nat :=
  match k with
  | k_passenger_arrivals i => S i
  | _ => 0
  end.

(** No name occurs twice, there is one [passenger_arrivals], and the
    passengers it has yet to create are not there. *)
Record names_invariant {R} (s : sim R) : Prop := {
  ni_unique : forall nm, (named nm s <= 1)%nat;
  ni_counter : exists i, counters (pending (env s)) = [i] /\
                         forall j, (i < j)%nat -> named (Passenger j) s = 0%nat
}.

(** The passengers in the system: those a pending event resumes and those
    waiting for a resource. *)
Definition cont_passenger (k : cont) : list passenger :=
  match k with
  | k_granted p _ | k_served p _ => [p]
  | _ => []
  end.

Definition lane_waiters (ln : lane_t) : list passenger :=
  flat_map (fun st => waiters (lane_get ln st)) stages.

Definition live_passengers {R} (s : sim R) : list passenger :=
  flat_map (fun e => cont_passenger (continuation e)) (pending (env s))
  ++ flat_map lane_waiters (lanes s).



(** Forget [wait_times]. *)
Definition erase {R} (s : sim R) : sim R :=
  mkSim (env s) (lanes s) (rng s) [] (completed s).



(** The records a run has added to [wait_times]. *)
Definition new_records {R} (g : globals R) (s : sim R) : list Q :=
  drop (length (g_wait_times g)) (wait_times s).

(** The globals of a fresh interpreter whose generator is at its start, and
    the same with two sojourn times left over in [wait_times]. *)
Definition fresh_globals : globals cyclic_source :=
  mkGlobals (R := cyclic_source) 0%nat [].


(** Runs of the three programs on the concrete random source, and the states
    they end in. *)
Definition final_state {R} (r : result (sim R * bool)) (default : sim R) : sim R :=
  match r with
  | Ok (s, _) => s
  | Raise _ => default
  end.

Definition central_run (g : globals cyclic_source) : sim cyclic_source :=
  final_state (run_airport cyclic_source central_queue 200 5 4 g)
              (setup cyclic_source central_queue 4 g).

Definition random_run : sim cyclic_source :=
  final_state (run_airport cyclic_source multiple_queues_random_selection
                           400 8 4 fresh_globals)
              (setup cyclic_source multiple_queues_random_selection 4 fresh_globals).

Definition dynamic_run : sim cyclic_source :=
  final_state (run_airport cyclic_source multiple_queues_dynamic_selection_optimal
                           400 8 4 fresh_globals)
              (setup cyclic_source multiple_queues_dynamic_selection_optimal 4
                     fresh_globals).

(** *** What the scheduler does

    The generators [env.run] resumes, in order, each with the clock at its
    resumption: [env_steps] seen from outside.  A [k_check_passenger] entry
    is the start of the process of a passenger, a [k_served] entry for body
    screening the resumption at which it leaves. *)
Fixpoint env_trace {R} (v : variant) (fuel : nat) (running_time : Q) (s : sim R)
  : list (Q * cont) :=
  match fuel with
  | O => []
  | S fuel =>
      match next_event running_time (env s) with
      | None => []
      | Some (k, e) =>
          (now e, k) :: match resume R v k (set_env R e s) with
                        | Ok s => env_trace v fuel running_time s
                        | Raise _ => []
                        end
      end
  end.

Definition run_trace {R} (v : variant) (fuel : nat) (running_time : Q)
    (num_lanes : nat) (g : globals R) : list (Q * cont) :=
  env_trace v fuel running_time (setup R v num_lanes g).

(** The process of [p] was started at the clock value [arrival_time p]. *)
Definition started (tr : list (Q * cont)) (p : passenger) : Prop :=
  exists assigned_lane,
    (arrival_time p, k_check_passenger (name p) assigned_lane) ∈ tr.

(** The process of the passenger of [c] ended its body screening, its last
    stage, at the clock value [departure_time c]. *)
Definition finished_at (tr : list (Q * cont)) (c : CompletionRecord) : Prop :=
  exists p, name p = name (entity c) /\
            (departure_time c, k_served p body_screener) ∈ tr.

Definition cont_started (tr : list (Q * cont)) (k : cont) : Prop :=
  match k with
  | k_granted p _ | k_served p _ => started tr p
  | _ => True
  end.

Record trace_invariant {R} (tr : list (Q * cont)) (s : sim R) : Prop := {
  tr_events : Forall (fun e => cont_started tr (continuation e)) (pending (env s));
  tr_waiters : Forall_waiters (fun _ _ p => started tr p) (lanes s);
  tr_completed : Forall (fun c => started tr (entity c) /\ finished_at tr c)
                        (completed s)
}.

(** How often the process of the passenger called [nm] has been started. *)
Fixpoint starts (nm : pname) (tr : list (Q * cont)) : nat :=
  match tr with
  | [] => 0
  | (_, k_check_passenger nm' _) :: tr => is_named nm (Some nm') + starts nm tr
  | _ :: tr => starts nm tr
  end.

(** How many processes of a passenger called [nm] are yet to start. *)
Fixpoint pending_starts (nm : pname) (q : list (Event cont)) : nat :=
  match q with
  | [] => 0
  | e :: q =>
      match continuation e with
      | k_check_passenger nm' _ => is_named nm (Some nm')
      | _ => 0
      end + pending_starts nm q
  end.

(** ** Further notions used by the properties beyond the claims *)

(** The capacity each resource is created with ([run_airport] for the central
    queue, [AirportSecurity.__init__] for the lanes). *)
Definition stage_capacity (v : variant) (st : stage) : nat :=
  match v with
  | central_queue =>
      match st with
      | officer => 2
      | baggage_screener => 6
      | body_screener => 2
      end
  | _ => 1
  end.

(** A pool as the programs keep it: never more slots in use than it has, and
    nobody waiting while a slot is free. *)
Definition pool_ok (capacity0 : nat) (r : ResourcePool passenger) : Prop :=
  capacity r = capacity0 /\
  (in_use r <= capacity r)%nat /\
  (waiters r <> [] -> in_use r = capacity r).

(** How many of the passengers [ps] use lane [l]. *)
Definition in_lane (l : nat) (ps : list passenger) : nat :=
  length (List.filter (fun p => Nat.eqb (lane p) l) ps).

(** The least time the stages before [st] take, and the least time the
    stages up to [st] take: the sums of the lower bounds of their service
    times. *)
Definition time_before (st : stage) : Q :=
  sum_Q (map (fun st' => fst (service_bounds st')) (stages_before st)).

Definition time_through (st : stage) : Q :=
  time_before st + fst (service_bounds st).

Definition cont_bounds_ok (t : Q) (k : cont) : Prop :=
  match k with
  | k_granted p st => 0 <= arrival_time p /\ arrival_time p + time_before st <= t
  | k_served p st => 0 <= arrival_time p /\ arrival_time p + time_through st <= t
  | _ => True
  end.

Definition waiter_bounds_ok (t : Q) (st : stage) (p : passenger) : Prop :=
  0 <= arrival_time p /\ arrival_time p + time_before st <= t.

Definition completion_bounds_ok (running_time : Q) (c : CompletionRecord) : Prop :=
  0 <= arrival_time (entity c) /\
  arrival_time (entity c) + time_through body_screener <= departure_time c /\
  departure_time c <= running_time.

(** Nobody is through a stage sooner than the service times allow, and no
    event beyond the running time is run. *)
Record bounds_invariant {R} (running_time : Q) (s : sim R) : Prop := {
  bi_now : 0 <= now (env s);
  bi_events : Forall (fun e => cont_bounds_ok (due_time e) (continuation e))
                     (pending (env s));
  bi_waiters : Forall_waiters (fun _ st p => waiter_bounds_ok (now (env s)) st p)
                              (lanes s);
  bi_completed : Forall (completion_bounds_ok running_time) (completed s)
}.

(** How often the name [nm] has been given to a passenger when
    [passenger_arrivals] has counted up to [i]: once to each of the initial
    passengers of [run_airport] and to [Passenger 1] ... [Passenger i]. *)
Definition created (v : variant) (num_lanes i : nat) (nm : pname) : nat :=
  match nm with
  | Passenger j => if bool_decide (1 <= j <= i)%nat then 1 else 0
  | InitialPassenger j =>
      match v with
      | central_queue => if bool_decide (1 <= j <= 2)%nat then 1 else 0
      | _ => 0
      end
  | InitialPassengerLane l j =>
      match v with
      | central_queue => 0
      | _ => if bool_decide ((1 <= l <= num_lanes)%nat /\ (1 <= j <= 2)%nat)
             then 1 else 0
      end
  end.

(** *** The order within a lane *)

(** The passenger for whom a suspended generator holds stage [st] of lane
    [l], if it does. *)
Definition cont_holder (l : nat) (st : stage) (k : cont) : list passenger :=
  match k with
  | k_granted p st' | k_served p st' =>
      if bool_decide (lane p = l /\ st' = st) then [p] else []
  | _ => []
  end.

Definition stage_holders (l : nat) (st : stage) (q : list (Event cont))
  : list passenger :=
  flat_map (fun e => cont_holder l st (continuation e)) q.

Definition stage_waiters (l : nat) (st : stage) (lanes : list lane_t)
  : list passenger :=
  match lanes !! l with
  | Some ln => waiters (lane_get ln st)
  | None => []
  end.

(** The passengers at stage [st] of lane [l]: whoever holds the resource,
    then those who wait for it, in the order of the queue. *)
Definition stage_line {R} (l : nat) (st : stage) (s : sim R) : list passenger :=
  stage_holders l st (pending (env s)) ++ stage_waiters l st (lanes s).

(** The passengers who went through lane [l], in the order they left. *)
Definition lane_completed {R} (l : nat) (s : sim R) : list passenger :=
  List.filter (fun p => Nat.eqb (lane p) l) (map entity (completed s)).

(** Everybody who has entered lane [l], those furthest ahead first: the
    passengers who have left, then those at body screening, at baggage
    screening and at the boarding-pass check. *)
Definition lane_line {R} (l : nat) (s : sim R) : list passenger :=
  lane_completed l s
  ++ stage_line l body_screener s
  ++ stage_line l baggage_screener s
  ++ stage_line l officer s.

(** The arrival time of [p], if [p] is at stage [st] of lane [l] when it is
    at stage [st'] of its own lane. *)
Definition here (l : nat) (st : stage) (p : passenger) (st' : stage) : list Q :=
  if bool_decide (lane p = l /\ st' = st) then [arrival_time p] else [].

(** *** The throughput of a lane *)

(** The number of passengers of lane [l] who are through baggage screening:
    those who have left and those at body screening. *)
Definition past_baggage {R} (l : nat) (s : sim R) : nat :=
  (length (lane_completed l s) + length (stage_line l body_screener s))%nat.

(** An event that ends a service is due no sooner than the least service
    time of its stage after [t]. *)
Definition service_event_ok (t : Q) (e : Event cont) : Prop :=
  match continuation e with
  | k_served p st => t + fst (service_bounds st) <= due_time e
  | _ => True
  end.

(** The baggage screening of a lane takes at least 2 minutes per passenger:
    whoever is being screened is not through before twice the number of
    passengers then through. *)
Definition baggage_event_ok {R} (s : sim R) (e : Event cont) : Prop :=
  match continuation e with
  | k_served p baggage_screener =>
      2 * inject_Z (Z.of_nat (past_baggage (lane p) s + 1)) <= due_time e
  | _ => True
  end.

Record throughput_invariant {R} (running_time : Q) (s : sim R) : Prop := {
  th_now : now (env s) <= running_time;
  th_past : forall l, 2 * inject_Z (Z.of_nat (past_baggage l s)) <= now (env s);
  th_events : Forall (baggage_event_ok s) (pending (env s))
}.
(** * Properties *)

(** ** Rounding and the summary *)

Lemma Qltb_lt (a b : Q) : Qltb a b = true <-> a < b.
Proof.
  unfold Qltb. rewrite Qlt_alt. destruct (Qcompare a b); split; congruence.
Qed.

Lemma Qltb_ge (a b : Q) : Qltb a b = false <-> b <= a.
Proof.
  split; intros H.
  - apply Qnot_lt_le. intros Hlt. apply Qltb_lt in Hlt. congruence.
  - destruct (Qltb a b) eqn:E; [|reflexivity].
    apply Qltb_lt in E. lra.
Qed.

Lemma Qcompare_Lt (a b : Q) : a < b -> Qcompare a b = Lt.
Proof. intros H. apply Qlt_alt. exact H. Qed.

Lemma py_round_comp (x y : Q) : x == y -> py_round x = py_round y.
Proof.
  intros H. unfold py_round.
  rewrite (Qfloor_comp _ _ H).
  assert (Hc : Qcompare (x - inject_Z (Qfloor y)) (1 # 2)
               = Qcompare (y - inject_Z (Qfloor y)) (1 # 2))
    by (apply Qcompare_comp; [rewrite H|]; reflexivity).
  rewrite Hc. reflexivity.
Qed.

Lemma py_round_inject_Z (z : Z) : py_round (inject_Z z) = z.
Proof.
  unfold py_round. rewrite Qfloor_Z.
  rewrite Qcompare_Lt by lra. reflexivity.
Qed.

Lemma Qfloor_bounds (x : Q) (lo hi : Z) :
  inject_Z lo <= x -> x < inject_Z hi -> (lo <= Qfloor x < hi)%Z.
Proof.
  intros Hlo Hhi. split.
  - rewrite <- (Qfloor_Z lo). apply Qfloor_resp_le, Hlo.
  - pose proof (Qfloor_le x) as Hf.
    assert (Hlt : inject_Z (Qfloor x) < inject_Z hi) by lra.
    rewrite <- Zlt_Qlt in Hlt. exact Hlt.
Qed.

Lemma py_round_bounds (x : Q) (lo hi : Z) :
  inject_Z lo <= x -> x < inject_Z hi -> (lo <= py_round x <= hi)%Z.
Proof.
  intros Hlo Hhi. pose proof (Qfloor_bounds x lo hi Hlo Hhi) as Hf.
  unfold py_round.
  destruct (Qcompare _ _); [destruct (Z.even _)| |]; lia.
Qed.

Lemma py_round_upper_half (x : Q) (n : Z) :
  Z.even n = false ->
  inject_Z n + (1 # 2) <= x -> x < inject_Z (n + 1) -> py_round x = (n + 1)%Z.
Proof.
  intros Hodd Hlo Hhi.
  assert (Hf : Qfloor x = n).
  { assert (inject_Z n <= x) by lra.
    pose proof (Qfloor_bounds x n (n + 1) H Hhi). lia. }
  unfold py_round. rewrite Hf.
  destruct (Qcompare (x - inject_Z n) (1 # 2)) eqn:E.
  - rewrite Hodd. reflexivity.
  - apply Qlt_alt in E. lra.
  - reflexivity.
Qed.

Lemma frac_bounds (m : Q) :
  0 <= m - inject_Z (Qfloor m) /\ m - inject_Z (Qfloor m) < 1.
Proof.
  pose proof (Qfloor_le m) as Hle. pose proof (Qlt_floor m) as Hlt.
  rewrite inject_Z_plus in Hlt. change (inject_Z 1) with 1 in Hlt.
  split; lra.
Qed.

Lemma calculate_wait_time_of_mean (l : list Q) (m : Q) :
  mean l = Ok m ->
  calculate_wait_time l
  = Ok (py_round (inject_Z (Qfloor m)), py_round ((m - inject_Z (Qfloor m)) * 60)).
Proof. intros H. unfold calculate_wait_time. rewrite H. reflexivity. Qed.

(** C3 (as amended): with no recorded sojourn time [calculate_wait_time]
    raises [StatisticsError], which nothing in [main] catches, so a run
    without completions ends in that error; with at least one recorded time
    a summary is returned. *)
Theorem calculate_wait_time_no_data {R : RandomSource} (v : variant)
    (fuel : nat) (running_time : Q) (num_lanes : nat) (g : globals R)
    (s : sim R) (finished : bool) :
  run_airport R v fuel running_time num_lanes g = Ok (s, finished) ->
  wait_times s = [] ->
  calculate_wait_time (wait_times s) = Raise StatisticsError /\
  simulate_and_report R v fuel running_time num_lanes g = Raise StatisticsError /\
  (forall l : list Q, l <> [] -> exists summary, calculate_wait_time l = Ok summary).
Proof.
  intros Hrun Hempty. split; [|split].
  - rewrite Hempty. reflexivity.
  - unfold simulate_and_report. rewrite Hrun. cbn. rewrite Hempty. reflexivity.
  - intros l Hl. destruct l as [|x l]; [congruence|].
    eexists. apply calculate_wait_time_of_mean. reflexivity.
Qed.

(** A run that stops before anybody is through, and its summary. *)
Lemma calculate_wait_time_no_data_witness :
  calculate_wait_time
    (wait_times (mkSim (R := cyclic_source) new_scheduler [] 0%nat [] []))
  = Raise StatisticsError /\
  simulate_and_report cyclic_source central_queue 100 (1 # 10) 4
    (mkGlobals (R := cyclic_source) 0%nat [])
  = Raise StatisticsError.
Proof.
  destruct (run_airport cyclic_source central_queue 100 (1 # 10) 4
              (mkGlobals (R := cyclic_source) 0%nat [])) as [[s b]|e] eqn:Hrun;
    [|vm_compute in Hrun; discriminate].
  assert (Hempty : wait_times s = [])
    by (vm_compute in Hrun; injection Hrun as <- _; reflexivity).
  destruct (calculate_wait_time_no_data central_queue 100 (1 # 10) 4 _ s b Hrun Hempty)
    as (_ & H & _).
  split; [reflexivity | exact H].
Defined.

(** C3 (as stated) fails: the run below ends at its horizon with no
    completion, and asking for the summary raises [StatisticsError]. *)
Lemma summary_without_completions_raises :
  exists s,
    run_airport cyclic_source central_queue 100 (1 # 10) 4
      (mkGlobals (R := cyclic_source) 0%nat []) = Ok (s, true) /\
    wait_times s = [] /\
    simulate_and_report cyclic_source central_queue 100 (1 # 10) 4
      (mkGlobals (R := cyclic_source) 0%nat []) = Raise StatisticsError.
Proof.
  eexists. split; [vm_compute; reflexivity|]. split; reflexivity.
Qed.

(** ** The arrival rate schedule *)

Lemma Forall_enqueue {K} (P : Event K -> Prop) (e : Event K) (q : list (Event K)) :
  Forall P (enqueue e q) <-> P e /\ Forall P q.
Proof.
  induction q as [|x q IH]; cbn.
  - rewrite Forall_singleton, Forall_nil. tauto.
  - destruct (earlier e x).
    + rewrite Forall_cons. tauto.
    + rewrite !Forall_cons, IH. tauto.
Qed.

Lemma elem_of_enqueue {K} (e : Event K) (q : list (Event K)) : e ∈ enqueue e q.
Proof.
  induction q as [|x q IH]; cbn.
  - apply list_elem_of_here.
  - destruct (earlier e x).
    + apply list_elem_of_here.
    + apply list_elem_of_further, IH.
Qed.

(** C6: the mean interarrival time is 1 before time 10, 1/2 from 10 up to
    50 and 1 from 50 on; [passenger_arrivals] evaluates it once per gap, at
    the clock value of the arrival it resumes from, and waits for a gap
    sampled with that mean. *)
Theorem get_mean_interarrival_time_schedule (t : Q) :
  (t < 10 -> get_mean_interarrival_time t = 1) /\
  (10 <= t -> t < 50 -> get_mean_interarrival_time t = 1 # 2) /\
  (50 <= t -> get_mean_interarrival_time t = 1) /\
  (forall (R : RandomSource) (i : nat) (s : sim R),
      now (env s) = t ->
      let gap := fst (expovariate R (1 / get_mean_interarrival_time t) (rng s)) in
      mkEvent (t + gap) (next_sequence (env s)) (k_passenger_arrivals i)
        ∈ pending (env (passenger_arrivals R i s))).
Proof.
  unfold get_mean_interarrival_time. repeat split.
  - intros H. apply Qltb_lt in H. rewrite H. reflexivity.
  - intros H1 H2. apply Qltb_ge in H1. apply Qltb_lt in H2.
    rewrite H1, H2. reflexivity.
  - intros H. assert (H' : 10 <= t) by lra.
    apply Qltb_ge in H, H'. rewrite H, H'. reflexivity.
  - intros R i s Hnow. unfold passenger_arrivals. rewrite Hnow.
    fold (get_mean_interarrival_time t).
    destruct (expovariate R _ (rng s)) as [gap g]. cbn.
    rewrite Hnow. apply elem_of_enqueue.
Qed.

Lemma get_mean_interarrival_time_schedule_witness :
  get_mean_interarrival_time 5 = 1 /\
  get_mean_interarrival_time 25 = 1 # 2 /\
  get_mean_interarrival_time 70 = 1.
Proof.
  split; [|split].
  - destruct (get_mean_interarrival_time_schedule 5) as (H & _).
    apply H. vm_compute. reflexivity.
  - destruct (get_mean_interarrival_time_schedule 25) as (_ & H & _).
    apply H; vm_compute; [discriminate | reflexivity].
  - destruct (get_mean_interarrival_time_schedule 70) as (_ & _ & H & _).
    apply H. vm_compute. discriminate.
Defined.

(** ** The least loaded lane *)

Lemma total_load_sum (ln : lane_t) :
  total_load ln
  = (effective_load (lane_get ln officer)
     + effective_load (lane_get ln baggage_screener)
     + effective_load (lane_get ln body_screener))%nat.
Proof. reflexivity. Qed.

Lemma effective_load_cases (r : ResourcePool passenger) :
  effective_load r
  = (length (waiters r) + if (capacity r <=? in_use r)%nat then 1 else 0)%nat.
Proof. unfold effective_load. destruct (_ <=? _)%nat; lia. Qed.

Lemma least_loaded_first (ln : lane_t) : least_loaded [ln] ln 0.
Proof.
  split; [reflexivity|]. split.
  - intros j ln' H. apply list_lookup_singleton_Some in H as [_ <-]. lia.
  - intros j ln' H. lia.
Qed.

Lemma least_loaded_keep (seen : list lane_t) (ln new : lane_t) (i : nat) :
  least_loaded seen ln i ->
  (total_load ln <= total_load new)%nat ->
  least_loaded (seen ++ [new]) ln i.
Proof.
  intros (Hi & Hmin & Hfirst) Hle. split; [|split].
  - apply lookup_app_l_Some, Hi.
  - intros j ln' H. apply lookup_app_Some in H as [H|[_ H]].
    + eapply Hmin, H.
    + apply list_lookup_singleton_Some in H as [_ <-]. exact Hle.
  - intros j ln' Hj H. apply lookup_app_Some in H as [H|[Hlen _]].
    + eapply Hfirst; eassumption.
    + apply lookup_lt_Some in Hi. lia.
Qed.

Lemma least_loaded_replace (seen : list lane_t) (ln new : lane_t) (i : nat) :
  least_loaded seen ln i ->
  (total_load new < total_load ln)%nat ->
  least_loaded (seen ++ [new]) new (length seen).
Proof.
  intros (Hi & Hmin & Hfirst) Hlt. split; [|split].
  - rewrite lookup_app_r by lia. rewrite Nat.sub_diag. reflexivity.
  - intros j ln' H. apply lookup_app_Some in H as [H|[_ H]].
    + specialize (Hmin _ _ H). lia.
    + apply list_lookup_singleton_Some in H as [_ <-]. lia.
  - intros j ln' Hj H. rewrite lookup_app_l in H by exact Hj.
    specialize (Hmin _ _ H). lia.
Qed.

Lemma choose_dynamic_lane_loop_spec (rest : list lane_t) :
  forall seen best,
    best_so_far seen best ->
    best_so_far (seen ++ rest) (choose_dynamic_lane_loop rest (length seen) best).
Proof.
  induction rest as [|ln rest IH]; intros seen best Hbest.
  - rewrite app_nil_r. exact Hbest.
  - cbn [choose_dynamic_lane_loop].
    destruct best as [[best_lane best_lane_index] best_load].
    replace (seen ++ ln :: rest) with ((seen ++ [ln]) ++ rest)
      by (rewrite <- app_assoc; reflexivity).
    replace (S (length seen)) with (length (seen ++ [ln]))
      by (rewrite length_app; cbn; lia).
    apply IH.
    destruct Hbest as [[-> Hinit]|(ln0 & i & Hinit & Hleast)];
      injection Hinit as -> -> ->.
    + right. exists ln, 0%nat. split; [reflexivity | apply least_loaded_first].
    + cbn [load_ltb]. destruct (_ <? _)%nat eqn:Hlt.
      * apply Nat.ltb_lt in Hlt. right. exists ln, (length seen).
        split; [reflexivity | eapply least_loaded_replace; eassumption].
      * apply Nat.ltb_ge in Hlt. right. exists ln0, i.
        split; [reflexivity | apply least_loaded_keep; assumption].
Qed.

Lemma choose_dynamic_lane_spec (lanes : list lane_t) :
  lanes <> [] ->
  exists ln i, choose_dynamic_lane lanes = (Some ln, Z.of_nat i) /\
               least_loaded lanes ln i.
Proof.
  intros Hne. unfold choose_dynamic_lane.
  destruct (choose_dynamic_lane_loop_spec lanes [] (None, (-1)%Z, Inf))
    as [[Hnil _]|(ln & i & Hbest & Hleast)].
  - left. split; reflexivity.
  - cbn in Hnil. congruence.
  - cbn [app length] in Hbest, Hleast. rewrite Hbest. exists ln, i.
    split; [reflexivity | exact Hleast].
Qed.

(** C10: with no lane [choose_dynamic_lane] returns [(None, -1)] and does not
    raise; with at least one lane it returns a lane of the list together with
    the index, between 0 and the number of lanes minus 1, it is found at. *)
Theorem choose_dynamic_lane_total (lanes : list lane_t) :
  choose_dynamic_lane [] = (None, (-1)%Z) /\
  (lanes <> [] ->
   exists ln i, choose_dynamic_lane lanes = (Some ln, Z.of_nat i) /\
                lanes !! i = Some ln /\
                (0 <= Z.of_nat i <= Z.of_nat (length lanes) - 1)%Z).
Proof.
  split; [reflexivity|]. intros Hne.
  destruct (choose_dynamic_lane_spec lanes Hne) as (ln & i & Heq & Hi & _).
  exists ln, i. split; [exact Heq|]. split; [exact Hi|].
  apply lookup_lt_Some in Hi. lia.
Qed.

Lemma choose_dynamic_lane_total_witness :
  exists ln i,
    choose_dynamic_lane (AirportSecurity multiple_queues_dynamic_selection_optimal 4)
    = (Some ln, Z.of_nat i) /\
    AirportSecurity multiple_queues_dynamic_selection_optimal 4 !! i = Some ln /\
    (0 <= Z.of_nat i <= 3)%Z.
Proof.
  apply (choose_dynamic_lane_total
           (AirportSecurity multiple_queues_dynamic_selection_optimal 4)).
  vm_compute. discriminate.
Defined.

(** ** First come, first served *)

(** C1: every resource of a lane is created with capacity 1; in a pool of
    capacity 1 asked for at times 0, 1 and 2 by entities that hold it for 5
    time units, the second entity begins service at time 5 and the third at
    time 10; a release hands the slot to the earliest waiter, and whoever
    asks while the pool is full queues behind all the waiters, so is never
    served before them. *)
Theorem fcfs_capacity_one :
  (forall (num_lanes l : nat) (ln : lane_t) (st : stage),
      AirportSecurity multiple_queues_dynamic_selection_optimal num_lanes !! l
      = Some ln ->
      lane_get ln st = new_pool 1) /\
  (exists s, FCFS.scenario = Ok (s, true) /\
             FCFS.service_log s = [(1%nat, 0); (2%nat, 5); (3%nat, 10)] /\
             pending (FCFS.env s) = []) /\
  (forall (W : Type) (n : nat) (w : W) (ws : list W),
      release (mkPool 1 (S n) (w :: ws)) = Ok (Some w, mkPool 1 (S n) ws)) /\
  (forall (W : Type) (n : nat) (later : W) (ws : list W),
      acquire later (mkPool 1 (S n) ws) = (false, mkPool 1 (S n) (ws ++ [later]))) /\
  (forall (W : Type) (n : nat) (w later : W) (ws : list W),
      release (snd (acquire later (mkPool 1 (S n) (w :: ws))))
      = Ok (Some w, mkPool 1 (S n) (ws ++ [later]))).
Proof.
  split; [|split; [|split; [|split]]].
  - intros num_lanes l ln st Hl. cbn in Hl.
    apply lookup_replicate in Hl as [-> _]. destruct st; reflexivity.
  - eexists. split; [vm_compute; reflexivity|]. split; reflexivity.
  - reflexivity.
  - intros W n later ws. unfold acquire. cbn [in_use capacity waiters].
    destruct n; reflexivity.
  - intros W n w later ws. unfold acquire. cbn [in_use capacity waiters].
    destruct n; reflexivity.
Qed.

Lemma fcfs_capacity_one_witness :
  lane_get (mkLane (new_pool 1) (new_pool 1) (new_pool 1)) officer = new_pool 1.
Proof.
  destruct fcfs_capacity_one as (H & _).
  apply (H 4%nat 0%nat). reflexivity.
Defined.

(** ** The running time *)

Lemma now_setup {R : RandomSource} (v : variant) (num_lanes : nat) (g : globals R) :
  now (env (setup R v num_lanes g)) = 0.
Proof.
  unfold setup. cbn [env_process set_env env schedule now].
  set (s0 := mkSim _ _ _ _ _).
  assert (H0 : now (env s0) = 0) by reflexivity.
  clearbody s0. revert s0 H0.
  induction (initial_passengers v num_lanes) as [|k ks IH]; intros s0 H0; cbn.
  - exact H0.
  - apply IH. exact H0.
Qed.

Lemma run_airport_positive {R : RandomSource} (v : variant) (fuel : nat)
    (running_time : Q) (num_lanes : nat) (g : globals R) :
  0 < running_time ->
  run_airport R v fuel running_time num_lanes g
  = env_steps R v fuel running_time (setup R v num_lanes g).
Proof.
  intros HT. unfold run_airport, env_run. rewrite now_setup.
  apply Qltb_lt in HT. rewrite HT. reflexivity.
Qed.

Lemma run_airport_nonpositive {R : RandomSource} (v : variant) (fuel : nat)
    (running_time : Q) (num_lanes : nat) (g : globals R) :
  running_time <= 0 ->
  run_airport R v fuel running_time num_lanes g = Raise ValueError.
Proof.
  intros HT. unfold run_airport, env_run. rewrite now_setup.
  apply Qltb_ge in HT. rewrite HT. reflexivity.
Qed.

Lemma run_airport_steps {R : RandomSource} (v : variant) (fuel : nat)
    (running_time : Q) (num_lanes : nat) (g : globals R) (r : sim R * bool) :
  run_airport R v fuel running_time num_lanes g = Ok r ->
  0 < running_time /\
  env_steps R v fuel running_time (setup R v num_lanes g) = Ok r.
Proof.
  unfold run_airport, env_run. rewrite now_setup.
  destruct (Qltb 0 running_time) eqn:HT; [|discriminate].
  apply Qltb_lt in HT. intros H. split; assumption.
Qed.

(** ** Pools, lanes and pending events *)

Lemma acquire_waiters {W} (w : W) (r r' : ResourcePool W) (granted : bool) :
  acquire w r = (granted, r') ->
  waiters r' = if granted then waiters r else waiters r ++ [w].
Proof.
  unfold acquire. destruct (_ <? _)%nat; intros H; injection H as <- <-; reflexivity.
Qed.

Lemma release_waiters {W} (r r' : ResourcePool W) (w : option W) :
  release r = Ok (w, r') ->
  match w with
  | Some w => waiters r = w :: waiters r'
  | None => waiters r = [] /\ waiters r' = []
  end.
Proof.
  unfold release. destruct (in_use r); [discriminate|].
  destruct (waiters r); intros H; injection H as <- <-; [split|]; reflexivity.
Qed.

Lemma lane_get_set (ln : lane_t) (st st' : stage) (r : ResourcePool passenger) :
  lane_get (lane_set ln st r) st' = if decide (st = st') then r else lane_get ln st'.
Proof. destruct st, st'; reflexivity. Qed.

Lemma Forall_pools_insert (P : nat -> stage -> ResourcePool passenger -> Prop)
    (lanes : list lane_t) (l : nat) (ln : lane_t) (st : stage)
    (r : ResourcePool passenger) :
  Forall_pools P lanes ->
  lanes !! l = Some ln ->
  P l st r ->
  Forall_pools P (<[l := lane_set ln st r]> lanes).
Proof.
  intros Hall Hl Hr l' ln' st' Hl'.
  apply list_lookup_insert_Some in Hl' as [(<- & <- & _)|(_ & Hl')].
  - rewrite lane_get_set. destruct (decide (st = st')) as [<-|_].
    + exact Hr.
    + apply (Hall _ _ _ Hl).
  - apply (Hall _ _ _ Hl').
Qed.

Lemma Forall_waiters_insert (P : nat -> stage -> passenger -> Prop)
    (lanes : list lane_t) (l : nat) (ln : lane_t) (st : stage)
    (r : ResourcePool passenger) :
  Forall_waiters P lanes ->
  lanes !! l = Some ln ->
  Forall (P l st) (waiters r) ->
  Forall_waiters P (<[l := lane_set ln st r]> lanes).
Proof.
  apply (Forall_pools_insert (fun l st r => Forall (P l st) (waiters r))).
Qed.

Lemma Forall_pools_AirportSecurity (P : nat -> stage -> ResourcePool passenger -> Prop)
    (v : variant) (num_lanes : nat) :
  (forall l st c, (0 < c)%nat -> P l st (new_pool c)) ->
  Forall_pools P (AirportSecurity v num_lanes).
Proof.
  intros Hnew l ln st Hl.
  destruct v; cbn in Hl.
  - apply list_lookup_singleton_Some in Hl as [_ <-].
    destruct st; apply Hnew; lia.
  - apply lookup_replicate in Hl as [-> _]. destruct st; apply Hnew; lia.
  - apply lookup_replicate in Hl as [-> _]. destruct st; apply Hnew; lia.
Qed.

Lemma Forall_waiters_impl (P P' : nat -> stage -> passenger -> Prop)
    (lanes : list lane_t) :
  Forall_waiters P lanes ->
  (forall l st p, P l st p -> P' l st p) ->
  Forall_waiters P' lanes.
Proof.
  intros Hall Himpl l ln st Hl.
  eapply Forall_impl; [apply (Hall _ _ _ Hl) | apply Himpl].
Qed.

Lemma Forall_waiters_AirportSecurity (P : nat -> stage -> passenger -> Prop)
    (v : variant) (num_lanes : nat) :
  Forall_waiters P (AirportSecurity v num_lanes).
Proof.
  apply (Forall_pools_AirportSecurity (fun l st r => Forall (P l st) (waiters r))).
  intros l st c _. constructor.
Qed.

(** ** Histories *)

Lemma history_log_request (p : passenger) (st : stage) :
  history p = history_before p st ->
  history (log p (Request st (lane p)))
  = history_waiting (log p (Request st (lane p))) st.
Proof. intros H. cbn. rewrite H. reflexivity. Qed.

Lemma history_log_acquire (p : passenger) (st : stage) (l : nat) :
  history p = history_waiting p st -> lane p = l ->
  history (log p (Acquire st l)) = history_granted (log p (Acquire st l)) st.
Proof.
  intros H <-. cbn. rewrite H. unfold history_waiting, history_granted.
  rewrite <- app_assoc. reflexivity.
Qed.

Lemma history_log_serve (p : passenger) (st : stage) :
  history p = history_granted p st ->
  history (log p (Serve st (lane p)))
  = history_in_service (log p (Serve st (lane p))) st.
Proof.
  intros H. cbn. rewrite H. unfold history_granted, history_in_service.
  rewrite <- app_assoc. reflexivity.
Qed.

Lemma history_log_release (p : passenger) (st st' : stage) :
  history p = history_in_service p st ->
  next_stage st = Some st' ->
  history (log p (Release st (lane p)))
  = history_before (log p (Release st (lane p))) st'.
Proof.
  intros H Hnext. cbn. rewrite H.
  destruct st; cbn in Hnext; try discriminate; injection Hnext as <-; reflexivity.
Qed.

Lemma history_log_depart (p : passenger) (t : Q) :
  history p = history_in_service p body_screener ->
  history (log (log p (Release body_screener (lane p))) (Depart t))
  = full_history (log (log p (Release body_screener (lane p))) (Depart t)) t.
Proof. intros H. cbn. rewrite H. reflexivity. Qed.

Section HistoryInvariant.
Context {R : RandomSource} (v : variant) (before : list Q).

Lemma hi_timeout (d : Q) (k : cont) (s : sim R) :
  history_invariant before s ->
  cont_history_ok k ->
  history_invariant before (env_timeout R d k s).
Proof.
  intros [He Hw Hc Hwt] Hk. split; cbn; try assumption.
  apply Forall_enqueue. split; assumption.
Qed.

Lemma hi_set_rng (g : rng_state R) (s : sim R) :
  history_invariant before s -> history_invariant before (set_rng R g s).
Proof. intros [He Hw Hc Hwt]. split; assumption. Qed.

Lemma hi_set_env (e : EventScheduler cont) (s : sim R) :
  history_invariant before s ->
  Forall (fun e => cont_history_ok (continuation e)) (pending e) ->
  history_invariant before (set_env R e s).
Proof. intros [He Hw Hc Hwt] H. split; assumption. Qed.

Lemma hi_set_pool (l : nat) (st : stage) (ln : lane_t)
    (r : ResourcePool passenger) (s : sim R) :
  history_invariant before s ->
  lanes s !! l = Some ln ->
  Forall (waiter_history_ok l st) (waiters r) ->
  history_invariant before (set_pool R l st ln r s).
Proof.
  intros [He Hw Hc Hwt] Hl Hr. split; cbn; try assumption.
  apply Forall_waiters_insert; assumption.
Qed.

Lemma hi_serve (p : passenger) (st : stage) (s : sim R) :
  history_invariant before s ->
  history p = history_granted p st ->
  history_invariant before (serve R p st s).
Proof.
  intros Hinv Hp. unfold serve.
  destruct (service_bounds st) as [low high].
  destruct (uniform R low high (rng s)) as [d g].
  apply hi_timeout; [apply hi_set_rng, Hinv|].
  apply history_log_serve, Hp.
Qed.

Lemma hi_request (p : passenger) (st : stage) (s s' : sim R) :
  history_invariant before s ->
  history p = history_before p st ->
  request R p st s = Ok s' ->
  history_invariant before s'.
Proof.
  intros Hinv Hp. unfold request.
  destruct (lanes s !! lane p) as [ln|] eqn:Hl; [|discriminate].
  destruct (acquire _ _) as [[] r] eqn:Hacq;
    (intros H; injection H as <-); apply acquire_waiters in Hacq.
  - apply hi_serve.
    + apply hi_set_pool; [assumption..|]. rewrite Hacq.
      apply (hi_waiters _ _ Hinv _ _ _ Hl).
    + apply history_log_acquire; [|reflexivity].
      apply history_log_request, Hp.
  - apply hi_set_pool; [assumption..|]. rewrite Hacq.
    apply Forall_app. split; [apply (hi_waiters _ _ Hinv _ _ _ Hl)|].
    apply Forall_singleton. split; [|reflexivity].
    apply history_log_request, Hp.
Qed.

Lemma hi_release_stage (p : passenger) (st : stage) (s s' : sim R) :
  history_invariant before s ->
  release_stage R p st s = Ok s' ->
  history_invariant before s'.
Proof.
  intros Hinv. unfold release_stage.
  destruct (lanes s !! lane p) as [ln|] eqn:Hl; [|discriminate].
  destruct (release _) as [[w r]|e] eqn:Hrel; [|discriminate].
  cbn. intros H. injection H as <-.
  apply release_waiters in Hrel.
  pose proof (hi_waiters _ _ Hinv _ _ st Hl) as Hws. cbv beta in Hws.
  destruct w as [w|].
  - rewrite Hrel in Hws. apply Forall_cons in Hws as [[Hw Hlane] Hws].
    apply hi_timeout; [apply hi_set_pool; assumption|].
    apply history_log_acquire; assumption.
  - apply hi_set_pool; [assumption..|]. rewrite (proj2 Hrel). constructor.
Qed.

Lemma hi_depart (p : passenger) (s : sim R) :
  history_invariant before s ->
  history p = history_in_service p body_screener ->
  history_invariant before
    (depart R (log p (Release body_screener (lane p))) s).
Proof.
  intros [He Hw Hc Hwt] Hp. split; cbn; try assumption.
  - apply Forall_app. split; [assumption|]. apply Forall_singleton.
    apply history_log_depart, Hp.
  - rewrite Hwt, map_app, app_assoc. reflexivity.
Qed.

Lemma hi_passenger_arrivals (i : nat) (s : sim R) :
  history_invariant before s ->
  history_invariant before (passenger_arrivals R i s).
Proof.
  intros Hinv. unfold passenger_arrivals.
  destruct (expovariate R _ _) as [gap g].
  apply hi_timeout; [apply hi_set_rng, Hinv | exact I].
Qed.

Lemma hi_select_lane (assigned_lane : option nat) (l : nat) (s s' : sim R) :
  history_invariant before s ->
  select_lane R v assigned_lane s = Ok (l, s') ->
  history_invariant before s'.
Proof.
  intros Hinv. unfold select_lane, choice.
  destruct v, assigned_lane; try (intros H; injection H as <- <-; exact Hinv).
  - destruct (lanes s); [discriminate|].
    destruct (randbelow R _ _) as [i g]. destruct (_ !! i); [|discriminate].
    intros H; injection H as <- <-. apply hi_set_rng, Hinv.
  - destruct (choose_dynamic_lane _) as [[ln|] i]; [|discriminate].
    intros H; injection H as <- <-. exact Hinv.
Qed.

Lemma hi_resume (k : cont) (s s' : sim R) :
  history_invariant before s ->
  cont_history_ok k ->
  resume R v k s = Ok s' ->
  history_invariant before s'.
Proof.
  intros Hinv Hk. destruct k as [nm al|p st|p st| |i]; cbn [resume]; unfold check_passenger, check_passenger_served.
  - destruct (select_lane R v al s) as [[l s1]|e] eqn:Hsel; [|discriminate].
    cbn. apply hi_request; [|reflexivity].
    eapply hi_select_lane; eassumption.
  - intros H; injection H as <-. apply hi_serve; assumption.
  - destruct (release_stage R p st s) as [s1|e] eqn:Hrel; [|discriminate].
    cbn. apply hi_release_stage in Hrel; [|assumption].
    destruct (next_stage st) as [st'|] eqn:Hnext.
    + apply hi_request; [assumption|].
      apply history_log_release; assumption.
    + destruct st; try discriminate.
      intros H; injection H as <-. apply hi_depart; assumption.
  - intros H; injection H as <-. apply hi_passenger_arrivals, Hinv.
  - intros H; injection H as <-.
    apply hi_passenger_arrivals, hi_timeout; [assumption | exact I].
Qed.

Lemma hi_env_steps (fuel : nat) (running_time : Q) :
  forall (s s' : sim R) (finished : bool),
    history_invariant before s ->
    env_steps R v fuel running_time s = Ok (s', finished) ->
    history_invariant before s'.
Proof.
  induction fuel as [|fuel IH]; intros s s' finished Hinv; cbn [env_steps].
  - intros H; injection H as <- _. exact Hinv.
  - unfold next_event. destruct (pending (env s)) as [|e rest] eqn:Hpending.
    + intros H; injection H as <- _. exact Hinv.
    + destruct (Qltb _ _).
      * intros H; injection H as <- _. exact Hinv.
      * pose proof (hi_events _ _ Hinv) as He. rewrite Hpending in He.
        apply Forall_cons in He as [Hk He].
        destruct (resume R v _ _) as [s1|err] eqn:Hres; [|discriminate].
        cbn. apply IH. eapply hi_resume; [|exact Hk|exact Hres].
        apply hi_set_env; assumption.
Qed.
End HistoryInvariant.

Lemma initial_passengers_new (v : variant) (num_lanes : nat) :
  Forall (fun k => match k with k_check_passenger _ _ => True | _ => False end)
         (initial_passengers v num_lanes).
Proof.
  destruct v; cbn.
  - repeat constructor.
  - apply List.Forall_flat_map, Forall_forall. intros. repeat constructor.
  - apply List.Forall_flat_map, Forall_forall. intros. repeat constructor.
Qed.

Lemma hi_setup {R : RandomSource} (v : variant) (num_lanes : nat) (g : globals R) :
  history_invariant (g_wait_times g) (setup R v num_lanes g).
Proof.
  unfold setup. apply (hi_timeout _ 0); [|exact I].
  pose proof (initial_passengers_new v num_lanes) as Hnew.
  set (s0 := mkSim _ _ _ _ _).
  assert (H0 : history_invariant (g_wait_times g) s0).
  { split; cbn.
    - constructor.
    - apply Forall_waiters_AirportSecurity.
    - constructor.
    - rewrite app_nil_r. reflexivity. }
  clearbody s0. revert s0 H0. induction Hnew as [|k ks Hk _ IH]; intros s0 H0; cbn.
  - exact H0.
  - apply IH. apply (hi_timeout _ 0); [exact H0|]. destruct k; try contradiction. exact I.
Qed.

Lemma run_airport_history {R : RandomSource} (v : variant) (fuel : nat)
    (running_time : Q) (num_lanes : nat) (g : globals R) (s : sim R)
    (finished : bool) :
  run_airport R v fuel running_time num_lanes g = Ok (s, finished) ->
  history_invariant (g_wait_times g) s.
Proof.
  intros Hrun. apply run_airport_steps in Hrun as [_ Hrun]. revert Hrun.
  apply hi_env_steps, hi_setup.
Qed.

(** ** Timing *)

Lemma service_bounds_positive (st : stage) :
  0 < fst (service_bounds st) /\ fst (service_bounds st) <= snd (service_bounds st).
Proof. destruct st; cbn; split; lra. Qed.

Lemma get_mean_interarrival_time_positive (t : Q) :
  0 < 1 / get_mean_interarrival_time t.
Proof.
  unfold get_mean_interarrival_time.
  destruct (Qltb t 10); [|destruct (Qltb t 50)]; reflexivity.
Qed.

Lemma earlier_due {K} (a b : Event K) :
  (earlier a b = true -> due_time a <= due_time b) /\
  (earlier a b = false -> due_time b <= due_time a).
Proof.
  unfold earlier. destruct (Qcompare _ _) eqn:E.
  - apply Qeq_alt in E. split; intros _; lra.
  - apply Qlt_alt in E. split; [intros _; lra | discriminate].
  - apply Qgt_alt in E. split; [discriminate | intros _; lra].
Qed.

Lemma StronglySorted_enqueue (e : Event cont) (q : list (Event cont)) :
  StronglySorted by_due_time q -> StronglySorted by_due_time (enqueue e q).
Proof.
  induction q as [|x q IH]; intros Hs; cbn.
  - repeat constructor.
  - apply StronglySorted_inv in Hs as [Hq Hx].
    destruct (earlier e x) eqn:E.
    + apply earlier_due in E. constructor.
      * constructor; assumption.
      * constructor; [exact E|].
        eapply Forall_impl; [exact Hx|]. unfold by_due_time. intros y Hy. lra.
    + apply earlier_due in E. constructor.
      * apply IH, Hq.
      * apply Forall_enqueue. split; assumption.
Qed.

Section TimingInvariant.
Context {R : RandomSource} (v : variant).
Hypothesis uniform_ok : uniform_in_range R.
Hypothesis expovariate_ok : expovariate_nonnegative R.

Lemma ti_timeout (d : Q) (k : cont) (s : sim R) :
  timing_invariant s ->
  0 <= d ->
  cont_timing_ok (now (env s) + d) k ->
  timing_invariant (env_timeout R d k s).
Proof.
  intros [Hs He Hw Hc] Hd Hk. split; cbn; try assumption.
  - apply StronglySorted_enqueue, Hs.
  - apply Forall_enqueue. split; [|assumption].
    split; cbn; [lra | assumption].
Qed.

Lemma ti_set_rng (g : rng_state R) (s : sim R) :
  timing_invariant s -> timing_invariant (set_rng R g s).
Proof. intros [Hs He Hw Hc]. split; assumption. Qed.

Lemma ti_set_pool (l : nat) (st : stage) (ln : lane_t)
    (r : ResourcePool passenger) (s : sim R) :
  timing_invariant s ->
  lanes s !! l = Some ln ->
  Forall (fun p => arrival_time p <= now (env s)) (waiters r) ->
  timing_invariant (set_pool R l st ln r s).
Proof.
  intros [Hs He Hw Hc] Hl Hr. split; cbn; try assumption.
  apply (Forall_waiters_insert (fun _ _ p => arrival_time p <= now (env s)));
    assumption.
Qed.

Lemma ti_serve (p : passenger) (st : stage) (s : sim R) :
  timing_invariant s ->
  arrival_time p <= now (env s) ->
  timing_invariant (serve R p st s).
Proof.
  intros Hinv Hp. unfold serve.
  pose proof (service_bounds_positive st) as [Hpos Hle].
  destruct (service_bounds st) as [low high]. cbn in Hpos, Hle.
  pose proof (uniform_ok low high (rng s) Hle) as [Hlow _].
  destruct (uniform R low high (rng s)) as [d g]. cbn in Hlow.
  apply ti_timeout; [apply ti_set_rng, Hinv | lra | cbn; lra].
Qed.

Lemma ti_request (p : passenger) (st : stage) (s s' : sim R) :
  timing_invariant s ->
  arrival_time p <= now (env s) ->
  request R p st s = Ok s' ->
  timing_invariant s'.
Proof.
  intros Hinv Hp. unfold request.
  destruct (lanes s !! lane p) as [ln|] eqn:Hl; [|discriminate].
  destruct (acquire _ _) as [[] r] eqn:Hacq;
    (intros H; injection H as <-); apply acquire_waiters in Hacq.
  - apply ti_serve; [|exact Hp].
    apply ti_set_pool; [assumption..|]. rewrite Hacq.
    apply (ti_waiters _ Hinv _ _ _ Hl).
  - apply ti_set_pool; [assumption..|]. rewrite Hacq.
    apply Forall_app. split; [apply (ti_waiters _ Hinv _ _ _ Hl)|].
    apply Forall_singleton. exact Hp.
Qed.

Lemma ti_release_stage (p : passenger) (st : stage) (s s' : sim R) :
  timing_invariant s ->
  release_stage R p st s = Ok s' ->
  timing_invariant s' /\ now (env s') = now (env s).
Proof.
  intros Hinv. unfold release_stage.
  destruct (lanes s !! lane p) as [ln|] eqn:Hl; [|discriminate].
  destruct (release _) as [[w r]|e] eqn:Hrel; [|discriminate].
  cbn. intros H. injection H as <-.
  apply release_waiters in Hrel.
  pose proof (ti_waiters _ Hinv _ _ st Hl) as Hws. cbv beta in Hws.
  destruct w as [w|].
  - rewrite Hrel in Hws. apply Forall_cons in Hws as [Hw Hws].
    split; [|reflexivity].
    apply ti_timeout; [apply ti_set_pool; assumption | lra | cbn; lra].
  - split; [|reflexivity].
    apply ti_set_pool; [assumption..|]. rewrite (proj2 Hrel). constructor.
Qed.

Lemma ti_depart (p : passenger) (s : sim R) :
  timing_invariant s ->
  arrival_time p < now (env s) ->
  timing_invariant (depart R p s).
Proof.
  intros [Hs He Hw Hc] Hp. split; cbn; try assumption.
  apply Forall_app. split; [assumption|]. apply Forall_singleton. exact Hp.
Qed.

Lemma ti_passenger_arrivals (i : nat) (s : sim R) :
  timing_invariant s -> timing_invariant (passenger_arrivals R i s).
Proof.
  intros Hinv. unfold passenger_arrivals.
  pose proof (expovariate_ok _ (rng s)
                (get_mean_interarrival_time_positive (now (env s)))) as Hgap.
  destruct (expovariate R _ _) as [gap g]. cbn in Hgap.
  apply ti_timeout; [apply ti_set_rng, Hinv | exact Hgap | exact I].
Qed.

Lemma ti_select_lane (assigned_lane : option nat) (l : nat) (s s' : sim R) :
  timing_invariant s ->
  select_lane R v assigned_lane s = Ok (l, s') ->
  timing_invariant s' /\ now (env s') = now (env s).
Proof.
  intros Hinv. unfold select_lane, choice.
  destruct v, assigned_lane;
    try (intros H; injection H as <- <-; split; [exact Hinv | reflexivity]).
  - destruct (lanes s); [discriminate|].
    destruct (randbelow R _ _) as [i g]. destruct (_ !! i); [|discriminate].
    intros H; injection H as <- <-. split; [apply ti_set_rng, Hinv | reflexivity].
  - destruct (choose_dynamic_lane _) as [[ln|] i]; [|discriminate].
    intros H; injection H as <- <-. split; [exact Hinv | reflexivity].
Qed.

Lemma ti_resume (k : cont) (s s' : sim R) :
  timing_invariant s ->
  cont_timing_ok (now (env s)) k ->
  resume R v k s = Ok s' ->
  timing_invariant s'.
Proof.
  intros Hinv Hk. destruct k as [nm al|p st|p st| |i]; cbn [resume]; unfold check_passenger, check_passenger_served.
  - destruct (select_lane R v al s) as [[l s1]|e] eqn:Hsel; [|discriminate].
    cbn. apply ti_select_lane in Hsel as [Hinv1 Hnow]; [|assumption].
    apply ti_request; [assumption|]. cbn. rewrite Hnow. lra.
  - intros H; injection H as <-. apply ti_serve; assumption.
  - destruct (release_stage R p st s) as [s1|e] eqn:Hrel; [|discriminate].
    cbn. apply ti_release_stage in Hrel as [Hinv1 Hnow]; [|assumption].
    cbn in Hk. destruct (next_stage st) as [st'|].
    + apply ti_request; [assumption|]. cbn. rewrite Hnow. lra.
    + intros H; injection H as <-. apply ti_depart; [assumption|].
      cbn. rewrite Hnow. exact Hk.
  - intros H; injection H as <-. apply ti_passenger_arrivals, Hinv.
  - intros H; injection H as <-.
    apply ti_passenger_arrivals, ti_timeout; [assumption | lra | exact I].
Qed.

Lemma ti_next_event (running_time : Q) (k : cont) (e : EventScheduler cont)
    (s : sim R) :
  timing_invariant s ->
  next_event running_time (env s) = Some (k, e) ->
  timing_invariant (set_env R e s) /\ cont_timing_ok (now e) k.
Proof.
  intros [Hs He Hw Hc]. unfold next_event.
  destruct (pending (env s)) as [|x rest]; [discriminate|].
  destruct (Qltb _ _); [discriminate|].
  intros H; injection H as <- <-.
  apply StronglySorted_inv in Hs as [Hrest Hx].
  apply Forall_cons in He as [[Hnow Hk] He].
  split; [split; cbn|exact Hk]; try assumption.
  - apply Forall_forall. intros y Hy.
    rewrite Forall_forall in Hx, He.
    specialize (Hx y Hy). destruct (He y Hy) as [_ Hcont].
    split; assumption.
  - eapply Forall_waiters_impl; [exact Hw|]. cbn. intros _ _ p Hp. lra.
Qed.

Lemma ti_env_steps (fuel : nat) (running_time : Q) :
  forall (s s' : sim R) (finished : bool),
    timing_invariant s ->
    env_steps R v fuel running_time s = Ok (s', finished) ->
    timing_invariant s'.
Proof.
  induction fuel as [|fuel IH]; intros s s' finished Hinv; cbn [env_steps].
  - intros H; injection H as <- _. exact Hinv.
  - destruct (next_event running_time (env s)) as [[k e]|] eqn:Hnext.
    + apply ti_next_event in Hnext as [Hinv1 Hk]; [|assumption].
      destruct (resume R v _ _) as [s1|err] eqn:Hres; [|discriminate].
      cbn. apply IH. eapply ti_resume; [exact Hinv1|exact Hk|exact Hres].
    + intros H; injection H as <- _. exact Hinv.
Qed.

Lemma ti_setup (num_lanes : nat) (g : globals R) :
  timing_invariant (setup R v num_lanes g).
Proof.
  unfold setup. apply (ti_timeout 0); [|lra|exact I].
  pose proof (initial_passengers_new v num_lanes) as Hnew.
  set (s0 := mkSim _ _ _ _ _).
  assert (H0 : timing_invariant s0).
  { split; cbn; try constructor. apply Forall_waiters_AirportSecurity. }
  clearbody s0. revert s0 H0. induction Hnew as [|k ks Hk _ IH]; intros s0 H0; cbn.
  - exact H0.
  - apply IH. apply (ti_timeout 0); [exact H0|lra|].
    destruct k; try contradiction. exact I.
Qed.

Lemma run_airport_timing (fuel : nat) (running_time : Q) (num_lanes : nat)
    (g : globals R) (s : sim R) (finished : bool) :
  run_airport R v fuel running_time num_lanes g = Ok (s, finished) ->
  timing_invariant s.
Proof.
  intros Hrun. apply run_airport_steps in Hrun as [_ Hrun]. revert Hrun.
  apply ti_env_steps, ti_setup.
Qed.
End TimingInvariant.

(** ** A run does not read [wait_times] *)


Section Erasure.
Context {R : RandomSource} (v : variant).

Lemma erase_idemp (s : sim R) : erase (erase s) = erase s.
Proof. reflexivity. Qed.




Lemma erase_depart (p : passenger) (s : sim R) :
  erase (depart R p (erase s)) = erase (depart R p s).
Proof. reflexivity. Qed.






End Erasure.

Lemma new_records_completed {R : RandomSource} (g : globals R) (s : sim R) :
  history_invariant (g_wait_times g) s ->
  new_records g s = map sojourn_time (completed s).
Proof.
  intros Hinv. unfold new_records. rewrite (hi_wait_times _ _ Hinv).
  apply drop_app_length.
Qed.

(** ** Slots in use *)

Lemma acquire_in_use {W} (w : W) (r r' : ResourcePool W) (granted : bool) :
  acquire w r = (granted, r') ->
  (in_use r <= capacity r)%nat -> (in_use r' <= capacity r')%nat.
Proof.
  unfold acquire. destruct (_ <? _)%nat eqn:E; intros H; injection H as <- <-; cbn.
  - apply Nat.ltb_lt in E. lia.
  - lia.
Qed.

Lemma release_in_use {W} (r r' : ResourcePool W) (w : option W) :
  release r = Ok (w, r') ->
  (in_use r <= capacity r)%nat -> (in_use r' <= capacity r')%nat.
Proof.
  unfold release. destruct (in_use r); [discriminate|].
  destruct (waiters r); intros H; injection H as <- <-; cbn; lia.
Qed.

Section PoolsInvariant.
Context {R : RandomSource} (v : variant).

Lemma lanes_serve (p : passenger) (st : stage) (s : sim R) :
  lanes (serve R p st s) = lanes s.
Proof.
  unfold serve. destruct (service_bounds st) as [low high].
  destruct (uniform R low high (rng s)) as [d g]. reflexivity.
Qed.

Lemma lanes_passenger_arrivals (i : nat) (s : sim R) :
  lanes (passenger_arrivals R i s) = lanes s.
Proof.
  unfold passenger_arrivals. destruct (expovariate R _ _) as [gap g]. reflexivity.
Qed.

Lemma lanes_select_lane (assigned_lane : option nat) (l : nat) (s s' : sim R) :
  select_lane R v assigned_lane s = Ok (l, s') -> lanes s' = lanes s.
Proof.
  unfold select_lane, choice.
  destruct v, assigned_lane; try (intros H; injection H as <- <-; reflexivity).
  - destruct (lanes s) eqn:E; [discriminate|].
    destruct (randbelow R _ _) as [i g]. destruct (_ !! i); [|discriminate].
    intros H; injection H as <- <-. cbn. exact E.
  - destruct (choose_dynamic_lane _) as [[ln|] i]; [|discriminate].
    intros H; injection H as <- <-. reflexivity.
Qed.

Lemma pi_set_pool (l : nat) (st : stage) (ln : lane_t)
    (r : ResourcePool passenger) (s : sim R) :
  pools_invariant s ->
  lanes s !! l = Some ln ->
  (in_use r <= capacity r)%nat ->
  pools_invariant (set_pool R l st ln r s).
Proof.
  intros Hinv Hl Hr.
  apply (Forall_pools_insert (fun _ _ r => (in_use r <= capacity r)%nat));
    assumption.
Qed.

Lemma pi_request (p : passenger) (st : stage) (s s' : sim R) :
  pools_invariant s -> request R p st s = Ok s' -> pools_invariant s'.
Proof.
  intros Hinv. unfold request.
  destruct (lanes s !! lane p) as [ln|] eqn:Hl; [|discriminate].
  destruct (acquire _ _) as [[] r] eqn:Hacq;
    (intros H; injection H as <-);
    apply acquire_in_use in Hacq; try apply (Hinv _ _ _ Hl).
  - unfold pools_invariant. rewrite lanes_serve. apply pi_set_pool; assumption.
  - apply pi_set_pool; assumption.
Qed.

Lemma pi_release_stage (p : passenger) (st : stage) (s s' : sim R) :
  pools_invariant s -> release_stage R p st s = Ok s' -> pools_invariant s'.
Proof.
  intros Hinv. unfold release_stage.
  destruct (lanes s !! lane p) as [ln|] eqn:Hl; [|discriminate].
  destruct (release _) as [[w r]|e] eqn:Hrel; [|discriminate].
  cbn. intros H. injection H as <-.
  apply release_in_use in Hrel; [|apply (Hinv _ _ _ Hl)].
  destruct w; apply pi_set_pool; assumption.
Qed.

Lemma pi_resume (k : cont) (s s' : sim R) :
  pools_invariant s -> resume R v k s = Ok s' -> pools_invariant s'.
Proof.
  intros Hinv. destruct k as [nm al|p st|p st| |i]; cbn [resume]; unfold check_passenger, check_passenger_served.
  - destruct (select_lane R v al s) as [[l s1]|e] eqn:Hsel; [|discriminate].
    cbn. apply pi_request. unfold pools_invariant.
    rewrite (lanes_select_lane _ _ _ _ Hsel). exact Hinv.
  - intros H; injection H as <-. unfold pools_invariant.
    rewrite lanes_serve. exact Hinv.
  - destruct (release_stage R p st s) as [s1|e] eqn:Hrel; [|discriminate].
    cbn. apply pi_release_stage in Hrel; [|assumption].
    destruct (next_stage st) as [st'|].
    + apply pi_request. exact Hrel.
    + intros H; injection H as <-. exact Hrel.
  - intros H; injection H as <-. unfold pools_invariant.
    rewrite lanes_passenger_arrivals. exact Hinv.
  - intros H; injection H as <-. unfold pools_invariant.
    rewrite lanes_passenger_arrivals. exact Hinv.
Qed.

Lemma pi_env_steps (fuel : nat) (running_time : Q) :
  forall (s s' : sim R) (finished : bool),
    pools_invariant s ->
    env_steps R v fuel running_time s = Ok (s', finished) ->
    pools_invariant s'.
Proof.
  induction fuel as [|fuel IH]; intros s s' finished Hinv; cbn [env_steps].
  - intros H; injection H as <- _. exact Hinv.
  - destruct (next_event running_time (env s)) as [[k e]|].
    + destruct (resume R v _ _) as [s1|err] eqn:Hres; [|discriminate].
      cbn. apply IH. eapply pi_resume; [|exact Hres]. exact Hinv.
    + intros H; injection H as <- _. exact Hinv.
Qed.

Lemma pi_setup (num_lanes : nat) (g : globals R) :
  pools_invariant (setup R v num_lanes g).
Proof.
  unfold setup, pools_invariant. cbn [lanes env_process set_env].
  set (s0 := mkSim _ _ _ _ _).
  assert (H0 : lanes s0 = AirportSecurity v num_lanes) by reflexivity.
  clearbody s0. revert s0 H0.
  induction (initial_passengers v num_lanes) as [|k ks IH]; intros s0 H0; cbn.
  - rewrite H0.
    apply (Forall_pools_AirportSecurity (fun _ _ r => (in_use r <= capacity r)%nat)).
    intros _ _ c _. cbn. lia.
  - apply IH. exact H0.
Qed.

Lemma run_airport_pools (fuel : nat) (running_time : Q) (num_lanes : nat)
    (g : globals R) (s : sim R) (finished : bool) :
  run_airport R v fuel running_time num_lanes g = Ok (s, finished) ->
  pools_invariant s.
Proof.
  intros Hrun. apply run_airport_steps in Hrun as [_ Hrun]. revert Hrun.
  apply pi_env_steps, pi_setup.
Qed.
End PoolsInvariant.

(** ** Passengers on their way *)




(** ** The concrete random source *)

Lemma quarter_cases (n : nat) :
  quarter n == 0 \/ quarter n == 1 # 4 \/ quarter n == 1 # 2 \/ quarter n == 3 # 4.
Proof.
  unfold quarter. pose proof (Nat.mod_upper_bound n 4) as Hlt.
  destruct (n mod 4)%nat as [|[|[|[|k]]]]; [| | | |lia].
  - left. reflexivity.
  - right; left. reflexivity.
  - right; right; left. reflexivity.
  - right; right; right. reflexivity.
Qed.

Lemma cyclic_source_uniform : uniform_in_range cyclic_source.
Proof.
  intros a b n Hab. cbn. rewrite Qred_correct.
  destruct (quarter_cases n) as [H|[H|[H|H]]]; rewrite H; split; lra.
Qed.

Lemma cyclic_source_expovariate : expovariate_nonnegative cyclic_source.
Proof.
  intros lambd n Hpos. cbn. rewrite Qred_correct.
  apply Qle_shift_div_l; [exact Hpos|].
  destruct (quarter_cases n) as [H|[H|[H|H]]]; rewrite H; lra.
Qed.

Lemma cyclic_source_randbelow : randbelow_in_range cyclic_source.
Proof. intros n g Hn. cbn. apply Nat.mod_upper_bound. lia. Qed.

(** ** A run does not raise *)

Lemma holders_enqueue (l : nat) (st : stage) (e : Event cont) (q : list (Event cont)) :
  holders l st (enqueue e q)
  = (holding (held (continuation e)) l st + holders l st q)%nat.
Proof.
  induction q as [|x q IH]; cbn; [reflexivity|].
  destruct (earlier e x); cbn; [reflexivity|]. rewrite IH. lia.
Qed.

Lemma holding_other (l l' : nat) (st st' : stage) :
  l' <> l \/ st' <> st -> holding (Some (l, st)) l' st' = 0%nat.
Proof.
  intros H. cbn. rewrite bool_decide_eq_false_2; [reflexivity|].
  intros [-> ->]. destruct H; congruence.
Qed.

Lemma holding_same (l : nat) (st : stage) : holding (Some (l, st)) l st = 1%nat.
Proof. cbn. rewrite bool_decide_eq_true_2; [reflexivity | split; reflexivity]. Qed.

Section Safety.
Context {R : RandomSource} (v : variant).
Hypothesis randbelow_ok : randbelow_in_range R.

Lemma si_timeout (h h' : option (nat * stage)) (d : Q) (k : cont) (s : sim R) :
  safety_invariant h s ->
  cont_lane_ok (length (lanes s)) k ->
  (forall l st, holding h l st = (holding h' l st + holding (held k) l st)%nat) ->
  safety_invariant h' (env_timeout R d k s).
Proof.
  intros [Hn Hc Hw Hh] Hk Hhold. split; cbn; try assumption.
  - apply Forall_enqueue. split; assumption.
  - intros l ln st Hl. rewrite holders_enqueue. cbn.
    rewrite (Hh l ln st Hl), Hhold. lia.
Qed.

Lemma si_set_rng (h : option (nat * stage)) (g : rng_state R) (s : sim R) :
  safety_invariant h s -> safety_invariant h (set_rng R g s).
Proof. intros [Hn Hc Hw Hh]. split; assumption. Qed.

Lemma si_set_pool (h h' : option (nat * stage)) (l : nat) (st : stage)
    (ln : lane_t) (r : ResourcePool passenger) (s : sim R) :
  safety_invariant h s ->
  lanes s !! l = Some ln ->
  Forall (fun p => lane p = l) (waiters r) ->
  (in_use r + holding h l st = in_use (lane_get ln st) + holding h' l st)%nat ->
  (forall l' st', l' <> l \/ st' <> st -> holding h' l' st' = holding h l' st') ->
  safety_invariant h' (set_pool R l st ln r s).
Proof.
  intros [Hn Hc Hw Hh] Hl Hr Huse Hother. split; cbn.
  - rewrite length_insert. exact Hn.
  - rewrite length_insert. exact Hc.
  - apply (Forall_waiters_insert (fun l _ p => lane p = l)); assumption.
  - intros l' ln' st' Hl'.
    apply list_lookup_insert_Some in Hl' as [(<- & <- & _)|(Hne & Hl')].
    + rewrite lane_get_set. destruct (decide (st = st')) as [<-|Hst].
      * pose proof (Hh _ _ st Hl) as Hold. cbv beta in Hold. lia.
      * rewrite (Hother l st') by (right; congruence). apply (Hh _ _ _ Hl).
    + rewrite (Hother l' st') by (left; congruence). apply (Hh _ _ _ Hl').
Qed.

Lemma si_serve (p : passenger) (st : stage) (s : sim R) :
  safety_invariant (Some (lane p, st)) s ->
  (lane p < length (lanes s))%nat ->
  safety_invariant None (serve R p st s).
Proof.
  intros Hinv Hp. unfold serve.
  destruct (service_bounds st) as [low high].
  destruct (uniform R low high (rng s)) as [d g].
  eapply si_timeout; [apply si_set_rng, Hinv | exact Hp | reflexivity].
Qed.

Lemma si_request (p : passenger) (st : stage) (s : sim R) :
  safety_invariant None s ->
  (lane p < length (lanes s))%nat ->
  exists s', request R p st s = Ok s' /\ safety_invariant None s'.
Proof.
  intros Hinv Hp. unfold request.
  destruct (lookup_lt_is_Some_2 _ _ Hp) as [ln Hl]. rewrite Hl.
  pose proof (si_waiters _ _ Hinv _ _ st Hl) as Hws. cbv beta in Hws.
  unfold acquire. destruct (_ <? _)%nat; eexists; (split; [reflexivity|]).
  - apply (si_serve (log (log p _) _)).
    + apply (si_set_pool None); try assumption.
      * cbn [lane log]. rewrite holding_same. cbn. lia.
      * intros l' st' Hne. cbn [lane log]. rewrite holding_other by exact Hne.
        reflexivity.
    + cbn. rewrite length_insert. exact Hp.
  - apply (si_set_pool None); try assumption.
    + cbn. apply Forall_app. split; [exact Hws|]. apply Forall_singleton. reflexivity.
    + reflexivity.
    + reflexivity.
Qed.

Lemma si_release_stage (p : passenger) (st : stage) (s : sim R) :
  safety_invariant (Some (lane p, st)) s ->
  (lane p < length (lanes s))%nat ->
  exists s', release_stage R p st s = Ok s' /\
             safety_invariant None s' /\
             length (lanes s') = length (lanes s).
Proof.
  intros Hinv Hp. unfold release_stage.
  destruct (lookup_lt_is_Some_2 _ _ Hp) as [ln Hl]. rewrite Hl.
  pose proof (si_waiters _ _ Hinv _ _ st Hl) as Hws. cbv beta in Hws.
  pose proof (si_holders _ _ Hinv _ _ st Hl) as Huse. cbv beta in Huse.
  rewrite holding_same in Huse.
  unfold release. destruct (in_use (lane_get ln st)) as [|n] eqn:Hn; [lia|].
  destruct (waiters (lane_get ln st)) as [|w ws] eqn:Hwaiters; cbn;
    eexists; (split; [reflexivity|]).
  - split; [|apply length_insert].
    apply (si_set_pool (Some (lane p, st))); try assumption.
    + cbn [in_use]. rewrite holding_same, Hn. cbn. lia.
    + intros l' st' Hne. rewrite holding_other by exact Hne. reflexivity.
  - split; [|apply length_insert].
    apply Forall_cons in Hws as [Hw Hws].
    eapply (si_timeout (Some (lane p, st))).
    + apply (si_set_pool (Some (lane p, st))); try assumption.
      * cbn [in_use]. rewrite Hn. reflexivity.
      * reflexivity.
    + cbn. rewrite length_insert, Hw. exact Hp.
    + intros l' st'. cbn [held log lane]. rewrite Hw. reflexivity.
Qed.

Lemma si_depart (p : passenger) (s : sim R) :
  safety_invariant None s -> safety_invariant None (depart R p s).
Proof. intros [Hn Hc Hw Hh]. split; assumption. Qed.

Lemma si_passenger_arrivals (i : nat) (s : sim R) :
  safety_invariant None s -> safety_invariant None (passenger_arrivals R i s).
Proof.
  intros Hinv. unfold passenger_arrivals. destruct (expovariate R _ _) as [gap g].
  eapply si_timeout; [apply si_set_rng, Hinv | exact I | reflexivity].
Qed.

Lemma si_select_lane (assigned_lane : option nat) (s : sim R) :
  safety_invariant None s ->
  cont_lane_ok (length (lanes s)) (k_check_passenger (Passenger 0) assigned_lane) ->
  exists l s', select_lane R v assigned_lane s = Ok (l, s') /\
               safety_invariant None s' /\
               (l < length (lanes s'))%nat.
Proof.
  intros Hinv Hk. pose proof (si_lanes _ _ Hinv) as Hn.
  unfold select_lane, choice.
  destruct v, assigned_lane as [l|]; cbn in Hk;
    try (eexists _, _; split; [reflexivity|]; split; assumption).
  - destruct (lanes s) as [|ln0 rest] eqn:Hlanes; [cbn in Hn; lia|].
    pose proof (randbelow_ok _ (rng s) Hn) as Hi.
    destruct (randbelow R _ _) as [i g]. cbn [fst] in Hi.
    destruct (lookup_lt_is_Some_2 _ _ Hi) as [ln Hl]. rewrite Hl.
    eexists _, _. split; [reflexivity|].
    split; [apply si_set_rng, Hinv|]. cbn. rewrite Hlanes. exact Hi.
  - destruct (choose_dynamic_lane_spec (lanes s)) as (ln & i & Heq & Hi & _).
    { intros Hnil. rewrite Hnil in Hn. cbn in Hn. lia. }
    rewrite Heq. eexists _, _. split; [reflexivity|]. split; [exact Hinv|].
    rewrite Nat2Z.id. eapply lookup_lt_Some, Hi.
Qed.

Lemma si_resume (k : cont) (s : sim R) :
  safety_invariant (held k) s ->
  cont_lane_ok (length (lanes s)) k ->
  exists s', resume R v k s = Ok s' /\ safety_invariant None s'.
Proof.
  intros Hinv Hk. destruct k as [nm al|p st|p st| |i];
    cbn [resume held] in *; unfold check_passenger, check_passenger_served.
  - destruct (si_select_lane al s Hinv Hk) as (l & s1 & -> & Hinv1 & Hl).
    cbn. apply si_request; assumption.
  - eexists. split; [reflexivity|]. apply si_serve; assumption.
  - destruct (si_release_stage p st s Hinv Hk) as (s1 & -> & Hinv1 & Hlen).
    cbn. destruct (next_stage st) as [st'|].
    + apply si_request; [assumption|]. cbn. rewrite Hlen. exact Hk.
    + eexists. split; [reflexivity|]. apply si_depart, Hinv1.
  - eexists. split; [reflexivity|]. apply si_passenger_arrivals, Hinv.
  - eexists. split; [reflexivity|].
    apply si_passenger_arrivals.
    eapply (si_timeout None); [exact Hinv | exact I | reflexivity].
Qed.

Lemma si_env_steps (fuel : nat) (running_time : Q) :
  forall s : sim R,
    safety_invariant None s ->
    exists s' finished,
      env_steps R v fuel running_time s = Ok (s', finished) /\
      safety_invariant None s'.
Proof.
  induction fuel as [|fuel IH]; intros s Hinv; cbn [env_steps].
  - eexists _, _. split; [reflexivity | exact Hinv].
  - unfold next_event. destruct (pending (env s)) as [|e rest] eqn:Hpending.
    + eexists _, _. split; [reflexivity | exact Hinv].
    + destruct (Qltb _ _).
      * eexists _, _. split; [reflexivity | exact Hinv].
      * destruct Hinv as [Hn Hc Hw Hh]. rewrite Hpending in Hc, Hh.
        apply Forall_cons in Hc as [Hk Hc].
        destruct (si_resume (continuation e)
                    (set_env R (mkScheduler (due_time e) (next_sequence (env s)) rest) s))
          as (s1 & -> & Hinv1).
        { split; cbn; assumption. }
        { exact Hk. }
        cbn. apply IH, Hinv1.
Qed.

Lemma si_setup (num_lanes : nat) (g : globals R) :
  v = central_queue \/ (0 < num_lanes)%nat ->
  safety_invariant None (setup R v num_lanes g).
Proof.
  intros Hv. unfold setup.
  assert (Hlen : (0 < length (AirportSecurity v num_lanes))%nat).
  { destruct Hv as [->|Hpos]; [cbn; lia|].
    destruct v; cbn; rewrite ?length_replicate; lia. }
  assert (Hks : Forall (cont_lane_ok (length (AirportSecurity v num_lanes)))
                       (initial_passengers v num_lanes)).
  { destruct v; cbn.
    - repeat constructor.
    - apply List.Forall_flat_map, Forall_forall. intros l Hin.
      apply list_elem_of_In, in_seq in Hin.
      repeat constructor; cbn; rewrite length_replicate; lia.
    - apply List.Forall_flat_map, Forall_forall. intros l Hin.
      apply list_elem_of_In, in_seq in Hin.
      repeat constructor; cbn; rewrite length_replicate; lia. }
  pose proof (initial_passengers_new v num_lanes) as Hnew.
  set (s0 := mkSim _ _ _ _ _).
  assert (H0 : safety_invariant None s0).
  { split; cbn; try assumption.
    - constructor.
    - apply Forall_waiters_AirportSecurity.
    - apply (Forall_pools_AirportSecurity
               (fun l st r => in_use r = (0 + 0)%nat)).
      reflexivity. }
  assert (Hlanes : lanes s0 = AirportSecurity v num_lanes) by reflexivity.
  eapply (si_timeout None); [|exact I|reflexivity].
  clearbody s0. revert s0 H0 Hlanes.
  induction Hks as [|k ks Hk _ IH]; intros s0 H0 Hlanes; cbn.
  - exact H0.
  - apply Forall_cons in Hnew as [Hstart Hnew].
    apply IH; [exact Hnew| |exact Hlanes].
    eapply (si_timeout None); [exact H0 | rewrite Hlanes; exact Hk |].
    destruct k; try contradiction. reflexivity.
Qed.

Lemma run_airport_safe (fuel : nat) (running_time : Q) (num_lanes : nat)
    (g : globals R) :
  v = central_queue \/ (0 < num_lanes)%nat ->
  0 < running_time ->
  exists s finished,
    run_airport R v fuel running_time num_lanes g = Ok (s, finished) /\
    safety_invariant None s.
Proof.
  intros Hv HT. rewrite (run_airport_positive v fuel running_time num_lanes g HT).
  apply si_env_steps, si_setup, Hv.
Qed.
End Safety.

(** ** Names *)

Lemma is_named_le (nm : pname) (o : option pname) : (is_named nm o <= 1)%nat.
Proof. unfold is_named. destruct (bool_decide _); lia. Qed.

Lemma is_named_None (nm : pname) : is_named nm None = 0%nat.
Proof. reflexivity. Qed.

Lemma count_named_app (nm : pname) (ps qs : list passenger) :
  count_named nm (ps ++ qs) = (count_named nm ps + count_named nm qs)%nat.
Proof. induction ps as [|p ps IH]; cbn; [reflexivity|]. rewrite IH. lia. Qed.

Lemma pending_named_enqueue (nm : pname) (e : Event cont) (q : list (Event cont)) :
  pending_named nm (enqueue e q)
  = (is_named nm (cont_name (continuation e)) + pending_named nm q)%nat.
Proof.
  induction q as [|x q IH]; cbn; [reflexivity|].
  destruct (earlier e x); cbn; [reflexivity|]. rewrite IH. lia.
Qed.

Lemma lane_named_set (nm : pname) (ln : lane_t) (st : stage)
    (r : ResourcePool passenger) :
  (lane_named nm (lane_set ln st r) + count_named nm (waiters (lane_get ln st))
   = lane_named nm ln + count_named nm (waiters r))%nat.
Proof. destruct st; unfold lane_named; cbn; lia. Qed.

Lemma lanes_named_insert (nm : pname) (lanes : list lane_t) :
  forall (l : nat) (ln ln' : lane_t),
    lanes !! l = Some ln ->
    (lanes_named nm (<[l := ln']> lanes) + lane_named nm ln
     = lanes_named nm lanes + lane_named nm ln')%nat.
Proof.
  induction lanes as [|x lanes IH]; intros l ln ln' Hl; [discriminate|].
  destruct l as [|l].
  - injection Hl as <-. change (<[0%nat := ln']> (x :: lanes)) with (ln' :: lanes).
    cbn [lanes_named]. lia.
  - change (<[S l := ln']> (x :: lanes)) with (x :: <[l := ln']> lanes).
    change ((x :: lanes) !! S l) with (lanes !! l) in Hl.
    specialize (IH l ln ln' Hl). cbn [lanes_named]. lia.
Qed.

Lemma counters_enqueue_none (e : Event cont) (q : list (Event cont)) :
  arrivals_counter (continuation e) = None ->
  counters (enqueue e q) = counters q.
Proof.
  intros He. unfold counters. induction q as [|x q IH]; cbn.
  - rewrite He. reflexivity.
  - destruct (earlier e x); cbn.
    + rewrite He. reflexivity.
    + rewrite IH. reflexivity.
Qed.

Lemma counters_enqueue_some (e : Event cont) (q : list (Event cont)) (i : nat) :
  arrivals_counter (continuation e) = Some i ->
  counters q = [] ->
  counters (enqueue e q) = [i].
Proof.
  intros He. unfold counters. induction q as [|x q IH]; cbn.
  - rewrite He. reflexivity.
  - destruct (arrivals_counter (continuation x)) eqn:Hx; [discriminate|].
    intros Hq. destruct (earlier e x); cbn.
    + rewrite He, Hx, Hq. reflexivity.
    + rewrite Hx. apply IH, Hq.
Qed.

Section Names.
Context {R : RandomSource} (v : variant) (nm : pname).

Lemma named_timeout (d : Q) (k : cont) (s : sim R) :
  named nm (env_timeout R d k s) = (is_named nm (cont_name k) + named nm s)%nat.
Proof. unfold named. cbn. rewrite pending_named_enqueue. cbn. lia. Qed.

Lemma named_set_pool (l : nat) (st : stage) (ln : lane_t)
    (r : ResourcePool passenger) (s : sim R) :
  lanes s !! l = Some ln ->
  (named nm (set_pool R l st ln r s) + count_named nm (waiters (lane_get ln st))
   = named nm s + count_named nm (waiters r))%nat.
Proof.
  intros Hl. unfold named. cbn.
  pose proof (lanes_named_insert nm (lanes s) l ln (lane_set ln st r) Hl).
  pose proof (lane_named_set nm ln st r). lia.
Qed.

Lemma named_serve (p : passenger) (st : stage) (s : sim R) :
  named nm (serve R p st s) = (is_named nm (Some (name p)) + named nm s)%nat.
Proof.
  unfold serve. destruct (service_bounds st) as [low high].
  destruct (uniform R low high (rng s)) as [d g].
  rewrite named_timeout. reflexivity.
Qed.

Lemma named_request (p : passenger) (st : stage) (s s' : sim R) :
  request R p st s = Ok s' ->
  named nm s' = (is_named nm (Some (name p)) + named nm s)%nat.
Proof.
  unfold request. destruct (lanes s !! lane p) as [ln|] eqn:Hl; [|discriminate].
  destruct (acquire _ _) as [[] r] eqn:Hacq;
    (intros H; injection H as <-); apply acquire_waiters in Hacq;
    pose proof (named_set_pool (lane p) st ln r s Hl) as Hset;
    rewrite Hacq in Hset.
  - rewrite named_serve. cbn [name log]. lia.
  - rewrite count_named_app in Hset. cbn in Hset. lia.
Qed.

Lemma named_release_stage (p : passenger) (st : stage) (s s' : sim R) :
  release_stage R p st s = Ok s' -> named nm s' = named nm s.
Proof.
  unfold release_stage. destruct (lanes s !! lane p) as [ln|] eqn:Hl; [|discriminate].
  destruct (release _) as [[w r]|e] eqn:Hrel; [|discriminate].
  cbn. intros H. injection H as <-.
  apply release_waiters in Hrel.
  pose proof (named_set_pool (lane p) st ln r s Hl) as Hset.
  destruct w as [w|].
  - rewrite named_timeout. rewrite Hrel in Hset. cbn in Hset |- *. lia.
  - destruct Hrel as [Hold Hnew]. rewrite Hold, Hnew in Hset. cbn in Hset. lia.
Qed.
Lemma named_depart (p : passenger) (s : sim R) :
  named nm (depart R p s) = (is_named nm (Some (name p)) + named nm s)%nat.
Proof.
  unfold named. cbn. rewrite map_app, count_named_app. cbn. lia.
Qed.

Lemma named_passenger_arrivals (i : nat) (s : sim R) :
  named nm (passenger_arrivals R i s) = named nm s.
Proof.
  unfold passenger_arrivals. destruct (expovariate R _ _) as [gap g].
  rewrite named_timeout. reflexivity.
Qed.

Lemma named_select_lane (assigned_lane : option nat) (l : nat) (s s' : sim R) :
  select_lane R v assigned_lane s = Ok (l, s') -> named nm s' = named nm s.
Proof.
  unfold select_lane, choice.
  destruct v, assigned_lane; try (intros H; injection H as <- <-; reflexivity).
  - destruct (lanes s); [discriminate|].
    destruct (randbelow R _ _) as [i g]. destruct (_ !! i); [|discriminate].
    intros H; injection H as <- <-. reflexivity.
  - destruct (choose_dynamic_lane _) as [[ln|] i]; [|discriminate].
    intros H; injection H as <- <-. reflexivity.
Qed.

Lemma named_resume (k : cont) (s s' : sim R) :
  resume R v k s = Ok s' ->
  named nm s' = (is_named nm (cont_name k) + spawned nm k + named nm s)%nat.
Proof.
  destruct k as [nm' al|p st|p st| |i];
    cbn [resume cont_name spawned]; unfold check_passenger, check_passenger_served.
  - destruct (select_lane R v al s) as [[l s1]|e] eqn:Hsel; [|discriminate].
    cbn. intros Hreq. apply named_request in Hreq.
    apply named_select_lane in Hsel. cbn [name] in Hreq. lia.
  - intros H; injection H as <-. rewrite named_serve. lia.
  - destruct (release_stage R p st s) as [s1|e] eqn:Hrel; [|discriminate].
    cbn. apply named_release_stage in Hrel.
    destruct (next_stage st) as [st'|].
    + intros Hreq. apply named_request in Hreq. cbn [name log] in Hreq. lia.
    + intros H; injection H as <-. rewrite named_depart. cbn [name log]. lia.
  - intros H; injection H as <-.
    rewrite named_passenger_arrivals, is_named_None. lia.
  - intros H; injection H as <-.
    rewrite named_passenger_arrivals.
    change (env_process R ?k s) with (env_timeout R 0 k s).
    rewrite named_timeout, is_named_None. cbn [cont_name]. lia.
Qed.

Lemma counters_timeout (d : Q) (k : cont) (s : sim R) :
  arrivals_counter k = None ->
  counters (pending (env (env_timeout R d k s))) = counters (pending (env s)).
Proof. intros Hk. cbn. apply counters_enqueue_none. exact Hk. Qed.

Lemma counters_serve (p : passenger) (st : stage) (s : sim R) :
  counters (pending (env (serve R p st s))) = counters (pending (env s)).
Proof.
  unfold serve. destruct (service_bounds st) as [low high].
  destruct (uniform R low high (rng s)) as [d g].
  rewrite counters_timeout; reflexivity.
Qed.

Lemma counters_request (p : passenger) (st : stage) (s s' : sim R) :
  request R p st s = Ok s' ->
  counters (pending (env s')) = counters (pending (env s)).
Proof.
  unfold request. destruct (lanes s !! lane p) as [ln|]; [|discriminate].
  destruct (acquire _ _) as [[] r]; intros H; injection H as <-.
  - rewrite counters_serve. reflexivity.
  - reflexivity.
Qed.

Lemma counters_release_stage (p : passenger) (st : stage) (s s' : sim R) :
  release_stage R p st s = Ok s' ->
  counters (pending (env s')) = counters (pending (env s)).
Proof.
  unfold release_stage. destruct (lanes s !! lane p) as [ln|]; [|discriminate].
  destruct (release _) as [[[w|] r]|e]; [| |discriminate];
    cbn; intros H; injection H as <-.
  - rewrite counters_timeout; reflexivity.
  - reflexivity.
Qed.

Lemma counters_select_lane (assigned_lane : option nat) (l : nat) (s s' : sim R) :
  select_lane R v assigned_lane s = Ok (l, s') ->
  counters (pending (env s')) = counters (pending (env s)).
Proof.
  unfold select_lane, choice.
  destruct v, assigned_lane; try (intros H; injection H as <- <-; reflexivity).
  - destruct (lanes s); [discriminate|].
    destruct (randbelow R _ _) as [i g]. destruct (_ !! i); [|discriminate].
    intros H; injection H as <- <-. reflexivity.
  - destruct (choose_dynamic_lane _) as [[ln|] i]; [|discriminate].
    intros H; injection H as <- <-. reflexivity.
Qed.

Lemma counters_resume_none (k : cont) (s s' : sim R) :
  arrivals_counter k = None ->
  resume R v k s = Ok s' ->
  counters (pending (env s')) = counters (pending (env s)).
Proof.
  destruct k as [nm' al|p st|p st| |i]; try discriminate; intros _;
    cbn [resume]; unfold check_passenger, check_passenger_served.
  - destruct (select_lane R v al s) as [[l s1]|e] eqn:Hsel; [|discriminate].
    cbn. intros Hreq. apply counters_request in Hreq.
    apply counters_select_lane in Hsel. congruence.
  - intros H; injection H as <-. apply counters_serve.
  - destruct (release_stage R p st s) as [s1|e] eqn:Hrel; [|discriminate].
    cbn. apply counters_release_stage in Hrel.
    destruct (next_stage st) as [st'|].
    + intros Hreq. apply counters_request in Hreq. congruence.
    + intros H; injection H as <-. exact Hrel.
Qed.

Lemma counters_resume_some (k : cont) (i : nat) (s s' : sim R) :
  arrivals_counter k = Some i ->
  counters (pending (env s)) = [] ->
  resume R v k s = Ok s' ->
  counters (pending (env s')) = [next_counter k].
Proof.
  destruct k as [nm' al|p st|p st| |i0]; try discriminate; intros _ Hnone;
    cbn [resume next_counter]; intros H; injection H as <-;
    unfold passenger_arrivals; destruct (expovariate R _ _) as [gap g]; cbn.
  - apply counters_enqueue_some; [reflexivity | exact Hnone].
  - apply counters_enqueue_some; [reflexivity|].
    rewrite counters_enqueue_none; [exact Hnone | reflexivity].
Qed.
End Names.

Lemma names_step {R : RandomSource} (v : variant) (running_time : Q)
    (k : cont) (e : EventScheduler cont) (s s' : sim R) :
  names_invariant s ->
  next_event running_time (env s) = Some (k, e) ->
  resume R v k (set_env R e s) = Ok s' ->
  names_invariant s'.
Proof.
  intros [Huniq (i0 & Hcount & Hfresh)]. unfold next_event.
  destruct (pending (env s)) as [|x rest] eqn:Hpending; [discriminate|].
  destruct (Qltb _ _); [discriminate|].
  intros H; injection H as <- <-. intros Hres.
  set (s1 := set_env R _ s) in Hres.
  assert (Hpop : forall nm,
             named nm s = (is_named nm (cont_name (continuation x)) + named nm s1)%nat).
  { intros nm. unfold named, s1. cbn. rewrite Hpending. cbn. lia. }
  assert (Hstep : forall nm,
             named nm s' = (named nm s + spawned nm (continuation x))%nat).
  { intros nm. rewrite (named_resume v nm _ _ _ Hres), Hpop. lia. }
  unfold counters in Hcount. cbn in Hcount. fold (counters rest) in Hcount.
  destruct (arrivals_counter (continuation x)) as [i|] eqn:Hx.
  - injection Hcount as -> Hrest.
    assert (Hcounter : counters (pending (env s')) = [next_counter (continuation x)]).
    { apply (counters_resume_some v _ _ s1 s' Hx Hrest Hres). }
    destruct (continuation x) as [nm' al|p st|p st| |i]; try discriminate.
    + split.
      * intros nm. rewrite Hstep. cbn. specialize (Huniq nm). lia.
      * exists 0%nat. split; [exact Hcounter|].
        intros j Hj. rewrite Hstep. cbn. injection Hx as <-.
        rewrite (Hfresh j Hj). reflexivity.
    + injection Hx as ->. split.
      * intros nm. rewrite Hstep. cbn [spawned]. unfold is_named.
        case_bool_decide as Hnm; [|specialize (Huniq nm); lia].
        injection Hnm as <-. rewrite (Hfresh (S i0)) by lia. lia.
      * exists (S i0). split; [exact Hcounter|].
        intros j Hj. rewrite Hstep, (Hfresh j) by lia. cbn [spawned]. unfold is_named.
        rewrite bool_decide_eq_false_2; [reflexivity|]. intros Heq.
        injection Heq as Heq. lia.
  - assert (Hcounter : counters (pending (env s')) = [i0]).
    { rewrite (counters_resume_none v _ s1 s' Hx Hres). exact Hcount. }
    assert (Hspawn : forall nm, spawned nm (continuation x) = 0%nat)
      by (intros nm; destruct (continuation x); try discriminate; reflexivity).
    split.
    + intros nm. rewrite Hstep, Hspawn. specialize (Huniq nm). lia.
    + exists i0. split; [exact Hcounter|].
      intros j Hj. rewrite Hstep, Hspawn, (Hfresh j Hj). reflexivity.
Qed.

Lemma names_env_steps {R : RandomSource} (v : variant) (fuel : nat) (running_time : Q) :
  forall (s s' : sim R) (finished : bool),
    names_invariant s ->
    env_steps R v fuel running_time s = Ok (s', finished) ->
    names_invariant s'.
Proof.
  induction fuel as [|fuel IH]; intros s s' finished Hinv; cbn [env_steps].
  - intros H; injection H as <- _. exact Hinv.
  - destruct (next_event running_time (env s)) as [[k e]|] eqn:Hnext.
    + destruct (resume R v _ _) as [s1|err] eqn:Hres; [|discriminate].
      cbn. apply IH. eapply names_step; eassumption.
    + intros H; injection H as <- _. exact Hinv.
Qed.

Lemma named_fold_process {R : RandomSource} (nm : pname) (ks : list cont) :
  forall s : sim R,
    named nm (fold_left (fun s k => env_process R k s) ks s)
    = (sum_list (map (fun k => is_named nm (cont_name k)) ks) + named nm s)%nat.
Proof.
  induction ks as [|k ks IH]; intros s; cbn; [reflexivity|].
  rewrite IH. change (env_process R k s) with (env_timeout R 0 k s).
  rewrite named_timeout. lia.
Qed.

Lemma counters_fold_process {R : RandomSource} (ks : list cont) :
  Forall (fun k => arrivals_counter k = None) ks ->
  forall s : sim R,
    counters (pending (env (fold_left (fun s k => env_process R k s) ks s)))
    = counters (pending (env s)).
Proof.
  induction 1 as [|k ks Hk _ IH]; intros s; cbn; [reflexivity|].
  rewrite IH. change (env_process R k s) with (env_timeout R 0 k s).
  apply counters_timeout, Hk.
Qed.

Lemma lanes_named_AirportSecurity (nm : pname) (v : variant) (num_lanes : nat) :
  lanes_named nm (AirportSecurity v num_lanes) = 0%nat.
Proof.
  destruct v; cbn; [reflexivity| |];
    induction num_lanes as [|n IH]; cbn; try reflexivity; rewrite IH; reflexivity.
Qed.

Lemma initial_lane_names (nm : pname) (n : nat) :
  forall a,
    let total :=
      sum_list
        (map (fun k => is_named nm (cont_name k))
             (flat_map (fun lane_index =>
                          map (fun j => k_check_passenger
                                          (InitialPassengerLane (lane_index + 1) (j + 1))
                                          (Some lane_index))
                              (seq 0 2))
                       (seq a n))) in
    (total <= 1)%nat /\
    (forall x y, nm = InitialPassengerLane x y -> (x <= a)%nat -> total = 0%nat) /\
    (forall j, nm = Passenger j -> total = 0%nat).
Proof.
  induction n as [|n IH]; intros a; cbn zeta.
  - cbn. repeat split; intros; lia.
  - destruct (IH (S a)) as (Hle & Hzero & Hpassenger). cbn zeta in Hle, Hzero, Hpassenger.
    cbn [seq flat_map map app cont_name sum_list]. cbn [Nat.add].
    set (rest := sum_list _) in *. unfold is_named.
    repeat split.
    + repeat case_bool_decide; simplify_eq; unfold id; try lia.
      * rewrite (Hzero (a + 1)%nat 1%nat eq_refl) by lia. lia.
      * rewrite (Hzero (a + 1)%nat 2%nat eq_refl) by lia. lia.
    + intros x y -> Hx.
      rewrite !bool_decide_eq_false_2 by (intros H; simplify_eq; lia).
      rewrite (Hzero x y eq_refl) by lia. reflexivity.
    + intros j ->.
      rewrite !bool_decide_eq_false_2 by discriminate.
      rewrite (Hpassenger j eq_refl). reflexivity.
Qed.

Lemma initial_names (nm : pname) (v : variant) (num_lanes : nat) :
  let total := sum_list (map (fun k => is_named nm (cont_name k))
                             (initial_passengers v num_lanes)) in
  (total <= 1)%nat /\ (forall j, nm = Passenger j -> total = 0%nat).
Proof.
  destruct v; cbn zeta.
  - cbn. unfold is_named. split.
    + repeat case_bool_decide; simplify_eq; unfold id; lia.
    + intros j ->. rewrite !bool_decide_eq_false_2 by discriminate. reflexivity.
  - destruct (initial_lane_names nm num_lanes 0) as (Hle & _ & Hp). split; assumption.
  - destruct (initial_lane_names nm num_lanes 0) as (Hle & _ & Hp). split; assumption.
Qed.

Lemma names_setup {R : RandomSource} (v : variant) (num_lanes : nat) (g : globals R) :
  names_invariant (setup R v num_lanes g).
Proof.
  unfold setup. set (s0 := mkSim _ _ _ _ _).
  assert (Hnamed : forall nm,
             named nm (env_process R k_passenger_arrivals_start
                         (fold_left (fun s k => env_process R k s)
                                    (initial_passengers v num_lanes) s0))
             = sum_list (map (fun k => is_named nm (cont_name k))
                             (initial_passengers v num_lanes))).
  { intros nm.
    change (env_process R ?k ?s) with (env_timeout R 0 k s) at 1.
    rewrite named_timeout, named_fold_process, is_named_None.
    unfold named, s0. cbn. rewrite lanes_named_AirportSecurity. lia. }
  split.
  - intros nm. rewrite Hnamed.
    destruct (initial_names nm v num_lanes) as [Hle _]. exact Hle.
  - exists 0%nat. split.
    + cbn. apply counters_enqueue_some; [reflexivity|].
      rewrite counters_fold_process; [reflexivity|].
      eapply Forall_impl; [apply initial_passengers_new|].
      intros k Hk. destruct k; try contradiction. reflexivity.
    + intros j _. rewrite Hnamed.
      destruct (initial_names (Passenger j) v num_lanes) as [_ Hp].
      apply (Hp j). reflexivity.
Qed.

Lemma run_airport_names {R : RandomSource} (v : variant) (fuel : nat)
    (running_time : Q) (num_lanes : nat) (g : globals R) (s : sim R)
    (finished : bool) :
  run_airport R v fuel running_time num_lanes g = Ok (s, finished) ->
  names_invariant s.
Proof.
  intros Hrun. apply run_airport_steps in Hrun as [_ Hrun]. revert Hrun.
  apply names_env_steps, names_setup.
Qed.








(** ** The clock at the start and at the end of a process *)

Section TraceInvariant.
Context {R : RandomSource} (v : variant) (tr : list (Q * cont)).

Lemma started_log (p : passenger) (a : action) :
  started tr (log p a) <-> started tr p.
Proof. reflexivity. Qed.

Lemma tr_timeout (d : Q) (k : cont) (s : sim R) :
  trace_invariant tr s -> cont_started tr k ->
  trace_invariant tr (env_timeout R d k s).
Proof.
  intros [He Hw Hc] Hk. split; cbn; try assumption.
  apply Forall_enqueue. split; assumption.
Qed.

Lemma tr_set_rng (g : rng_state R) (s : sim R) :
  trace_invariant tr s -> trace_invariant tr (set_rng R g s).
Proof. intros [He Hw Hc]. split; assumption. Qed.

Lemma tr_set_pool (l : nat) (st : stage) (ln : lane_t)
    (r : ResourcePool passenger) (s : sim R) :
  trace_invariant tr s ->
  lanes s !! l = Some ln ->
  Forall (started tr) (waiters r) ->
  trace_invariant tr (set_pool R l st ln r s).
Proof.
  intros [He Hw Hc] Hl Hr. split; cbn; try assumption.
  apply (Forall_waiters_insert (fun _ _ p => started tr p)); assumption.
Qed.

Lemma tr_serve (p : passenger) (st : stage) (s : sim R) :
  trace_invariant tr s -> started tr p -> trace_invariant tr (serve R p st s).
Proof.
  intros Hinv Hp. unfold serve.
  destruct (service_bounds st) as [low high].
  destruct (uniform R low high (rng s)) as [d g].
  apply tr_timeout; [apply tr_set_rng, Hinv | exact Hp].
Qed.

Lemma tr_request (p : passenger) (st : stage) (s s' : sim R) :
  trace_invariant tr s -> started tr p ->
  request R p st s = Ok s' ->
  trace_invariant tr s'.
Proof.
  intros Hinv Hp. unfold request.
  destruct (lanes s !! lane p) as [ln|] eqn:Hl; [|discriminate].
  pose proof (tr_waiters _ _ Hinv _ _ st Hl) as Hws. cbv beta in Hws.
  destruct (acquire _ _) as [[] r] eqn:Hacq;
    apply acquire_waiters in Hacq; intros H; injection H as <-.
  - apply tr_serve; [|exact Hp].
    apply tr_set_pool; [exact Hinv | exact Hl | rewrite Hacq; exact Hws].
  - apply tr_set_pool; [exact Hinv | exact Hl |].
    rewrite Hacq. apply Forall_app. split; [exact Hws|].
    apply Forall_singleton. exact Hp.
Qed.

Lemma tr_release_stage (p : passenger) (st : stage) (s s' : sim R) :
  trace_invariant tr s ->
  release_stage R p st s = Ok s' ->
  trace_invariant tr s' /\ now (env s') = now (env s).
Proof.
  intros Hinv. unfold release_stage.
  destruct (lanes s !! lane p) as [ln|] eqn:Hl; [|discriminate].
  pose proof (tr_waiters _ _ Hinv _ _ st Hl) as Hws. cbv beta in Hws.
  destruct (release _) as [[w r]|e] eqn:Hrel; [|discriminate].
  apply release_waiters in Hrel. cbn. intros H; injection H as <-.
  destruct w as [w|].
  - rewrite Hrel in Hws. apply Forall_cons in Hws as [Hw Hws].
    split; [|reflexivity].
    apply tr_timeout; [|exact Hw]. apply tr_set_pool; assumption.
  - split; [|reflexivity].
    apply tr_set_pool; [exact Hinv | exact Hl |].
    rewrite (proj2 Hrel). constructor.
Qed.

Lemma tr_depart (p : passenger) (s : sim R) :
  trace_invariant tr s -> started tr p ->
  (exists p', name p' = name p /\ (now (env s), k_served p' body_screener) ∈ tr) ->
  trace_invariant tr (depart R p s).
Proof.
  intros [He Hw Hc] Hp Hend. split; cbn; try assumption.
  apply Forall_app. split; [exact Hc|]. apply Forall_singleton.
  split; [exact Hp | exact Hend].
Qed.

Lemma tr_passenger_arrivals (i : nat) (s : sim R) :
  trace_invariant tr s -> trace_invariant tr (passenger_arrivals R i s).
Proof.
  intros Hinv. unfold passenger_arrivals. destruct (expovariate R _ _) as [gap g].
  apply tr_timeout; [apply tr_set_rng, Hinv | exact I].
Qed.

Lemma tr_select_lane (assigned_lane : option nat) (l : nat) (s s' : sim R) :
  trace_invariant tr s ->
  select_lane R v assigned_lane s = Ok (l, s') ->
  trace_invariant tr s' /\ now (env s') = now (env s).
Proof.
  intros Hinv. unfold select_lane, choice.
  destruct v, assigned_lane;
    try (intros H; injection H as <- <-; split; [exact Hinv | reflexivity]).
  - destruct (lanes s); [discriminate|].
    destruct (randbelow R _ _) as [i g]. destruct (_ !! i); [|discriminate].
    intros H; injection H as <- <-. split; [apply tr_set_rng, Hinv | reflexivity].
  - destruct (choose_dynamic_lane _) as [[ln|] i]; [|discriminate].
    intros H; injection H as <- <-. split; [exact Hinv | reflexivity].
Qed.

(** Resuming the generator [k], which the trace shows at the present clock. *)
Lemma tr_resume (k : cont) (s s' : sim R) :
  trace_invariant tr s ->
  cont_started tr k ->
  (now (env s), k) ∈ tr ->
  resume R v k s = Ok s' ->
  trace_invariant tr s'.
Proof.
  intros Hinv Hk Hin. destruct k as [nm al|p st|p st| |i];
    cbn [resume]; unfold check_passenger, check_passenger_served.
  - destruct (select_lane R v al s) as [[l s1]|e] eqn:Hsel; [|discriminate].
    cbn. apply tr_select_lane in Hsel as [Hinv1 _]; [|exact Hinv].
    apply tr_request; [exact Hinv1|]. exists al. exact Hin.
  - intros H; injection H as <-. apply tr_serve; assumption.
  - destruct (release_stage R p st s) as [s1|e] eqn:Hrel; [|discriminate].
    cbn. apply tr_release_stage in Hrel as [Hinv1 Hnow]; [|exact Hinv].
    destruct st; cbn [next_stage].
    + apply tr_request; assumption.
    + apply tr_request; assumption.
    + intros H; injection H as <-. apply tr_depart; [exact Hinv1 | exact Hk|].
      exists p. split; [reflexivity|]. rewrite Hnow. exact Hin.
  - intros H; injection H as <-. apply tr_passenger_arrivals, Hinv.
  - intros H; injection H as <-. apply tr_passenger_arrivals.
    apply (tr_timeout 0); [exact Hinv | exact I].
Qed.
End TraceInvariant.

Lemma trace_invariant_mono {R : RandomSource} (tr tr' : list (Q * cont)) (s : sim R) :
  (forall x, x ∈ tr -> x ∈ tr') ->
  trace_invariant tr s -> trace_invariant tr' s.
Proof.
  intros Hsub [He Hw Hc].
  assert (Hs : forall p, started tr p -> started tr' p).
  { intros p [al H]. exists al. apply Hsub, H. }
  split.
  - eapply Forall_impl; [exact He|]. cbn beta. intros e H.
    destruct (continuation e); try exact I; apply Hs, H.
  - intros l ln st Hl. eapply Forall_impl; [apply (Hw l ln st Hl)|]. exact Hs.
  - eapply Forall_impl; [exact Hc|]. intros c [H1 (p & Hp & H2)].
    split; [apply Hs, H1|]. exists p. split; [exact Hp | apply Hsub, H2].
Qed.

Lemma tr_env_steps {R : RandomSource} (v : variant) (fuel : nat) (running_time : Q) :
  forall (tr : list (Q * cont)) (s s' : sim R) (finished : bool),
    trace_invariant tr s ->
    env_steps R v fuel running_time s = Ok (s', finished) ->
    trace_invariant (tr ++ env_trace v fuel running_time s) s'.
Proof.
  induction fuel as [|fuel IH]; intros tr s s' finished Hinv;
    cbn [env_steps env_trace].
  - intros H; injection H as <- _. rewrite app_nil_r. exact Hinv.
  - unfold next_event. destruct (pending (env s)) as [|x rest] eqn:Hpending.
    + intros H; injection H as <- _. rewrite app_nil_r. exact Hinv.
    + destruct (Qltb _ _).
      * intros H; injection H as <- _. rewrite app_nil_r. exact Hinv.
      * cbn [now]. destruct (resume R v _ _) as [s1|err] eqn:Hres; [|discriminate].
        cbn. intros Hrun.
        replace (tr ++ (due_time x, continuation x) :: env_trace v fuel running_time s1)
          with ((tr ++ [(due_time x, continuation x)])
                ++ env_trace v fuel running_time s1)
          by (rewrite <- app_assoc; reflexivity).
        apply (IH _ s1 s' finished); [|exact Hrun].
        assert (Hinv' : trace_invariant (tr ++ [(due_time x, continuation x)]) s).
        { eapply trace_invariant_mono; [|exact Hinv].
          intros y Hy. apply elem_of_app. left. exact Hy. }
        destruct Hinv' as [He Hw Hc]. rewrite Hpending in He.
        apply Forall_cons in He as [Hk He].
        eapply tr_resume; [| exact Hk | | exact Hres].
        -- split; assumption.
        -- cbn. apply elem_of_app. right. apply list_elem_of_singleton. reflexivity.
Qed.

Lemma tr_setup {R : RandomSource} (v : variant) (num_lanes : nat) (g : globals R) :
  trace_invariant [] (setup R v num_lanes g).
Proof.
  unfold setup. apply (tr_timeout _ 0); [|exact I].
  pose proof (initial_passengers_new v num_lanes) as Hnew.
  set (s0 := mkSim _ _ _ _ _).
  assert (H0 : trace_invariant [] s0).
  { split; cbn; try constructor. apply Forall_waiters_AirportSecurity. }
  clearbody s0. revert s0 H0. induction Hnew as [|k ks Hk _ IH]; intros s0 H0; cbn.
  - exact H0.
  - apply IH. apply (tr_timeout _ 0); [exact H0|].
    destruct k; try contradiction. exact I.
Qed.

Lemma run_airport_trace {R : RandomSource} (v : variant) (fuel : nat)
    (running_time : Q) (num_lanes : nat) (g : globals R) (s : sim R)
    (finished : bool) :
  run_airport R v fuel running_time num_lanes g = Ok (s, finished) ->
  trace_invariant (run_trace v fuel running_time num_lanes g) s.
Proof.
  intros Hrun. apply run_airport_steps in Hrun as [_ Hrun].
  apply (tr_env_steps v fuel running_time [] _ _ _ (tr_setup v num_lanes g) Hrun).
Qed.

(** *** A process is started once *)

Lemma starts_app (nm : pname) (tr tr' : list (Q * cont)) :
  starts nm (tr ++ tr') = (starts nm tr + starts nm tr')%nat.
Proof.
  induction tr as [|[t k] tr IH]; [reflexivity|].
  cbn [app starts]. destruct k; rewrite IH; lia.
Qed.

Lemma starts_elem (nm : pname) (t : Q) (al : option nat) (tr : list (Q * cont)) :
  (t, k_check_passenger nm al) ∈ tr -> (1 <= starts nm tr)%nat.
Proof.
  induction tr as [|[t' k] tr IH]; intros Hin.
  - apply elem_of_nil in Hin as [].
  - apply elem_of_cons in Hin as [Heq|Hin].
    + injection Heq as <- <-. cbn. unfold is_named.
      rewrite bool_decide_eq_true_2 by reflexivity. lia.
    + specialize (IH Hin). cbn [starts]. destruct k; lia.
Qed.

Lemma starts_once (nm : pname) (tr : list (Q * cont)) :
  (starts nm tr <= 1)%nat ->
  forall t t' al al',
    (t, k_check_passenger nm al) ∈ tr ->
    (t', k_check_passenger nm al') ∈ tr ->
    t = t' /\ al = al'.
Proof.
  induction tr as [|[t0 k] tr IH]; intros Hle t t' al al' Hin Hin'.
  - apply elem_of_nil in Hin as [].
  - apply elem_of_cons in Hin as [Heq|Hin], Hin' as [Heq'|Hin'].
    + injection Heq as <- <-. injection Heq' as -> ->. split; reflexivity.
    + injection Heq as <- <-. apply starts_elem in Hin'.
      cbn in Hle. unfold is_named in Hle.
      rewrite bool_decide_eq_true_2 in Hle by reflexivity. lia.
    + injection Heq' as <- <-. apply starts_elem in Hin.
      cbn in Hle. unfold is_named in Hle.
      rewrite bool_decide_eq_true_2 in Hle by reflexivity. lia.
    + apply IH; [|assumption..]. cbn [starts] in Hle. destruct k; lia.
Qed.

Lemma pending_starts_enqueue (nm : pname) (e : Event cont) (q : list (Event cont)) :
  pending_starts nm (enqueue e q)
  = (pending_starts nm [e] + pending_starts nm q)%nat.
Proof.
  induction q as [|x q IH]; cbn [enqueue]; [cbn; lia|].
  destruct (earlier e x); [cbn; lia|].
  cbn [pending_starts] in *. rewrite IH. lia.
Qed.

Section Starts.
Context {R : RandomSource} (v : variant) (nm : pname).

Lemma ps_timeout (d : Q) (k : cont) (s : sim R) :
  pending_starts nm (pending (env (env_timeout R d k s)))
  = (pending_starts nm [mkEvent 0 0 k] + pending_starts nm (pending (env s)))%nat.
Proof. cbn. rewrite pending_starts_enqueue. reflexivity. Qed.

Lemma ps_serve (p : passenger) (st : stage) (s : sim R) :
  pending_starts nm (pending (env (serve R p st s)))
  = pending_starts nm (pending (env s)).
Proof.
  unfold serve. destruct (service_bounds st) as [low high].
  destruct (uniform R low high (rng s)) as [d g]. rewrite ps_timeout. reflexivity.
Qed.

Lemma ps_request (p : passenger) (st : stage) (s s' : sim R) :
  request R p st s = Ok s' ->
  pending_starts nm (pending (env s')) = pending_starts nm (pending (env s)).
Proof.
  unfold request. destruct (lanes s !! lane p) as [ln|]; [|discriminate].
  destruct (acquire _ _) as [[] r]; intros H; injection H as <-.
  - rewrite ps_serve. reflexivity.
  - reflexivity.
Qed.

Lemma ps_release_stage (p : passenger) (st : stage) (s s' : sim R) :
  release_stage R p st s = Ok s' ->
  pending_starts nm (pending (env s')) = pending_starts nm (pending (env s)).
Proof.
  unfold release_stage. destruct (lanes s !! lane p) as [ln|]; [|discriminate].
  destruct (release _) as [[[w|] r]|e]; [| |discriminate]; cbn [mbind result_bind];
    intros H; injection H as <-.
  - rewrite ps_timeout. reflexivity.
  - reflexivity.
Qed.

Lemma ps_select_lane (assigned_lane : option nat) (l : nat) (s s' : sim R) :
  select_lane R v assigned_lane s = Ok (l, s') -> env s' = env s.
Proof.
  unfold select_lane, choice.
  destruct v, assigned_lane; try (intros H; injection H as <- <-; reflexivity).
  - destruct (lanes s); [discriminate|].
    destruct (randbelow R _ _) as [i g]. destruct (_ !! i); [|discriminate].
    intros H; injection H as <- <-. reflexivity.
  - destruct (choose_dynamic_lane _) as [[ln|] i]; [|discriminate].
    intros H; injection H as <- <-. reflexivity.
Qed.

Lemma ps_resume (k : cont) (s s' : sim R) :
  resume R v k s = Ok s' ->
  pending_starts nm (pending (env s'))
  = (spawned nm k + pending_starts nm (pending (env s)))%nat.
Proof.
  destruct k as [nm' al|p st|p st| |i];
    cbn [resume spawned]; unfold check_passenger, check_passenger_served.
  - destruct (select_lane R v al s) as [[l s1]|e] eqn:Hsel; [|discriminate].
    cbn. intros Hreq. apply ps_request in Hreq. apply ps_select_lane in Hsel.
    rewrite Hreq, Hsel. reflexivity.
  - intros H; injection H as <-. apply ps_serve.
  - destruct (release_stage R p st s) as [s1|e] eqn:Hrel; [|discriminate].
    cbn. apply ps_release_stage in Hrel.
    destruct (next_stage st) as [st'|].
    + intros Hreq. apply ps_request in Hreq. congruence.
    + intros H; injection H as <-. exact Hrel.
  - intros H; injection H as <-. unfold passenger_arrivals.
    destruct (expovariate R _ _) as [gap g]. rewrite ps_timeout. reflexivity.
  - intros H; injection H as <-. unfold passenger_arrivals.
    destruct (expovariate R _ _) as [gap g]. rewrite ps_timeout.
    cbn [set_rng env]. change (env_process R ?k s) with (env_timeout R 0 k s).
    rewrite ps_timeout. cbn. lia.
Qed.
End Starts.

Lemma starts_env_steps {R : RandomSource} (v : variant) (fuel : nat)
    (running_time : Q) :
  forall (tr : list (Q * cont)) (s s' : sim R) (finished : bool),
    (forall nm, (starts nm tr + pending_starts nm (pending (env s)))%nat = named nm s) ->
    env_steps R v fuel running_time s = Ok (s', finished) ->
    forall nm,
      (starts nm (tr ++ env_trace v fuel running_time s)
       + pending_starts nm (pending (env s')))%nat = named nm s'.
Proof.
  induction fuel as [|fuel IH]; intros tr s s' finished Hinv;
    cbn [env_steps env_trace].
  - intros H; injection H as <- _. rewrite app_nil_r. exact Hinv.
  - unfold next_event. destruct (pending (env s)) as [|x rest] eqn:Hpending.
    + intros H; injection H as <- _. rewrite app_nil_r, Hpending. exact Hinv.
    + destruct (Qltb _ _).
      * intros H; injection H as <- _. rewrite app_nil_r, Hpending. exact Hinv.
      * cbn [now]. destruct (resume R v _ _) as [s1|err] eqn:Hres; [|discriminate].
        cbn. intros Hrun.
        replace (tr ++ (due_time x, continuation x) :: env_trace v fuel running_time s1)
          with ((tr ++ [(due_time x, continuation x)])
                ++ env_trace v fuel running_time s1)
          by (rewrite <- app_assoc; reflexivity).
        apply (IH _ s1 s' finished); [|exact Hrun].
        intros nm. specialize (Hinv nm).
        rewrite (ps_resume v nm _ _ _ Hres), (named_resume v nm _ _ _ Hres).
        rewrite starts_app.
        assert (Hpop : named nm s
                       = (is_named nm (cont_name (continuation x))
                          + named nm (set_env R (mkScheduler (due_time x)
                                                   (next_sequence (env s)) rest) s))%nat).
        { unfold named. cbn. rewrite Hpending. cbn. lia. }
        cbn [env set_env pending]. cbn [pending_starts] in Hinv.
        destruct (continuation x) as [nm' al|p st|p st| |i];
          cbn [starts cont_name spawned] in *; rewrite ?is_named_None in *; lia.
Qed.

Lemma starts_setup {R : RandomSource} (v : variant) (num_lanes : nat) (g : globals R)
    (nm : pname) :
  (starts nm [] + pending_starts nm (pending (env (setup R v num_lanes g))))%nat
  = named nm (setup R v num_lanes g).
Proof.
  unfold setup.
  change (env_process R k_passenger_arrivals_start ?s)
    with (env_timeout R 0 k_passenger_arrivals_start s).
  rewrite ps_timeout, named_timeout, is_named_None. cbn [starts pending_starts continuation].
  pose proof (initial_passengers_new v num_lanes) as Hnew.
  set (s0 := mkSim _ _ _ _ _).
  assert (H0 : pending_starts nm (pending (env s0)) = named nm s0).
  { unfold named, s0. cbn. rewrite lanes_named_AirportSecurity. reflexivity. }
  clearbody s0. revert s0 H0.
  induction Hnew as [|k ks Hk _ IH]; intros s0 H0; cbn [fold_left].
  - cbn. cbn in H0. lia.
  - apply IH. change (env_process R k s0) with (env_timeout R 0 k s0).
    rewrite ps_timeout, named_timeout.
    destruct k; try contradiction. cbn. lia.
Qed.

Lemma run_airport_starts {R : RandomSource} (v : variant) (fuel : nat)
    (running_time : Q) (num_lanes : nat) (g : globals R) (s : sim R)
    (finished : bool) (nm : pname) :
  run_airport R v fuel running_time num_lanes g = Ok (s, finished) ->
  (starts nm (run_trace v fuel running_time num_lanes g) <= 1)%nat.
Proof.
  intros Hrun. pose proof (run_airport_names _ _ _ _ _ _ _ Hrun) as [Huniq _].
  apply run_airport_steps in Hrun as [_ Hrun].
  pose proof (starts_env_steps v fuel running_time [] _ _ _
                (starts_setup v num_lanes g) Hrun nm) as H.
  cbn [app] in H. specialize (Huniq nm). unfold run_trace. lia.
Qed.

(** ** The summary on doubles *)

Lemma py_round_near (x : Q) :
  inject_Z (py_round x) - (1 # 2) <= x /\ x <= inject_Z (py_round x) + (1 # 2).
Proof.
  pose proof (Qfloor_le x) as Hle. pose proof (Qlt_floor x) as Hlt.
  rewrite inject_Z_plus in Hlt. change (inject_Z 1) with 1 in Hlt.
  unfold py_round. destruct (Qcompare _ _) eqn:E.
  - apply Qeq_alt in E. destruct (Z.even _);
      rewrite ?inject_Z_plus; change (inject_Z 1) with 1; split; lra.
  - apply Qlt_alt in E. split; lra.
  - apply Qgt_alt in E. rewrite inject_Z_plus. change (inject_Z 1) with 1.
    split; lra.
Qed.

Lemma py_round_le_Z (x : Q) (k : Z) : x <= inject_Z k -> (py_round x <= k)%Z.
Proof.
  intros Hx. pose proof (py_round_near x) as [Hlo _].
  assert (H : inject_Z (py_round x) < inject_Z (k + 1)).
  { rewrite inject_Z_plus. change (inject_Z 1) with 1. lra. }
  rewrite <- Zlt_Qlt in H. lia.
Qed.

Lemma py_round_ge_Z (x : Q) (k : Z) : inject_Z k <= x -> (k <= py_round x)%Z.
Proof.
  intros Hx. pose proof (py_round_near x) as [_ Hhi].
  assert (H : inject_Z (k - 1) < inject_Z (py_round x)).
  { unfold Z.sub. rewrite inject_Z_plus. change (inject_Z (- (1))) with (- (1)). lra. }
  rewrite <- Zlt_Qlt in H. lia.
Qed.

Lemma pow2_pos (u : Z) : 0 < 2 ^ u.
Proof. apply Qpower_0_lt. reflexivity. Qed.

Lemma pow2_inject (n : Z) : (0 <= n)%Z -> inject_Z (2 ^ n) == 2 ^ n.
Proof. intros Hn. rewrite Zpower_Qpower by exact Hn. reflexivity. Qed.

(** A multiple of [2 ^ e] is a multiple of every smaller power of 2. *)
Lemma pow2_grid (j e u : Z) :
  (u <= e)%Z -> inject_Z j * 2 ^ e == inject_Z (j * 2 ^ (e - u)) * 2 ^ u.
Proof.
  intros Hu. rewrite inject_Z_mult, pow2_inject by lia.
  rewrite <- Qmult_assoc, <- Qpower_plus by discriminate.
  replace (e - u + u)%Z with e by lia. reflexivity.
Qed.

Lemma Qlog2_le (x : Q) : 0 < x -> 2 ^ Double.Qlog2 x <= x.
Proof.
  intros Hx. destruct x as [n d].
  assert (Hn : (0 < n)%Z) by (unfold Qlt in Hx; cbn in Hx; lia).
  unfold Double.Qlog2. cbn [Qnum Qden]. rewrite (Z.abs_eq n) by lia.
  destruct (Qle_bool _ _) eqn:E.
  - apply Qle_bool_iff in E. exact E.
  - clear E.
    pose proof (Z.log2_spec n Hn) as [Ha _].
    pose proof (Z.log2_spec (Zpos d) eq_refl) as [_ Hb].
    pose proof (Z.log2_nonneg n) as Ha0.
    pose proof (Z.log2_nonneg (Zpos d)) as Hb0.
    set (a := Z.log2 n) in *. set (b := Z.log2 (Zpos d)) in *.
    replace (a - b - 1)%Z with (a - Z.succ b)%Z by lia.
    rewrite Qpower_minus by discriminate.
    rewrite <- !pow2_inject by lia.
    assert (Hp : (0 < 2 ^ Z.succ b)%Z) by (apply Z.pow_pos_nonneg; lia).
    apply Qle_shift_div_r.
    + change 0 with (inject_Z 0). rewrite <- Zlt_Qlt. exact Hp.
    + rewrite (Qmake_Qdiv n d). unfold Qdiv.
      rewrite <- Qmult_assoc, (Qmult_comm (/ _)), Qmult_assoc.
      apply Qle_shift_div_l; [reflexivity|].
      rewrite <- !inject_Z_mult, <- Zle_Qle. nia.
Qed.

Lemma Qlog2_lt (x : Q) (k : Z) : 0 < x -> x < 2 ^ k -> (Double.Qlog2 x < k)%Z.
Proof.
  intros Hx Hk. pose proof (Qlog2_le x Hx) as Hle.
  apply (Qpower_lt_compat_l_inv 2); [lra | reflexivity].
Qed.

Lemma ulp_exponent_le (x : Q) (k : Z) :
  0 < x -> x < 2 ^ k -> (-1021 <= k)%Z -> (Double.ulp_exponent x <= k - 53)%Z.
Proof.
  intros Hx Hk Hrange. pose proof (Qlog2_lt x k Hx Hk).
  unfold Double.ulp_exponent. lia.
Qed.

Lemma RN_0 (x : Q) : x == 0 -> Double.RN x = 0.
Proof.
  intros H. unfold Double.RN.
  destruct (Qeq_bool x 0) eqn:E; [reflexivity|].
  apply Qeq_bool_neq in E. contradiction.
Qed.

Lemma RN_pos (x : Q) :
  0 < x ->
  Double.RN x
  = inject_Z (py_round (x / 2 ^ Double.ulp_exponent x)) * 2 ^ Double.ulp_exponent x.
Proof.
  intros H. unfold Double.RN.
  destruct (Qeq_bool x 0) eqn:E; [|reflexivity].
  apply Qeq_bool_iff in E. lra.
Qed.

(** Rounding does not cross a double: a multiple [c] of [2 ^ e], with
    [e] at least the exponent of the last place of [x], stays on the side
    of [x] it was on. *)
Lemma RN_le (x : Q) (j e : Z) :
  0 < x -> (Double.ulp_exponent x <= e)%Z ->
  x <= inject_Z j * 2 ^ e -> Double.RN x <= inject_Z j * 2 ^ e.
Proof.
  intros Hx He Hle. rewrite RN_pos by exact Hx.
  set (u := Double.ulp_exponent x) in *.
  pose proof (pow2_pos u) as Hu.
  rewrite (pow2_grid j e u He) in Hle |- *.
  apply Qmult_le_compat_r; [|lra].
  rewrite <- Zle_Qle. apply py_round_le_Z.
  apply Qle_shift_div_r; [exact Hu | exact Hle].
Qed.

Lemma RN_ge (x : Q) (j e : Z) :
  0 < x -> (Double.ulp_exponent x <= e)%Z ->
  inject_Z j * 2 ^ e <= x -> inject_Z j * 2 ^ e <= Double.RN x.
Proof.
  intros Hx He Hle. rewrite RN_pos by exact Hx.
  set (u := Double.ulp_exponent x) in *.
  pose proof (pow2_pos u) as Hu.
  rewrite (pow2_grid j e u He) in Hle |- *.
  apply Qmult_le_compat_r; [|lra].
  rewrite <- Zle_Qle. apply py_round_ge_Z.
  apply Qle_shift_div_l; [exact Hu | exact Hle].
Qed.

(** A double is left as it is. *)
Lemma RN_exact (x : Q) (j e : Z) :
  0 < x -> (Double.ulp_exponent x <= e)%Z ->
  x == inject_Z j * 2 ^ e -> Double.RN x == x.
Proof.
  intros Hx He Heq. apply Qle_antisym.
  - rewrite Heq at 2. apply RN_le; [exact Hx | exact He | rewrite Heq; apply Qle_refl].
  - rewrite Heq at 1. apply RN_ge; [exact Hx | exact He | rewrite Heq; apply Qle_refl].
Qed.

(** The error of one rounding is at most half a unit in the last place. *)
Lemma RN_error (x : Q) :
  0 < x ->
  - ((1 # 2) * 2 ^ Double.ulp_exponent x) <= Double.RN x - x /\
  Double.RN x - x <= (1 # 2) * 2 ^ Double.ulp_exponent x.
Proof.
  intros Hx. rewrite RN_pos by exact Hx.
  set (u := Double.ulp_exponent x).
  pose proof (pow2_pos u) as Hu.
  pose proof (py_round_near (x / 2 ^ u)) as [Hlo Hhi].
  set (r := inject_Z (py_round (x / 2 ^ u))) in *.
  assert (Hx' : x == x / 2 ^ u * 2 ^ u) by (field; lra).
  set (y := x / 2 ^ u) in *. clearbody y r.
  assert (Hlo' : 0 <= (y - (r - (1 # 2))) * 2 ^ u) by (apply Qmult_le_0_compat; lra).
  assert (Hhi' : 0 <= (r + (1 # 2) - y) * 2 ^ u) by (apply Qmult_le_0_compat; lra).
  rewrite Hx'. split.
  - apply Qle_minus_iff.
    assert (E : r * 2 ^ u - y * 2 ^ u + - - ((1 # 2) * 2 ^ u) == (r + (1 # 2) - y) * 2 ^ u)
      by field.
    rewrite E. exact Hhi'.
  - apply Qle_minus_iff.
    assert (E : (1 # 2) * 2 ^ u + - (r * 2 ^ u - y * 2 ^ u) == (y - (r - (1 # 2))) * 2 ^ u)
      by field.
    rewrite E. exact Hlo'.
Qed.

Lemma pow2_le (u e : Z) : (u <= e)%Z -> 2 ^ u <= 2 ^ e.
Proof. intros H. apply Qpower_le_compat_l; [exact H | lra]. Qed.

(** Below 64 the doubles are [2 ^ -47] apart or closer. *)
Lemma RN_error_64 (x : Q) :
  0 <= x -> x < 64 ->
  - (1 # 2 ^ 48) <= Double.RN x - x /\ Double.RN x - x <= 1 # 2 ^ 48.
Proof.
  intros Hx0 Hx. destruct (Qle_lt_or_eq _ _ Hx0) as [Hpos|Hzero].
  - pose proof (RN_error x Hpos) as [Hlo Hhi].
    pose proof (ulp_exponent_le x 6 Hpos Hx ltac:(lia)) as Hu.
    apply pow2_le in Hu. change (2 ^ (6 - 53)) with (1 # 140737488355328) in Hu.
    change (1 # 2 ^ 48) with (1 # 281474976710656).
    set (p := 2 ^ Double.ulp_exponent x) in *. clearbody p. split; lra.
  - rewrite (RN_0 x) by (symmetry; exact Hzero). rewrite <- Hzero.
    split; apply Qle_minus_iff; vm_compute; discriminate.
Qed.

(** Below 1 they are [2 ^ -53] apart or closer. *)
Lemma RN_error_1 (x : Q) :
  0 <= x -> x < 1 ->
  - (1 # 2 ^ 54) <= Double.RN x - x /\ Double.RN x - x <= 1 # 2 ^ 54.
Proof.
  intros Hx0 Hx. destruct (Qle_lt_or_eq _ _ Hx0) as [Hpos|Hzero].
  - pose proof (RN_error x Hpos) as [Hlo Hhi].
    pose proof (ulp_exponent_le x 0 Hpos Hx ltac:(lia)) as Hu.
    apply pow2_le in Hu. change (2 ^ (0 - 53)) with (1 # 9007199254740992) in Hu.
    change (1 # 2 ^ 54) with (1 # 18014398509481984).
    set (p := 2 ^ Double.ulp_exponent x) in *. clearbody p. split; lra.
  - rewrite (RN_0 x) by (symmetry; exact Hzero). rewrite <- Hzero.
    split; apply Qle_minus_iff; vm_compute; discriminate.
Qed.

(** Rounding keeps a value between two doubles it lies between: 0 and 1,
    0 and 60, 59.5 and 60. *)
Lemma RN_unit (x : Q) : 0 <= x -> x < 1 -> 0 <= Double.RN x /\ Double.RN x <= 1.
Proof.
  intros Hx0 Hx. destruct (Qle_lt_or_eq _ _ Hx0) as [Hpos|Hzero].
  - pose proof (ulp_exponent_le x 0 Hpos Hx ltac:(lia)) as Hu.
    pose proof (RN_ge x 0 0 Hpos ltac:(lia)) as Hlo.
    pose proof (RN_le x 1 0 Hpos ltac:(lia)) as Hhi.
    change (inject_Z 0 * 2 ^ 0) with 0 in Hlo.
    change (inject_Z 1 * 2 ^ 0) with 1 in Hhi.
    split; [apply Hlo | apply Hhi]; lra.
  - rewrite (RN_0 x) by (symmetry; exact Hzero). split; lra.
Qed.

Lemma RN_sixty (x : Q) :
  0 <= x -> x <= 60 ->
  0 <= Double.RN x /\ Double.RN x <= 60 /\ (119 # 2 <= x -> 119 # 2 <= Double.RN x).
Proof.
  intros Hx0 Hx. destruct (Qle_lt_or_eq _ _ Hx0) as [Hpos|Hzero].
  - assert (Hx64 : x < 2 ^ 6) by (change (2 ^ 6) with 64; lra).
    pose proof (ulp_exponent_le x 6 Hpos Hx64 ltac:(lia)) as Hu.
    pose proof (RN_ge x 0 0 Hpos ltac:(lia)) as Hlo.
    pose proof (RN_le x 60 0 Hpos ltac:(lia)) as Hhi.
    pose proof (RN_ge x 119 (-1) Hpos ltac:(lia)) as Hhalf.
    change (inject_Z 0 * 2 ^ 0) with 0 in Hlo.
    change (inject_Z 60 * 2 ^ 0) with 60 in Hhi.
    change (inject_Z 119 * 2 ^ (-1)) with (119 # 2) in Hhalf.
    split; [|split]; [apply Hlo; lra | apply Hhi; lra | exact Hhalf].
  - rewrite (RN_0 x) by (symmetry; exact Hzero). split; [|split]; lra.
Qed.

(** The fractional part [divmod] returns lies between 0 and 1. *)
Lemma divmod1_bounds (x : Q) :
  fst (Double.divmod1 x) = inject_Z (Qfloor x) /\
  0 <= snd (Double.divmod1 x) /\ snd (Double.divmod1 x) <= 1.
Proof.
  pose proof (frac_bounds x) as [Hlo Hhi].
  unfold Double.divmod1. cbn [fst snd]. split; [reflexivity|].
  destruct (Qle_bool 0 x).
  - split; lra.
  - apply RN_unit; assumption.
Qed.

Lemma Double_calculate_wait_time_of_mean (l : list Q) (m : Q) :
  Double.mean l = Ok m ->
  Double.calculate_wait_time l
  = Ok (Qfloor m, py_round (Double.RN (snd (Double.divmod1 m) * 60))).
Proof.
  intros H. unfold Double.calculate_wait_time. rewrite H.
  cbn [mbind result_bind]. unfold Double.divmod1.
  rewrite py_round_inject_Z. reflexivity.
Qed.

Lemma Double_seconds_bounds (m : Q) :
  (0 <= py_round (Double.RN (snd (Double.divmod1 m) * 60)) <= 60)%Z.
Proof.
  pose proof (divmod1_bounds m) as (_ & Hlo & Hhi).
  set (fr := snd (Double.divmod1 m)) in *.
  destruct (RN_sixty (fr * 60)) as (H0 & H60 & _); [lra | lra |].
  split; [apply py_round_ge_Z | apply py_round_le_Z]; assumption.
Qed.

Lemma divmod1_nonneg (m : Q) :
  0 <= m -> snd (Double.divmod1 m) = m - inject_Z (Qfloor m).
Proof.
  intros Hm. unfold Double.divmod1. cbn [snd].
  destruct (Qle_bool 0 m) eqn:E; [reflexivity|].
  apply Qle_bool_iff in Hm. congruence.
Qed.

(** A number of whole minutes below [2 ^ 45] and 127/128 of a minute is a
    double, and is summarised with 60 seconds. *)
Lemma Double_calculate_wait_time_sixty (k : Z) :
  (0 <= k < 2 ^ 45)%Z ->
  Double.calculate_wait_time [inject_Z k + (127 # 128)] = Ok (k, 60%Z).
Proof.
  intros Hk.
  set (x := inject_Z k + (127 # 128)).
  assert (Hk0 : 0 <= inject_Z k) by (change 0 with (inject_Z 0); rewrite <- Zle_Qle; lia).
  assert (Hk1 : inject_Z k <= inject_Z (2 ^ 45 - 1)) by (rewrite <- Zle_Qle; lia).
  change (inject_Z (2 ^ 45 - 1)) with (35184372088831 # 1) in Hk1.
  set (y := sum_Q [x] / inject_Z (Z.of_nat (length [x]))).
  assert (Hy : y == x).
  { unfold y. cbn [sum_Q fold_right length]. change (inject_Z (Z.of_nat 1)) with 1.
    field. }
  assert (Hpos : 0 < y) by (rewrite Hy; unfold x; lra).
  assert (Hlt : y < 2 ^ 45).
  { rewrite Hy. unfold x. change (2 ^ 45) with (35184372088832 # 1). lra. }
  pose proof (ulp_exponent_le y 45 Hpos Hlt ltac:(lia)) as Hu.
  assert (Hgrid : y == inject_Z (128 * k + 127) * 2 ^ (-7)).
  { rewrite Hy. unfold x. rewrite inject_Z_plus, inject_Z_mult.
    change (2 ^ (-7)) with (1 # 128). change (inject_Z 128) with 128.
    change (inject_Z 127) with 127. field. }
  pose proof (RN_exact y _ (-7) Hpos ltac:(lia) Hgrid) as Hexact.
  set (m := Double.RN y) in *.
  assert (Hm : m == x) by (rewrite Hexact; exact Hy).
  rewrite (Double_calculate_wait_time_of_mean [x] m eq_refl).
  assert (Hm0 : 0 <= m) by (rewrite Hm; unfold x; lra).
  assert (Hf : Qfloor m = k).
  { rewrite (Qfloor_comp _ _ Hm).
    assert (Hlo : inject_Z k <= x) by (unfold x; lra).
    assert (Hhi : x < inject_Z (k + 1))
      by (unfold x; rewrite inject_Z_plus; change (inject_Z 1) with 1; lra).
    pose proof (Qfloor_bounds _ _ _ Hlo Hhi). lia. }
  rewrite (divmod1_nonneg m Hm0), Hf. f_equal. f_equal.
  set (s := (m - inject_Z k) * 60).
  assert (Hs : s == 1905 # 32) by (unfold s; rewrite Hm; unfold x; field).
  assert (Hs0 : 0 <= s) by (rewrite Hs; discriminate).
  assert (Hs1 : s <= 60) by (rewrite Hs; discriminate).
  assert (Hs2 : 119 # 2 <= s) by (rewrite Hs; discriminate).
  destruct (RN_sixty s Hs0 Hs1) as (_ & H60 & Hhalf). specialize (Hhalf Hs2).
  apply Z.le_antisymm.
  - apply py_round_le_Z. exact H60.
  - destruct (Qle_lt_or_eq _ _ H60) as [Hlt60|Heq60].
    + rewrite (py_round_upper_half _ 59); [lia | reflexivity | |].
      * change (inject_Z 59) with 59. lra.
      * change (inject_Z (59 + 1)) with 60. exact Hlt60.
    + rewrite (py_round_comp _ _ Heq60). vm_compute. discriminate.
Qed.

(** C9 (as amended): for a non-empty list of sojourn times,
    [statistics.mean] returns the double [m] nearest to their exact mean, and
    [calculate_wait_time] returns [floor m] for the minutes and between 0 and
    60 seconds; for [m] not below 0 the seconds are [round s], where [s] is
    the double nearest to [(m - floor m) * 60], and they are 60 as soon as
    the fractional part of [m] is at least 59.5/60; every output
    "k minutes and 60 seconds" with [k] from 0 and below [2 ^ 45] is produced
    by some list.  Every list of doubles is a list of rationals, so this
    covers every input of the code. *)
Theorem calculate_wait_time_minutes_seconds (l : list Q) :
  l <> [] ->
  let m := Double.RN (sum_Q l / inject_Z (Z.of_nat (length l))) in
  let fr := m - inject_Z (Qfloor m) in
  Double.mean l = Ok m /\
  (exists secs, Double.calculate_wait_time l = Ok (Qfloor m, secs) /\
                (0 <= secs <= 60)%Z) /\
  (0 <= m ->
   Double.calculate_wait_time l = Ok (Qfloor m, py_round (Double.RN (fr * 60))) /\
   (119 # 120 <= fr -> py_round (Double.RN (fr * 60)) = 60%Z)) /\
  (forall k : Z, (0 <= k < 2 ^ 45)%Z ->
     Double.calculate_wait_time [inject_Z k + (127 # 128)] = Ok (k, 60%Z)).
Proof.
  intros Hne m fr.
  assert (Hmean : Double.mean l = Ok m) by (destruct l; [congruence | reflexivity]).
  pose proof (Double_calculate_wait_time_of_mean l m Hmean) as Hcalc.
  split; [exact Hmean|]. split; [|split].
  - eexists. split; [exact Hcalc|]. apply Double_seconds_bounds.
  - intros Hm. rewrite (divmod1_nonneg m Hm) in Hcalc. fold fr in Hcalc.
    split; [exact Hcalc|]. intros Hfr.
    pose proof (frac_bounds m) as [Hfr0 Hfr1]. fold fr in Hfr0, Hfr1.
    destruct (RN_sixty (fr * 60)) as (_ & H60 & Hhalf); [lra | lra |].
    specialize (Hhalf ltac:(lra)).
    apply Z.le_antisymm.
    + apply py_round_le_Z. exact H60.
    + destruct (Qle_lt_or_eq _ _ H60) as [Hlt60|Heq60].
      * rewrite (py_round_upper_half _ 59); [lia | reflexivity | |].
        -- change (inject_Z 59) with 59. lra.
        -- change (inject_Z (59 + 1)) with 60. exact Hlt60.
      * rewrite (py_round_comp _ _ Heq60). vm_compute. discriminate.
  - exact Double_calculate_wait_time_sixty.
Qed.

Lemma calculate_wait_time_minutes_seconds_witness :
  Double.calculate_wait_time [5 # 2; 35 # 8] = Ok (3%Z, 26%Z) /\
  Double.calculate_wait_time [127 # 128] = Ok (0%Z, 60%Z).
Proof.
  split.
  - destruct (calculate_wait_time_minutes_seconds [5 # 2; 35 # 8]) as (_ & _ & H & _).
    + discriminate.
    + destruct H as [H _]; [vm_compute; discriminate|].
      rewrite H. vm_compute. reflexivity.
  - destruct (calculate_wait_time_minutes_seconds [127 # 128]) as (_ & _ & H & _).
    + discriminate.
    + destruct H as [H H60]; [vm_compute; discriminate|].
      rewrite H, H60; [vm_compute; reflexivity|].
      vm_compute. discriminate.
Defined.

(** C9 (as stated) fails: the seconds are rounded from the double nearest
    to the product, not from the product.  For the single time
    [0x1.7777777777777p-4], a double, the product is just below 5.5, the
    double nearest to it is 5.5, and the code returns 6 seconds where the
    formula gives 5.  The mean is rounded as well: the times [2 ^ 53] and 1
    have the mean [2 ^ 52 + 0.5], [statistics.mean] returns [2 ^ 52], and
    the code returns 0 seconds where the formula on the exact mean gives
    30. *)
Lemma calculate_wait_time_product_rounds :
  let x := 6605279453476727 # 72057594037927936 in
  let formula (m : Q) := (Qfloor m, py_round (60 * (m - inject_Z (Qfloor m)))) in
  (Double.RN x == x /\
   Double.mean [x] = Ok (Double.RN x) /\
   Double.calculate_wait_time [x] = Ok (0%Z, 6%Z) /\
   formula x = (0%Z, 5%Z)) /\
  (Double.calculate_wait_time [inject_Z (2 ^ 53); 1] = Ok ((2 ^ 52)%Z, 0%Z) /\
   formula (sum_Q [inject_Z (2 ^ 53); 1] / 2) = ((2 ^ 52)%Z, 30%Z)).
Proof.
  cbv zeta. repeat split; vm_compute; reflexivity.
Qed.

(** ** The claims about whole runs *)

(** C2: among a non-empty list of lanes [choose_dynamic_lane] returns the
    lane whose total load is least, the first such lane in case of a tie; the
    total load is the sum over the three resources of the length of the queue
    plus one when the resource is at capacity.  The program
    [multiple_queues_dynamic_selection_optimal.py] makes this choice when the
    passenger arrives, and the passenger then goes through the three stages
    on that lane: its history only names its own lane, and it only waits in
    the queues of that lane. *)
Theorem choose_dynamic_lane_least_loaded {R : RandomSource} (lanes0 : list lane_t) :
  (lanes0 <> [] ->
   exists ln i,
     choose_dynamic_lane lanes0 = (Some ln, Z.of_nat i) /\
     lanes0 !! i = Some ln /\
     (forall j ln', lanes0 !! j = Some ln' -> (total_load ln <= total_load ln')%nat) /\
     (forall j ln', (j < i)%nat -> lanes0 !! j = Some ln' ->
                    (total_load ln < total_load ln')%nat) /\
     (forall (nm : pname) (s : sim R),
         lanes s = lanes0 ->
         check_passenger R multiple_queues_dynamic_selection_optimal nm None s
         = request R (mkPassenger nm (now (env s)) i [Arrive (now (env s))])
                   officer s)) /\
  (forall ln,
      total_load ln
      = (effective_load (l_officer ln) + effective_load (l_baggage_screener ln)
         + effective_load (l_body_screener ln))%nat) /\
  (forall r,
      effective_load r
      = (length (waiters r) + if (capacity r <=? in_use r)%nat then 1 else 0)%nat) /\
  (forall fuel running_time num_lanes g (s : sim R) finished,
      run_airport R multiple_queues_dynamic_selection_optimal
                  fuel running_time num_lanes g = Ok (s, finished) ->
      Forall (fun c => history (entity c)
                       = full_history (entity c) (departure_time c))
             (completed s) /\
      Forall_waiters (fun l st p => lane p = l) (lanes s) /\
      Forall_pools (fun _ _ r =>
                      (capacity r <=? in_use r)%nat = (in_use r =? capacity r)%nat)
                   (lanes s)).
Proof.
  split; [|split; [|split]].
  - intros Hne.
    destruct (choose_dynamic_lane_spec lanes0 Hne) as (ln & i & Heq & Hi & Hmin & Hfirst).
    exists ln, i. repeat split; try assumption.
    intros nm s Hs. unfold check_passenger, select_lane. rewrite Hs, Heq.
    rewrite Nat2Z.id. reflexivity.
  - intros ln. reflexivity.
  - apply effective_load_cases.
  - intros fuel running_time num_lanes g s finished Hrun.
    pose proof (run_airport_history _ _ _ _ _ _ _ Hrun) as [_ Hw Hc _].
    pose proof (run_airport_pools _ _ _ _ _ _ _ Hrun) as Hp.
    split; [exact Hc|]. split.
    + eapply Forall_waiters_impl; [exact Hw|]. intros l st p [_ Hl]. exact Hl.
    + intros l ln st Hl. specialize (Hp l ln st Hl). cbv beta in Hp.
      destruct (Nat.leb_spec (capacity (lane_get ln st)) (in_use (lane_get ln st)));
        symmetry; [apply Nat.eqb_eq | apply Nat.eqb_neq]; lia.
Qed.

Lemma choose_dynamic_lane_least_loaded_witness :
  (exists ln i,
      choose_dynamic_lane (AirportSecurity multiple_queues_dynamic_selection_optimal 4)
      = (Some ln, Z.of_nat i) /\
      AirportSecurity multiple_queues_dynamic_selection_optimal 4 !! i = Some ln) /\
  run_airport cyclic_source multiple_queues_dynamic_selection_optimal 400 8 4
              fresh_globals = Ok (dynamic_run, true) /\
  length (completed dynamic_run) = 9%nat /\
  Forall (fun c => history (entity c) = full_history (entity c) (departure_time c))
         (completed dynamic_run).
Proof.
  destruct (@choose_dynamic_lane_least_loaded cyclic_source
              (AirportSecurity multiple_queues_dynamic_selection_optimal 4))
    as (Hchoose & _ & _ & Hrun).
  assert (Hrun' : run_airport cyclic_source multiple_queues_dynamic_selection_optimal
                              400 8 4 fresh_globals = Ok (dynamic_run, true))
    by (vm_compute; reflexivity).
  split; [|split; [exact Hrun' | split; [vm_compute; reflexivity|]]].
  - destruct Hchoose as (ln & i & Heq & Hi & _); [vm_compute; discriminate|].
    exists ln, i. split; assumption.
  - exact (proj1 (Hrun _ _ _ _ _ _ Hrun')).
Defined.

(** C4 (as amended): [wait_times] is a module-level list that [run_airport]
    only appends to: after a run it holds what it held before followed by the
    sojourn times of that run, so after two runs in a row it holds the
    records of both, and the summary is computed over all of them. *)
Theorem wait_times_accumulate {R : RandomSource} (v : variant)
    (fuel fuel' : nat) (running_time running_time' : Q) (num_lanes num_lanes' : nat)
    (g : globals R) (s1 s2 : sim R) (finished finished' : bool) :
  run_airport R v fuel running_time num_lanes g = Ok (s1, finished) ->
  run_airport R v fuel' running_time' num_lanes' (globals_of s1) = Ok (s2, finished') ->
  wait_times s1 = g_wait_times g ++ map sojourn_time (completed s1) /\
  wait_times s2 = g_wait_times g ++ map sojourn_time (completed s1)
                                 ++ map sojourn_time (completed s2) /\
  new_records (globals_of s1) s2 = map sojourn_time (completed s2) /\
  simulate_and_report R v fuel' running_time' num_lanes' (globals_of s1)
  = calculate_wait_time (wait_times s1 ++ new_records (globals_of s1) s2).
Proof.
  intros Hrun1 Hrun2.
  pose proof (run_airport_history _ _ _ _ _ _ _ Hrun1) as Hinv1.
  pose proof (run_airport_history _ _ _ _ _ _ _ Hrun2) as Hinv2.
  pose proof (hi_wait_times _ _ Hinv1) as H1.
  pose proof (hi_wait_times _ _ Hinv2) as H2. cbn [globals_of g_wait_times] in H2.
  pose proof (new_records_completed _ _ Hinv2) as Hnew.
  split; [exact H1|]. split; [|split].
  - rewrite H2, H1, <- app_assoc. reflexivity.
  - exact Hnew.
  - unfold simulate_and_report. rewrite Hrun2, Hnew.
    change (calculate_wait_time (wait_times s2)
            = calculate_wait_time (wait_times s1 ++ map sojourn_time (completed s2))).
    rewrite H2. reflexivity.
Qed.

Lemma wait_times_accumulate_witness :
  let s1 := central_run fresh_globals in
  let s2 := central_run (globals_of s1) in
  run_airport cyclic_source central_queue 200 5 4 fresh_globals = Ok (s1, true) /\
  run_airport cyclic_source central_queue 200 5 4 (globals_of s1) = Ok (s2, true) /\
  wait_times s2 = [] ++ map sojourn_time (completed s1) ++ map sojourn_time (completed s2).
Proof.
  intros s1 s2.
  assert (H1 : run_airport cyclic_source central_queue 200 5 4 fresh_globals
               = Ok (s1, true)) by (vm_compute; reflexivity).
  assert (H2 : run_airport cyclic_source central_queue 200 5 4 (globals_of s1)
               = Ok (s2, true)) by (vm_compute; reflexivity).
  split; [exact H1|]. split; [exact H2|].
  exact (proj1 (proj2 (wait_times_accumulate central_queue 200 200 5 5 4 4
                         fresh_globals s1 s2 true true H1 H2))).
Defined.

(** C4 (as stated) fails: after two runs of the central queue in a row the
    list the summary is computed from starts with the two records of the
    first run, and the summary, 3 minutes and 20 seconds, is not that of the
    records of the second run, 3 minutes and 16 seconds. *)
Lemma wait_times_carried_over :
  let s1 := central_run fresh_globals in
  let s2 := central_run (globals_of s1) in
  run_airport cyclic_source central_queue 200 5 4 fresh_globals = Ok (s1, true) /\
  run_airport cyclic_source central_queue 200 5 4 (globals_of s1) = Ok (s2, true) /\
  length (wait_times s1) = 2%nat /\
  take 2 (wait_times s2) = wait_times s1 /\
  wait_times s2 <> new_records (globals_of s1) s2 /\
  calculate_wait_time (wait_times s2) = Ok (3%Z, 20%Z) /\
  calculate_wait_time (new_records (globals_of s1) s2) = Ok (3%Z, 16%Z).
Proof.
  intros s1 s2.
  split; [vm_compute; reflexivity|]. split; [vm_compute; reflexivity|].
  split; [vm_compute; reflexivity|]. split; [vm_compute; reflexivity|].
  split; [|split; vm_compute; reflexivity].
  intros H. apply (f_equal length) in H. vm_compute in H. discriminate.
Qed.




(** C7: the sojourn time recorded for a passenger who went through the
    three stages is the clock at its departure minus the clock at the start
    of its process.  The arrival time is the clock at which the scheduler
    resumed the generator of the passenger for the first time, which it does
    once; the departure time is the clock at which it resumed the generator
    at the end of body screening; the history of the passenger opens with
    the one and closes with the other, and the departure is strictly later
    than the arrival.  The random source is assumed to sample service times
    within their bounds and non-negative interarrival gaps. *)
Theorem sojourn_time_departure_minus_arrival {R : RandomSource} (v : variant)
    (fuel : nat) (running_time : Q) (num_lanes : nat) (g : globals R)
    (s : sim R) (finished : bool) :
  uniform_in_range R ->
  expovariate_nonnegative R ->
  run_airport R v fuel running_time num_lanes g = Ok (s, finished) ->
  let tr := run_trace v fuel running_time num_lanes g in
  wait_times s
  = g_wait_times g
    ++ map (fun c => departure_time c - arrival_time (entity c)) (completed s) /\
  Forall (fun c =>
            arrival_time (entity c) < departure_time c /\
            head (history (entity c)) = Some (Arrive (arrival_time (entity c))) /\
            last (history (entity c)) = Some (Depart (departure_time c)) /\
            (exists assigned_lane,
                (arrival_time (entity c),
                 k_check_passenger (name (entity c)) assigned_lane) ∈ tr) /\
            (exists p, name p = name (entity c) /\
                       (departure_time c, k_served p body_screener) ∈ tr))
         (completed s) /\
  (forall nm t t' assigned_lane assigned_lane',
      (t, k_check_passenger nm assigned_lane) ∈ tr ->
      (t', k_check_passenger nm assigned_lane') ∈ tr ->
      t = t' /\ assigned_lane = assigned_lane').
Proof.
  intros Huniform Hexpo Hrun tr.
  pose proof (run_airport_history _ _ _ _ _ _ _ Hrun) as [_ _ Hc Hwt].
  pose proof (run_airport_timing v Huniform Hexpo _ _ _ _ _ _ Hrun) as [_ _ _ Ht].
  pose proof (run_airport_trace _ _ _ _ _ _ _ Hrun) as [_ _ Htr]. fold tr in Htr.
  split; [exact Hwt|]. split.
  - apply Forall_forall. intros c Hin.
    rewrite Forall_forall in Hc, Ht, Htr.
    specialize (Hc c Hin). specialize (Ht c Hin). specialize (Htr c Hin).
    unfold completion_history_ok in Hc. destruct Htr as [Hstart Hend].
    split; [exact Ht|]. rewrite Hc.
    split; [reflexivity|]. split; [reflexivity|]. split; [exact Hstart | exact Hend].
  - intros nm. apply starts_once.
    apply (run_airport_starts v fuel running_time num_lanes g s finished nm Hrun).
Qed.

(** A run of the dynamic-selection program on the cyclic source: the eight
    initial passengers arrive at 0, [Passenger 3] arrives at 4 and leaves at
    59/8, and [wait_times] closes with 27/8. *)
Lemma sojourn_time_departure_minus_arrival_witness :
  let s := dynamic_run in
  let tr := run_trace multiple_queues_dynamic_selection_optimal 400 8 4 fresh_globals in
  run_airport cyclic_source multiple_queues_dynamic_selection_optimal 400 8 4
              fresh_globals = Ok (s, true) /\
  map (fun c => (name (entity c), Qred (arrival_time (entity c)),
                 Qred (departure_time c)))
      (completed s)
  = [(InitialPassengerLane 1 1, 0, 127 # 40); (InitialPassengerLane 3 1, 0, 29 # 8);
     (InitialPassengerLane 2 1, 0, 151 # 40); (InitialPassengerLane 4 1, 0, 169 # 40);
     (InitialPassengerLane 3 2, 0, 45 # 8); (InitialPassengerLane 1 2, 0, 227 # 40);
     (InitialPassengerLane 4 2, 0, 239 # 40); (InitialPassengerLane 2 2, 0, 261 # 40);
     (Passenger 3, 4, 59 # 8)] /\
  map Qred (wait_times s)
  = [127 # 40; 29 # 8; 151 # 40; 169 # 40; 45 # 8; 227 # 40; 239 # 40; 261 # 40;
     27 # 8] /\
  wait_times s
  = [] ++ map (fun c => departure_time c - arrival_time (entity c)) (completed s) /\
  Forall (fun c =>
            arrival_time (entity c) < departure_time c /\
            (exists assigned_lane,
                (arrival_time (entity c),
                 k_check_passenger (name (entity c)) assigned_lane) ∈ tr) /\
            (exists p, name p = name (entity c) /\
                       (departure_time c, k_served p body_screener) ∈ tr))
         (completed s).
Proof.
  intros s tr.
  assert (Hrun : run_airport cyclic_source multiple_queues_dynamic_selection_optimal
                             400 8 4 fresh_globals = Ok (s, true))
    by (vm_compute; reflexivity).
  destruct (sojourn_time_departure_minus_arrival
              multiple_queues_dynamic_selection_optimal 400 8 4
              fresh_globals s true cyclic_source_uniform cyclic_source_expovariate Hrun)
    as (Hwt & Hc & _).
  split; [exact Hrun|]. split; [vm_compute; reflexivity|].
  split; [vm_compute; reflexivity|]. split; [exact Hwt|].
  eapply Forall_impl; [exact Hc|]. intros c (H1 & _ & _ & H2 & H3).
  split; [exact H1|]. split; [exact H2 | exact H3].
Defined.



(** * Properties beyond the claims *)

(** ** The summary *)

(** X1: the minutes and seconds [calculate_wait_time] returns give the mean
    that [statistics.mean] returned back to within half a second and
    [2 ^ -47] of a second: the half second of [round], and the roundings of
    the fractional part and of its product with 60. *)
Theorem calculate_wait_time_accuracy (l : list Q) (mins secs : Z) :
  Double.calculate_wait_time l = Ok (mins, secs) ->
  exists m, Double.mean l = Ok m /\
            - ((1 # 2) + 2 ^ (-47)) <= 60 * m - inject_Z (60 * mins + secs) /\
            60 * m - inject_Z (60 * mins + secs) <= (1 # 2) + 2 ^ (-47).
Proof.
  intros Hcalc. destruct (Double.mean l) as [m|e] eqn:Hmean.
  - exists m. split; [reflexivity|].
    rewrite (Double_calculate_wait_time_of_mean l m Hmean) in Hcalc.
    injection Hcalc as Hmins Hsecs.
    change (py_round (Double.RN (snd (Double.divmod1 m) * 60)) = secs) in Hsecs.
    pose proof (divmod1_bounds m) as (_ & Hfr0 & Hfr1).
    assert (Hfr : - (1 # 2 ^ 54) <= snd (Double.divmod1 m) - (m - inject_Z (Qfloor m)) /\
                  snd (Double.divmod1 m) - (m - inject_Z (Qfloor m)) <= 1 # 2 ^ 54).
    { pose proof (frac_bounds m) as [Hlo Hhi].
      unfold Double.divmod1. cbn [snd]. destruct (Qle_bool 0 m).
      - change (1 # 2 ^ 54) with (1 # 18014398509481984). split; lra.
      - apply RN_error_1; assumption. }
    set (fr := snd (Double.divmod1 m)) in *.
    destruct (RN_error_64 (fr * 60)) as [Hr0 Hr1]; [lra | lra |].
    pose proof (py_round_near (Double.RN (fr * 60))) as [Hlo Hhi].
    subst mins secs. fold fr.
    rewrite inject_Z_plus, inject_Z_mult. change (inject_Z 60) with 60.
    change (2 ^ (-47)) with (1 # 140737488355328).
    change (1 # 2 ^ 54) with (1 # 18014398509481984) in Hfr.
    change (1 # 2 ^ 48) with (1 # 281474976710656) in Hr0, Hr1.
    destruct Hfr as [Hf0 Hf1].
    set (r := Double.RN (fr * 60)) in *.
    set (s := inject_Z (py_round r)) in *. set (f := inject_Z (Qfloor m)) in *.
    clearbody s f r fr. split; lra.
  - unfold Double.calculate_wait_time in Hcalc. rewrite Hmean in Hcalc. discriminate.
Qed.

Lemma calculate_wait_time_accuracy_witness :
  exists m, Double.mean [6605279453476727 # 72057594037927936] = Ok m /\
            - ((1 # 2) + 2 ^ (-47)) <= 60 * m - inject_Z (60 * 0 + 6) /\
            60 * m - inject_Z (60 * 0 + 6) <= (1 # 2) + 2 ^ (-47).
Proof.
  apply (calculate_wait_time_accuracy [6605279453476727 # 72057594037927936] 0 6).
  vm_compute. reflexivity.
Defined.

Lemma sum_Q_Permutation (l l' : list Q) : l ≡ₚ l' -> sum_Q l == sum_Q l'.
Proof.
  induction 1 as [|x l l' _ IH|x y l|l l' l'' _ IH1 _ IH2]; cbn.
  - reflexivity.
  - rewrite IH. reflexivity.
  - ring.
  - rewrite IH1. exact IH2.
Qed.

(** X2: the summary does not depend on the order in which the passengers
    finished: lists that are permutations of one another give the same
    minutes and seconds, or both raise. *)
Theorem calculate_wait_time_Permutation (l l' : list Q) :
  l ≡ₚ l' -> calculate_wait_time l = calculate_wait_time l'.
Proof.
  intros Hperm.
  pose proof (Permutation_length Hperm) as Hlen.
  pose proof (sum_Q_Permutation l l' Hperm) as Hsum.
  destruct l as [|x l], l' as [|x' l']; try discriminate; [reflexivity|].
  set (m := sum_Q (x :: l) / inject_Z (Z.of_nat (length (x :: l)))).
  set (m' := sum_Q (x' :: l') / inject_Z (Z.of_nat (length (x' :: l')))).
  assert (Hm : m == m') by (unfold m, m'; rewrite Hsum, Hlen; reflexivity).
  rewrite (calculate_wait_time_of_mean (x :: l) m eq_refl),
          (calculate_wait_time_of_mean (x' :: l') m' eq_refl).
  rewrite (Qfloor_comp _ _ Hm). f_equal. f_equal.
  apply py_round_comp. rewrite Hm. reflexivity.
Qed.

Lemma calculate_wait_time_Permutation_witness :
  calculate_wait_time [29 # 10; 157 # 40] = calculate_wait_time [157 # 40; 29 # 10].
Proof.
  apply calculate_wait_time_Permutation. apply perm_swap.
Defined.

Lemma sum_Q_bounds (a b : Q) (l : list Q) :
  Forall (fun x => a <= x /\ x <= b) l ->
  inject_Z (Z.of_nat (length l)) * a <= sum_Q l /\
  sum_Q l <= inject_Z (Z.of_nat (length l)) * b.
Proof.
  induction 1 as [|x l [Hax Hxb] _ IH].
  - change (inject_Z (Z.of_nat (length (@nil Q)))) with 0.
    change (sum_Q []) with 0. split; lra.
  - cbn [length sum_Q fold_right]. fold (sum_Q l).
    rewrite Nat2Z.inj_succ. unfold Z.succ. rewrite inject_Z_plus.
    change (inject_Z 1) with 1.
    set (n := inject_Z (Z.of_nat (length l))) in *.
    assert (Ha : (n + 1) * a == n * a + a) by ring.
    assert (Hb : (n + 1) * b == n * b + b) by ring.
    rewrite Ha, Hb. destruct IH as [IHa IHb]. split; lra.
Qed.

Lemma mean_bounds (a b m : Q) (l : list Q) :
  Forall (fun x => a <= x /\ x <= b) l ->
  mean l = Ok m ->
  a <= m /\ m <= b.
Proof.
  intros Hall Hmean. destruct l as [|x l]; [discriminate|].
  injection Hmean as <-.
  pose proof (sum_Q_bounds a b _ Hall) as [Hlo Hhi].
  set (n := inject_Z (Z.of_nat (length (x :: l)))) in *.
  assert (Hn : 0 < n).
  { unfold n. change 0 with (inject_Z 0). rewrite <- Zlt_Qlt. cbn [length]. lia. }
  split.
  - apply Qle_shift_div_l; [exact Hn|]. rewrite Qmult_comm. exact Hlo.
  - apply Qle_shift_div_r; [exact Hn|]. rewrite Qmult_comm. exact Hhi.
Qed.

(** ** Equally loaded lanes *)

(** X3: when all the lanes carry the same load, in particular when the
    checkpoint is empty, [choose_dynamic_lane] returns the first lane. *)
Theorem choose_dynamic_lane_equal_loads (ln0 : lane_t) (lanes : list lane_t) :
  (forall ln, ln ∈ ln0 :: lanes -> total_load ln = total_load ln0) ->
  choose_dynamic_lane (ln0 :: lanes) = (Some ln0, 0%Z).
Proof.
  intros Hequal.
  destruct (choose_dynamic_lane_spec (ln0 :: lanes)) as (ln & i & Heq & Hi & _ & Hfirst);
    [discriminate|].
  destruct i as [|i].
  - cbn in Hi. injection Hi as <-. exact Heq.
  - specialize (Hfirst 0%nat ln0 ltac:(lia) eq_refl).
    rewrite (Hequal ln) in Hfirst; [lia|].
    apply list_elem_of_lookup. exists (S i). exact Hi.
Qed.

Lemma choose_dynamic_lane_equal_loads_witness :
  choose_dynamic_lane (AirportSecurity multiple_queues_dynamic_selection_optimal 4)
  = (Some (mkLane (new_pool 1) (new_pool 1) (new_pool 1)), 0%Z).
Proof.
  apply (choose_dynamic_lane_equal_loads
           (mkLane (new_pool 1) (new_pool 1) (new_pool 1))
           (replicate 3 (mkLane (new_pool 1) (new_pool 1) (new_pool 1)))).
  intros ln Hin. apply list_elem_of_In in Hin. cbn in Hin.
  repeat (destruct Hin as [<-|Hin]; [reflexivity|]). contradiction.
Defined.

(** ** The pools during a run *)

Lemma acquire_pool_ok (c : nat) (w : passenger) (r r' : ResourcePool passenger)
    (granted : bool) :
  pool_ok c r -> acquire w r = (granted, r') -> pool_ok c r'.
Proof.
  intros (Hc & Hle & Hfull). unfold acquire.
  destruct (_ <? _)%nat eqn:E; intros H; injection H as <- <-;
    split; cbn; try exact Hc; split.
  - apply Nat.ltb_lt in E. lia.
  - intros Hw. apply Nat.ltb_lt in E. specialize (Hfull Hw). lia.
  - exact Hle.
  - intros _. apply Nat.ltb_ge in E. lia.
Qed.

Lemma release_pool_ok (c : nat) (r r' : ResourcePool passenger)
    (w : option passenger) :
  pool_ok c r -> release r = Ok (w, r') -> pool_ok c r'.
Proof.
  intros (Hc & Hle & Hfull). unfold release.
  destruct (in_use r) as [|n] eqn:Hn; [discriminate|].
  destruct (waiters r) as [|w0 ws] eqn:Hw; intros H; injection H as <- <-;
    split; cbn; try exact Hc; split.
  - lia.
  - intros Hne. congruence.
  - exact Hle.
  - intros _. apply Hfull. discriminate.
Qed.

Section PoolPredicate.
Context {R : RandomSource} (v : variant).
Context (P : nat -> stage -> ResourcePool passenger -> Prop).
Hypothesis P_acquire :
  forall l st w r granted r', P l st r -> acquire w r = (granted, r') -> P l st r'.
Hypothesis P_release :
  forall l st r w r', P l st r -> release r = Ok (w, r') -> P l st r'.

Lemma pp_request (p : passenger) (st : stage) (s s' : sim R) :
  Forall_pools P (lanes s) -> request R p st s = Ok s' -> Forall_pools P (lanes s').
Proof.
  intros Hinv. unfold request.
  destruct (lanes s !! lane p) as [ln|] eqn:Hl; [|discriminate].
  destruct (acquire _ _) as [[] r] eqn:Hacq;
    (intros H; injection H as <-);
    apply P_acquire with (l := lane p) (st := st) in Hacq;
    try apply (Hinv _ _ _ Hl).
  - rewrite lanes_serve. apply Forall_pools_insert; assumption.
  - apply Forall_pools_insert; assumption.
Qed.

Lemma pp_release_stage (p : passenger) (st : stage) (s s' : sim R) :
  Forall_pools P (lanes s) -> release_stage R p st s = Ok s' ->
  Forall_pools P (lanes s').
Proof.
  intros Hinv. unfold release_stage.
  destruct (lanes s !! lane p) as [ln|] eqn:Hl; [|discriminate].
  destruct (release _) as [[w r]|e] eqn:Hrel; [|discriminate].
  cbn. intros H. injection H as <-.
  apply P_release with (l := lane p) (st := st) in Hrel; [|apply (Hinv _ _ _ Hl)].
  destruct w; apply Forall_pools_insert; assumption.
Qed.

Lemma pp_resume (k : cont) (s s' : sim R) :
  Forall_pools P (lanes s) -> resume R v k s = Ok s' -> Forall_pools P (lanes s').
Proof.
  intros Hinv. destruct k as [nm al|p st|p st| |i];
    cbn [resume]; unfold check_passenger, check_passenger_served.
  - destruct (select_lane R v al s) as [[l s1]|e] eqn:Hsel; [|discriminate].
    cbn. apply pp_request. rewrite (lanes_select_lane _ _ _ _ _ Hsel). exact Hinv.
  - intros H; injection H as <-. rewrite lanes_serve. exact Hinv.
  - destruct (release_stage R p st s) as [s1|e] eqn:Hrel; [|discriminate].
    cbn. apply pp_release_stage in Hrel; [|assumption].
    destruct (next_stage st) as [st'|].
    + apply pp_request. exact Hrel.
    + intros H; injection H as <-. exact Hrel.
  - intros H; injection H as <-. rewrite lanes_passenger_arrivals. exact Hinv.
  - intros H; injection H as <-. rewrite lanes_passenger_arrivals. exact Hinv.
Qed.

Lemma pp_env_steps (fuel : nat) (running_time : Q) :
  forall (s s' : sim R) (finished : bool),
    Forall_pools P (lanes s) ->
    env_steps R v fuel running_time s = Ok (s', finished) ->
    Forall_pools P (lanes s').
Proof.
  induction fuel as [|fuel IH]; intros s s' finished Hinv; cbn [env_steps].
  - intros H; injection H as <- _. exact Hinv.
  - destruct (next_event running_time (env s)) as [[k e]|].
    + destruct (resume R v _ _) as [s1|err] eqn:Hres; [|discriminate].
      cbn. apply IH. eapply pp_resume; [|exact Hres]. exact Hinv.
    + intros H; injection H as <- _. exact Hinv.
Qed.

Lemma lanes_setup (num_lanes : nat) (g : globals R) :
  lanes (setup R v num_lanes g) = AirportSecurity v num_lanes.
Proof.
  unfold setup. cbn [lanes env_process set_env].
  set (s0 := mkSim _ _ _ _ _).
  assert (H0 : lanes s0 = AirportSecurity v num_lanes) by reflexivity.
  clearbody s0. revert s0 H0.
  induction (initial_passengers v num_lanes) as [|k ks IH]; intros s0 H0; cbn.
  - exact H0.
  - apply IH. exact H0.
Qed.

Lemma pp_run_airport (fuel : nat) (running_time : Q) (num_lanes : nat)
    (g : globals R) (s : sim R) (finished : bool) :
  Forall_pools P (AirportSecurity v num_lanes) ->
  run_airport R v fuel running_time num_lanes g = Ok (s, finished) ->
  Forall_pools P (lanes s).
Proof.
  intros H0 Hrun. apply run_airport_steps in Hrun as [_ Hrun]. revert Hrun.
  apply pp_env_steps. rewrite lanes_setup. exact H0.
Qed.
End PoolPredicate.

Lemma AirportSecurity_pool_ok (v : variant) (num_lanes : nat) :
  Forall_pools (fun _ st r => pool_ok (stage_capacity v st) r)
               (AirportSecurity v num_lanes).
Proof.
  intros l ln st Hl.
  assert (Hnew : lane_get ln st = new_pool (stage_capacity v st)).
  { destruct v; cbn in Hl.
    - apply list_lookup_singleton_Some in Hl as [_ <-]. destruct st; reflexivity.
    - apply lookup_replicate in Hl as [-> _]. destruct st; reflexivity.
    - apply lookup_replicate in Hl as [-> _]. destruct st; reflexivity. }
  rewrite Hnew. split; [reflexivity|]. split; cbn; [lia | congruence].
Qed.

Lemma run_airport_pool_ok {R : RandomSource} (v : variant) (fuel : nat)
    (running_time : Q) (num_lanes : nat) (g : globals R) (s : sim R)
    (finished : bool) :
  run_airport R v fuel running_time num_lanes g = Ok (s, finished) ->
  Forall_pools (fun _ st r => pool_ok (stage_capacity v st) r) (lanes s).
Proof.
  apply (pp_run_airport v (fun _ st r => pool_ok (stage_capacity v st) r)).
  - intros _ st w r granted r'. apply acquire_pool_ok.
  - intros _ st r w r'. apply release_pool_ok.
  - apply AirportSecurity_pool_ok.
Qed.

(** X4: at every moment of a run each resource has the capacity it was
    created with, has no more slots in use than that, and has passengers
    waiting only when all its slots are in use. *)
Theorem run_airport_pools_ok {R : RandomSource} (v : variant) (fuel : nat)
    (running_time : Q) (num_lanes : nat) (g : globals R) (s : sim R)
    (finished : bool) :
  run_airport R v fuel running_time num_lanes g = Ok (s, finished) ->
  forall l ln st,
    lanes s !! l = Some ln ->
    capacity (lane_get ln st) = stage_capacity v st /\
    (in_use (lane_get ln st) <= capacity (lane_get ln st))%nat /\
    (waiters (lane_get ln st) <> [] ->
     in_use (lane_get ln st) = capacity (lane_get ln st)).
Proof.
  intros Hrun l ln st Hl.
  apply (run_airport_pool_ok v fuel running_time num_lanes g s finished Hrun l ln st Hl).
Qed.

Lemma run_airport_pools_ok_witness :
  exists ln,
    lanes (central_run fresh_globals) !! 0%nat = Some ln /\
    capacity (lane_get ln baggage_screener)
    = stage_capacity central_queue baggage_screener /\
    (in_use (lane_get ln baggage_screener)
     <= capacity (lane_get ln baggage_screener))%nat /\
    (waiters (lane_get ln baggage_screener) <> [] ->
     in_use (lane_get ln baggage_screener) = capacity (lane_get ln baggage_screener)).
Proof.
  destruct (lanes (central_run fresh_globals) !! 0%nat) as [ln|] eqn:Hl;
    [|vm_compute in Hl; discriminate].
  exists ln. split; [reflexivity|].
  apply (run_airport_pools_ok central_queue 200 5 4 fresh_globals
           (central_run fresh_globals) true) with (l := 0%nat); [|exact Hl].
  vm_compute. reflexivity.
Defined.

(** X5: the slots in use of a resource are exactly those of the passengers
    who hold one (their request was granted and they have not yet left the
    stage), so never more passengers are in a stage of a lane than the stage
    has capacity. *)
Theorem run_airport_occupancy {R : RandomSource} (v : variant) (fuel : nat)
    (running_time : Q) (num_lanes : nat) (g : globals R) (s : sim R)
    (finished : bool) :
  randbelow_in_range R ->
  v = central_queue \/ (0 < num_lanes)%nat ->
  run_airport R v fuel running_time num_lanes g = Ok (s, finished) ->
  forall l ln st,
    lanes s !! l = Some ln ->
    holders l st (pending (env s)) = in_use (lane_get ln st) /\
    (holders l st (pending (env s)) <= stage_capacity v st)%nat.
Proof.
  intros Hrandbelow Hv Hrun l ln st Hl.
  destruct (run_airport_steps _ _ _ _ _ _ Hrun) as [HT _].
  destruct (run_airport_safe v Hrandbelow fuel running_time num_lanes g Hv HT)
    as (s' & finished' & Hrun' & Hsafe).
  rewrite Hrun in Hrun'. injection Hrun' as <- _.
  pose proof (si_holders _ _ Hsafe l ln st Hl) as Hh. cbn in Hh.
  destruct (run_airport_pool_ok v fuel running_time num_lanes g s finished Hrun
              l ln st Hl) as (Hc & Hle & _).
  split; [symmetry; exact Hh|]. rewrite <- Hc, <- Hh. exact Hle.
Qed.

Lemma run_airport_occupancy_witness :
  exists ln,
    lanes dynamic_run !! 0%nat = Some ln /\
    holders 0 baggage_screener (pending (env dynamic_run))
    = in_use (lane_get ln baggage_screener) /\
    (holders 0 baggage_screener (pending (env dynamic_run))
     <= stage_capacity multiple_queues_dynamic_selection_optimal baggage_screener)%nat.
Proof.
  destruct (lanes dynamic_run !! 0%nat) as [ln|] eqn:Hl;
    [|vm_compute in Hl; discriminate].
  exists ln. split; [reflexivity|].
  apply (run_airport_occupancy multiple_queues_dynamic_selection_optimal
           400 8 4 fresh_globals dynamic_run true); [| | |exact Hl].
  - exact cyclic_source_randbelow.
  - right. lia.
  - vm_compute. reflexivity.
Defined.

(** ** What the load of a lane counts *)

Lemma in_lane_app (l : nat) (ps qs : list passenger) :
  in_lane l (ps ++ qs) = (in_lane l ps + in_lane l qs)%nat.
Proof. unfold in_lane. rewrite List.filter_app, length_app. reflexivity. Qed.

Lemma in_lane_all (l : nat) (ps : list passenger) :
  Forall (fun p => lane p = l) ps -> in_lane l ps = length ps.
Proof.
  unfold in_lane. induction 1 as [|p ps Hp _ IH]; cbn; [reflexivity|].
  rewrite (proj2 (Nat.eqb_eq _ _) Hp). cbn. rewrite IH. reflexivity.
Qed.

Lemma in_lane_none (l : nat) (ps : list passenger) :
  Forall (fun p => lane p <> l) ps -> in_lane l ps = 0%nat.
Proof.
  unfold in_lane. induction 1 as [|p ps Hp _ IH]; cbn; [reflexivity|].
  rewrite (proj2 (Nat.eqb_neq _ _) Hp). exact IH.
Qed.

Lemma in_lane_cont_passenger (l : nat) (k : cont) :
  in_lane l (cont_passenger k)
  = (holding (held k) l officer + holding (held k) l baggage_screener
     + holding (held k) l body_screener)%nat.
Proof.
  destruct k as [nm al|p st|p st| |i]; try reflexivity;
    unfold in_lane; cbn; destruct (Nat.eqb_spec (lane p) l) as [Hl|Hl];
    destruct st; repeat case_bool_decide; cbn; try lia;
    try (exfalso; intuition congruence).
Qed.

Lemma in_lane_pending (l : nat) (q : list (Event cont)) :
  in_lane l (flat_map (fun e => cont_passenger (continuation e)) q)
  = (holders l officer q + holders l baggage_screener q
     + holders l body_screener q)%nat.
Proof.
  induction q as [|e q IH]; [reflexivity|].
  cbn [flat_map holders]. rewrite in_lane_app, in_lane_cont_passenger, IH. lia.
Qed.

Lemma in_lane_lane_waiters (l : nat) (ln : lane_t) (P : passenger -> Prop) :
  (forall st, Forall P (waiters (lane_get ln st))) -> Forall P (lane_waiters ln).
Proof.
  intros H. unfold lane_waiters, stages. cbn [flat_map].
  rewrite !Forall_app. repeat split; try apply H. constructor.
Qed.

Lemma in_lane_waiters_other (t : nat) (lanes : list lane_t) :
  (forall i ln st, lanes !! i = Some ln ->
                   Forall (fun p => lane p <> t) (waiters (lane_get ln st))) ->
  in_lane t (flat_map lane_waiters lanes) = 0%nat.
Proof.
  induction lanes as [|x lanes IH]; intros H; [reflexivity|].
  cbn [flat_map]. rewrite in_lane_app, IH.
  - rewrite in_lane_none; [reflexivity|].
    apply (in_lane_lane_waiters t). intros st. apply (H 0%nat x st eq_refl).
  - intros i ln st Hl. apply (H (S i) ln st Hl).
Qed.

Lemma in_lane_waiters (lanes : list lane_t) :
  forall o,
    (forall i ln st, lanes !! i = Some ln ->
                     Forall (fun p => lane p = (o + i)%nat) (waiters (lane_get ln st))) ->
    forall i ln, lanes !! i = Some ln ->
                 in_lane (o + i) (flat_map lane_waiters lanes) = length (lane_waiters ln).
Proof.
  induction lanes as [|x lanes IH]; intros o H i ln Hl; [discriminate|].
  cbn [flat_map]. rewrite in_lane_app. destruct i as [|i].
  - injection Hl as <-.
    rewrite in_lane_all by (apply (in_lane_lane_waiters o); intros st;
                            apply (H 0%nat x st eq_refl)).
    rewrite in_lane_waiters_other; [lia|].
    intros j ln' st Hj. eapply Forall_impl; [apply (H (S j) ln' st Hj)|].
    cbn. intros p Hp. lia.
  - change ((x :: lanes) !! S i) with (lanes !! i) in Hl.
    rewrite in_lane_none.
    + replace (o + S i)%nat with (S o + i)%nat by lia.
      apply (IH (S o)); [|exact Hl].
      intros j ln' st Hj. eapply Forall_impl; [apply (H (S j) ln' st Hj)|].
      cbn. intros p Hp. lia.
    + apply (in_lane_lane_waiters o). intros st.
      eapply Forall_impl; [apply (H 0%nat x st eq_refl)|]. cbn. intros p Hp. lia.
Qed.

Lemma length_lane_waiters (ln : lane_t) :
  length (lane_waiters ln)
  = (length (waiters (lane_get ln officer))
     + length (waiters (lane_get ln baggage_screener))
     + length (waiters (lane_get ln body_screener)))%nat.
Proof.
  unfold lane_waiters, stages. cbn [flat_map]. rewrite !length_app. cbn. lia.
Qed.

Lemma effective_load_capacity_one (r : ResourcePool passenger) :
  pool_ok 1 r -> effective_load r = (length (waiters r) + in_use r)%nat.
Proof.
  intros (Hc & Hle & _). rewrite effective_load_cases, Hc in *.
  destruct (in_use r) as [|[|n]]; cbn; lia.
Qed.

(** X6: in the programs with lanes, the load [choose_dynamic_lane] computes
    for a lane is the number of passengers in that lane, waiting for one of
    its resources or holding it: the least loaded lane is the one with the
    fewest passengers. *)
Theorem total_load_counts_passengers {R : RandomSource} (v : variant)
    (fuel : nat) (running_time : Q) (num_lanes : nat) (g : globals R)
    (s : sim R) (finished : bool) :
  v <> central_queue ->
  randbelow_in_range R ->
  (0 < num_lanes)%nat ->
  run_airport R v fuel running_time num_lanes g = Ok (s, finished) ->
  forall l ln,
    lanes s !! l = Some ln ->
    total_load ln = in_lane l (live_passengers s).
Proof.
  intros Hv Hrandbelow Hn Hrun l ln Hl.
  destruct (run_airport_steps _ _ _ _ _ _ Hrun) as [HT _].
  destruct (run_airport_safe v Hrandbelow fuel running_time num_lanes g (or_intror Hn) HT)
    as (s' & finished' & Hrun' & Hsafe).
  rewrite Hrun in Hrun'. injection Hrun' as <- _.
  pose proof (run_airport_pool_ok v fuel running_time num_lanes g s finished Hrun)
    as Hpools.
  assert (Hone : forall st, stage_capacity v st = 1%nat)
    by (intros st; destruct v; [congruence|reflexivity..]).
  assert (Hload : forall st,
             effective_load (lane_get ln st)
             = (length (waiters (lane_get ln st))
                + holders l st (pending (env s)))%nat).
  { intros st. pose proof (Hpools l ln st Hl) as Hok. cbv beta in Hok.
    rewrite Hone in Hok. rewrite (effective_load_capacity_one _ Hok).
    pose proof (si_holders _ _ Hsafe l ln st Hl) as Hh. cbn in Hh.
    rewrite Hh. reflexivity. }
  rewrite total_load_sum, !Hload.
  unfold live_passengers. rewrite in_lane_app, in_lane_pending.
  pose proof (in_lane_waiters (lanes s) 0
                (fun i ln' st Hi => si_waiters _ _ Hsafe i ln' st Hi) l ln Hl) as Hw.
  cbn [Nat.add] in Hw. rewrite Hw, length_lane_waiters. lia.
Qed.

Lemma total_load_counts_passengers_witness :
  exists ln,
    lanes dynamic_run !! 0%nat = Some ln /\
    total_load ln = in_lane 0 (live_passengers dynamic_run).
Proof.
  destruct (lanes dynamic_run !! 0%nat) as [ln|] eqn:Hl;
    [|vm_compute in Hl; discriminate].
  exists ln. split; [reflexivity|].
  apply (total_load_counts_passengers multiple_queues_dynamic_selection_optimal
           400 8 4 fresh_globals dynamic_run true); [| | | |exact Hl].
  - discriminate.
  - exact cyclic_source_randbelow.
  - lia.
  - vm_compute. reflexivity.
Defined.

(** ** How long a passenger takes *)

Lemma time_before_next (st st' : stage) :
  next_stage st = Some st' -> time_before st' == time_through st.
Proof.
  destruct st; intros H; cbn in H; try discriminate;
    injection H as <-; vm_compute; reflexivity.
Qed.

Lemma time_through_body : time_through body_screener == 14 # 5.
Proof. vm_compute. reflexivity. Qed.

Section BoundsInvariant.
Context {R : RandomSource} (v : variant) (running_time : Q).
Hypothesis uniform_ok : uniform_in_range R.
Hypothesis expovariate_ok : expovariate_nonnegative R.

Lemma bi_timeout (d : Q) (k : cont) (s : sim R) :
  bounds_invariant running_time s ->
  cont_bounds_ok (now (env s) + d) k ->
  bounds_invariant running_time (env_timeout R d k s).
Proof.
  intros [Hn He Hw Hc] Hk. split; cbn; try assumption.
  apply Forall_enqueue. split; assumption.
Qed.

Lemma bi_set_rng (g : rng_state R) (s : sim R) :
  bounds_invariant running_time s -> bounds_invariant running_time (set_rng R g s).
Proof. intros [Hn He Hw Hc]. split; assumption. Qed.

Lemma bi_set_pool (l : nat) (st : stage) (ln : lane_t)
    (r : ResourcePool passenger) (s : sim R) :
  bounds_invariant running_time s ->
  lanes s !! l = Some ln ->
  Forall (waiter_bounds_ok (now (env s)) st) (waiters r) ->
  bounds_invariant running_time (set_pool R l st ln r s).
Proof.
  intros [Hn He Hw Hc] Hl Hr. split; cbn; try assumption.
  apply (Forall_waiters_insert (fun _ st p => waiter_bounds_ok (now (env s)) st p));
    assumption.
Qed.

Lemma bi_serve (p : passenger) (st : stage) (s : sim R) :
  bounds_invariant running_time s ->
  waiter_bounds_ok (now (env s)) st p ->
  bounds_invariant running_time (serve R p st s).
Proof.
  intros Hinv [Hp0 Hp]. unfold serve. unfold time_through.
  pose proof (service_bounds_positive st) as [Hpos Hle].
  assert (Hthrough : time_through st == time_before st + fst (service_bounds st))
    by reflexivity.
  destruct (service_bounds st) as [low high]. cbn [fst snd] in *.
  pose proof (uniform_ok low high (rng s) Hle) as [Hlow _].
  destruct (uniform R low high (rng s)) as [d g]. cbn [fst] in Hlow.
  apply bi_timeout; [apply bi_set_rng, Hinv|].
  cbn. split; [exact Hp0|]. rewrite Hthrough. lra.
Qed.

Lemma bi_request (p : passenger) (st : stage) (s s' : sim R) :
  bounds_invariant running_time s ->
  waiter_bounds_ok (now (env s)) st p ->
  request R p st s = Ok s' ->
  bounds_invariant running_time s'.
Proof.
  intros Hinv Hp. unfold request.
  destruct (lanes s !! lane p) as [ln|] eqn:Hl; [|discriminate].
  destruct (acquire _ _) as [[] r] eqn:Hacq;
    (intros H; injection H as <-); apply acquire_waiters in Hacq.
  - apply bi_serve; [|exact Hp].
    apply bi_set_pool; [assumption..|]. rewrite Hacq.
    apply (bi_waiters _ _ Hinv _ _ _ Hl).
  - apply bi_set_pool; [assumption..|]. rewrite Hacq.
    apply Forall_app. split; [apply (bi_waiters _ _ Hinv _ _ _ Hl)|].
    apply Forall_singleton. exact Hp.
Qed.

Lemma bi_release_stage (p : passenger) (st : stage) (s s' : sim R) :
  bounds_invariant running_time s ->
  release_stage R p st s = Ok s' ->
  bounds_invariant running_time s' /\ now (env s') = now (env s).
Proof.
  intros Hinv. unfold release_stage.
  destruct (lanes s !! lane p) as [ln|] eqn:Hl; [|discriminate].
  destruct (release _) as [[w r]|e] eqn:Hrel; [|discriminate].
  cbn. intros H. injection H as <-.
  apply release_waiters in Hrel.
  pose proof (bi_waiters _ _ Hinv _ _ st Hl) as Hws. cbv beta in Hws.
  destruct w as [w|].
  - rewrite Hrel in Hws. apply Forall_cons in Hws as [[Hw0 Hw] Hws].
    split; [|reflexivity].
    apply bi_timeout; [apply bi_set_pool; assumption|].
    cbn. split; [exact Hw0 | lra].
  - split; [|reflexivity].
    apply bi_set_pool; [assumption..|]. rewrite (proj2 Hrel). constructor.
Qed.

Lemma bi_depart (p : passenger) (s : sim R) :
  bounds_invariant running_time s ->
  0 <= arrival_time p ->
  arrival_time p + time_through body_screener <= now (env s) ->
  now (env s) <= running_time ->
  bounds_invariant running_time (depart R p s).
Proof.
  intros [Hn He Hw Hc] Hp0 Hp Ht. split; cbn; try assumption.
  apply Forall_app. split; [assumption|]. apply Forall_singleton.
  split; [exact Hp0|]. split; assumption.
Qed.

Lemma bi_passenger_arrivals (i : nat) (s : sim R) :
  bounds_invariant running_time s ->
  bounds_invariant running_time (passenger_arrivals R i s).
Proof.
  intros Hinv. unfold passenger_arrivals. destruct (expovariate R _ _) as [gap g].
  apply bi_timeout; [apply bi_set_rng, Hinv | exact I].
Qed.

Lemma bi_select_lane (assigned_lane : option nat) (l : nat) (s s' : sim R) :
  bounds_invariant running_time s ->
  select_lane R v assigned_lane s = Ok (l, s') ->
  bounds_invariant running_time s' /\ now (env s') = now (env s).
Proof.
  intros Hinv. unfold select_lane, choice.
  destruct v, assigned_lane;
    try (intros H; injection H as <- <-; split; [exact Hinv | reflexivity]).
  - destruct (lanes s); [discriminate|].
    destruct (randbelow R _ _) as [i g]. destruct (_ !! i); [|discriminate].
    intros H; injection H as <- <-. split; [apply bi_set_rng, Hinv | reflexivity].
  - destruct (choose_dynamic_lane _) as [[ln|] i]; [|discriminate].
    intros H; injection H as <- <-. split; [exact Hinv | reflexivity].
Qed.

Lemma bi_resume (k : cont) (s s' : sim R) :
  bounds_invariant running_time s ->
  cont_bounds_ok (now (env s)) k ->
  now (env s) <= running_time ->
  resume R v k s = Ok s' ->
  bounds_invariant running_time s'.
Proof.
  intros Hinv Hk Ht. pose proof (bi_now _ _ Hinv) as Hnow.
  destruct k as [nm al|p st|p st| |i];
    cbn [resume]; unfold check_passenger, check_passenger_served.
  - destruct (select_lane R v al s) as [[l s1]|e] eqn:Hsel; [|discriminate].
    cbn. apply bi_select_lane in Hsel as [Hinv1 Hnow1]; [|assumption].
    apply bi_request; [assumption|].
    split; cbn; [exact Hnow|]. rewrite Hnow1.
    change (time_before officer) with 0. lra.
  - intros H; injection H as <-. apply bi_serve; assumption.
  - destruct (release_stage R p st s) as [s1|e] eqn:Hrel; [|discriminate].
    cbn. apply bi_release_stage in Hrel as [Hinv1 Hnow1]; [|assumption].
    destruct Hk as [Hp0 Hp].
    destruct (next_stage st) as [st'|] eqn:Hnext.
    + apply bi_request; [assumption|]. split; cbn; [exact Hp0|].
      rewrite Hnow1, (time_before_next st st' Hnext). exact Hp.
    + destruct st; try discriminate.
      intros H; injection H as <-.
      apply bi_depart; cbn; rewrite ?Hnow1; assumption.
  - intros H; injection H as <-. apply bi_passenger_arrivals, Hinv.
  - intros H; injection H as <-.
    apply bi_passenger_arrivals, bi_timeout; [assumption | exact I].
Qed.

Lemma bi_next_event (k : cont) (e : EventScheduler cont) (s : sim R) :
  timing_invariant s ->
  bounds_invariant running_time s ->
  next_event running_time (env s) = Some (k, e) ->
  bounds_invariant running_time (set_env R e s) /\
  cont_bounds_ok (now e) k /\
  now e <= running_time.
Proof.
  intros [_ Ht _ _] [Hn He Hw Hc]. unfold next_event.
  destruct (pending (env s)) as [|x rest]; [discriminate|].
  destruct (Qltb _ _) eqn:Hlt; [discriminate|].
  intros H; injection H as <- <-.
  apply Qltb_ge in Hlt.
  apply Forall_cons in Ht as [[Hnow _] _].
  apply Forall_cons in He as [Hk He].
  split; [split; cbn|split; [exact Hk | exact Hlt]]; try assumption.
  - lra.
  - eapply Forall_waiters_impl; [exact Hw|]. cbn. intros _ st p [Hp0 Hp].
    split; [exact Hp0 | lra].
Qed.

Lemma bi_env_steps (fuel : nat) :
  forall (s s' : sim R) (finished : bool),
    timing_invariant s ->
    bounds_invariant running_time s ->
    env_steps R v fuel running_time s = Ok (s', finished) ->
    bounds_invariant running_time s'.
Proof.
  induction fuel as [|fuel IH]; intros s s' finished Htiming Hinv; cbn [env_steps].
  - intros H; injection H as <- _. exact Hinv.
  - destruct (next_event running_time (env s)) as [[k e]|] eqn:Hnext.
    + destruct (bi_next_event k e s Htiming Hinv Hnext) as (Hinv1 & Hk & Ht).
      apply (ti_next_event running_time k e s) in Hnext as [Htiming1 Hk1];
        [|assumption].
      destruct (resume R v _ _) as [s1|err] eqn:Hres; [|discriminate].
      cbn. apply IH.
      * eapply (ti_resume v uniform_ok expovariate_ok); eassumption.
      * eapply bi_resume; eassumption.
    + intros H; injection H as <- _. exact Hinv.
Qed.

Lemma bi_setup (num_lanes : nat) (g : globals R) :
  bounds_invariant running_time (setup R v num_lanes g).
Proof.
  unfold setup. apply (bi_timeout 0); [|exact I].
  pose proof (initial_passengers_new v num_lanes) as Hnew.
  set (s0 := mkSim _ _ _ _ _).
  assert (H0 : bounds_invariant running_time s0).
  { split; cbn; try constructor.
    - lra.
    - apply Forall_waiters_AirportSecurity. }
  clearbody s0. revert s0 H0. induction Hnew as [|k ks Hk _ IH]; intros s0 H0; cbn.
  - exact H0.
  - apply IH. apply (bi_timeout 0); [exact H0|].
    destruct k; try contradiction. exact I.
Qed.

Lemma run_airport_bounds (fuel : nat) (num_lanes : nat) (g : globals R)
    (s : sim R) (finished : bool) :
  run_airport R v fuel running_time num_lanes g = Ok (s, finished) ->
  bounds_invariant running_time s.
Proof.
  intros Hrun. apply run_airport_steps in Hrun as [_ Hrun]. revert Hrun.
  apply bi_env_steps; [apply (ti_setup v) | apply bi_setup].
Qed.
End BoundsInvariant.

Lemma new_records_bounds {R : RandomSource} (v : variant) (fuel : nat)
    (running_time : Q) (num_lanes : nat) (g : globals R) (s : sim R)
    (finished : bool) :
  uniform_in_range R ->
  expovariate_nonnegative R ->
  run_airport R v fuel running_time num_lanes g = Ok (s, finished) ->
  Forall (fun x => 14 # 5 <= x /\ x <= running_time) (new_records g s).
Proof.
  intros Huniform Hexpo Hrun.
  rewrite (new_records_completed g s (run_airport_history _ _ _ _ _ _ _ Hrun)).
  pose proof (run_airport_bounds v running_time Huniform Hexpo _ _ _ _ _ Hrun)
    as [_ _ _ Hc].
  induction Hc as [|c cs (H0 & Hlo & Hhi) _ IH]; cbn; constructor; [|exact IH].
  unfold sojourn_time. rewrite time_through_body in Hlo. split; lra.
Qed.

(** X7: every sojourn time a run records lies between 2.8 minutes, the sum
    of the least service times of the three stages, and the running time;
    the random source is assumed to sample service times within their bounds
    and non-negative interarrival gaps. *)
Theorem sojourn_time_bounds {R : RandomSource} (v : variant) (fuel : nat)
    (running_time : Q) (num_lanes : nat) (g : globals R) (s : sim R)
    (finished : bool) :
  uniform_in_range R ->
  expovariate_nonnegative R ->
  run_airport R v fuel running_time num_lanes g = Ok (s, finished) ->
  wait_times s = g_wait_times g ++ new_records g s /\
  Forall (fun x => 14 # 5 <= x /\ x <= running_time) (new_records g s).
Proof.
  intros Huniform Hexpo Hrun. split.
  - pose proof (run_airport_history _ _ _ _ _ _ _ Hrun) as Hinv.
    rewrite (new_records_completed g s Hinv). apply (hi_wait_times _ _ Hinv).
  - apply (new_records_bounds v fuel running_time num_lanes g s finished); assumption.
Qed.

Lemma sojourn_time_bounds_witness :
  Forall (fun x => 14 # 5 <= x /\ x <= 5)
         (new_records fresh_globals (central_run fresh_globals)).
Proof.
  apply (sojourn_time_bounds central_queue 200 5 4 fresh_globals
           (central_run fresh_globals) true).
  - exact cyclic_source_uniform.
  - exact cyclic_source_expovariate.
  - vm_compute. reflexivity.
Defined.

(** X8: a run with a positive running time shorter than 2.8 minutes records
    nothing, so when [wait_times] is empty before it, asking for the summary
    raises [StatisticsError]; this holds for every random source with the
    usual ranges and at least one lane.  A running time that is not positive
    is refused by [env.run] with [ValueError], and [main] does not get to
    the summary. *)
Theorem short_run_has_no_data {R : RandomSource} (v : variant) (fuel : nat)
    (running_time : Q) (num_lanes : nat) (g : globals R) :
  uniform_in_range R ->
  expovariate_nonnegative R ->
  randbelow_in_range R ->
  v = central_queue \/ (0 < num_lanes)%nat ->
  running_time < 14 # 5 ->
  (0 < running_time ->
   (exists s finished,
       run_airport R v fuel running_time num_lanes g = Ok (s, finished) /\
       wait_times s = g_wait_times g) /\
   (g_wait_times g = [] ->
    simulate_and_report R v fuel running_time num_lanes g = Raise StatisticsError)) /\
  (running_time <= 0 ->
   run_airport R v fuel running_time num_lanes g = Raise ValueError /\
   simulate_and_report R v fuel running_time num_lanes g = Raise ValueError).
Proof.
  intros Huniform Hexpo Hrandbelow Hv Hshort. split; [intros HT|intros HT; split].
  2: { apply run_airport_nonpositive, HT. }
  2: { unfold simulate_and_report.
       rewrite (run_airport_nonpositive v fuel running_time num_lanes g HT).
       reflexivity. }
  destruct (run_airport_safe v Hrandbelow fuel running_time num_lanes g Hv HT)
    as (s & finished & Hrun & _).
  pose proof (new_records_bounds v fuel running_time num_lanes g s finished
                Huniform Hexpo Hrun) as Hbounds.
  pose proof (run_airport_history _ _ _ _ _ _ _ Hrun) as Hinv.
  assert (Hnone : new_records g s = []).
  { destruct (new_records g s) as [|x xs]; [reflexivity|].
    apply Forall_cons in Hbounds as [[Hlo Hhi] _]. lra. }
  assert (Hwt : wait_times s = g_wait_times g).
  { rewrite (hi_wait_times _ _ Hinv), <- (new_records_completed g s Hinv), Hnone.
    apply app_nil_r. }
  split.
  - exists s, finished. split; assumption.
  - intros Hempty. unfold simulate_and_report. rewrite Hrun. cbn.
    rewrite Hwt, Hempty. reflexivity.
Qed.

Lemma short_run_has_no_data_witness :
  simulate_and_report cyclic_source multiple_queues_random_selection 400 (5 # 2) 4
                      fresh_globals
  = Raise StatisticsError.
Proof.
  apply (short_run_has_no_data multiple_queues_random_selection 400 (5 # 2) 4
           fresh_globals).
  - exact cyclic_source_uniform.
  - exact cyclic_source_expovariate.
  - exact cyclic_source_randbelow.
  - right. lia.
  - vm_compute. reflexivity.
  - reflexivity.
  - reflexivity.
Defined.

(** X9: when [wait_times] is empty before a run, the average the summary
    reports after it is at least 2 minutes and at most the running time. *)
Theorem reported_average_bounds {R : RandomSource} (v : variant) (fuel : nat)
    (running_time : Q) (num_lanes : nat) (g : globals R) (s : sim R)
    (finished : bool) (mins secs : Z) :
  uniform_in_range R ->
  expovariate_nonnegative R ->
  g_wait_times g = [] ->
  run_airport R v fuel running_time num_lanes g = Ok (s, finished) ->
  calculate_wait_time (wait_times s) = Ok (mins, secs) ->
  (2 <= mins)%Z /\ inject_Z mins <= running_time.
Proof.
  intros Huniform Hexpo Hempty Hrun Hcalc.
  pose proof (new_records_bounds v fuel running_time num_lanes g s finished
                Huniform Hexpo Hrun) as Hbounds.
  pose proof (run_airport_history _ _ _ _ _ _ _ Hrun) as Hinv.
  assert (Hwt : wait_times s = new_records g s).
  { rewrite (new_records_completed g s Hinv), (hi_wait_times _ _ Hinv), Hempty.
    reflexivity. }
  rewrite <- Hwt in Hbounds.
  destruct (mean (wait_times s)) as [m|e] eqn:Hmean;
    [|unfold calculate_wait_time in Hcalc; rewrite Hmean in Hcalc; discriminate].
  rewrite (calculate_wait_time_of_mean _ m Hmean) in Hcalc.
  injection Hcalc as Hmins _. rewrite py_round_inject_Z in Hmins. subst mins.
  destruct (mean_bounds _ _ m _ Hbounds Hmean) as [Hlo Hhi].
  split.
  - change 2%Z with (Qfloor (14 # 5)). apply Qfloor_resp_le, Hlo.
  - pose proof (Qfloor_le m). lra.
Qed.

Lemma reported_average_bounds_witness :
  (2 <= 3)%Z /\ inject_Z 3 <= 5.
Proof.
  apply (reported_average_bounds central_queue 200 5 4 fresh_globals
           (central_run fresh_globals) true 3 25).
  - exact cyclic_source_uniform.
  - exact cyclic_source_expovariate.
  - reflexivity.
  - vm_compute. reflexivity.
  - vm_compute. reflexivity.
Defined.

(** ** No lanes *)

Lemma env_steps_step {R : RandomSource} (v : variant) (fuel : nat) (running_time : Q)
    (s : sim R) (e : Event cont) (rest : list (Event cont)) :
  pending (env s) = e :: rest ->
  due_time e <= running_time ->
  env_steps R v (S fuel) running_time s
  = resume R v (continuation e)
           (set_env R (mkScheduler (due_time e) (next_sequence (env s)) rest) s)
    ≫= env_steps R v fuel running_time.
Proof.
  intros Hpending Hdue. cbn [env_steps]. unfold next_event. rewrite Hpending.
  apply Qltb_ge in Hdue. rewrite Hdue. reflexivity.
Qed.

Lemma earlier_later {K} (a b : Event K) :
  due_time b <= due_time a ->
  (insertion_sequence b < insertion_sequence a)%nat ->
  earlier a b = false.
Proof.
  intros Hdue Hseq. unfold earlier. destruct (Qcompare _ _) eqn:E.
  - apply Nat.ltb_ge. lia.
  - apply Qlt_alt in E. lra.
  - reflexivity.
Qed.

Lemma check_passenger_no_lane {R : RandomSource} (nm : pname) (s : sim R) :
  lanes s = [] ->
  check_passenger R multiple_queues_random_selection nm None s = Raise IndexError /\
  check_passenger R multiple_queues_dynamic_selection_optimal nm None s
  = Raise TypeError.
Proof.
  intros Hl. unfold check_passenger, select_lane, choice. rewrite Hl.
  split; reflexivity.
Qed.

Lemma run_airport_first_arrival {R : RandomSource} (v : variant) (err : exn)
    (fuel : nat) (running_time : Q) (g : globals R) :
  v <> central_queue ->
  (forall nm (s : sim R), lanes s = [] -> check_passenger R v nm None s = Raise err) ->
  expovariate_nonnegative R ->
  0 <= running_time ->
  fst (expovariate R (1 / get_mean_interarrival_time 0) (g_rng g)) < running_time ->
  run_airport R v (3 + fuel) running_time 0 g = Raise err.
Proof.
  intros Hv Hraise Hexpo HT Hgap.
  assert (HT' : 0 < running_time).
  { pose proof (Hexpo _ (g_rng g) (get_mean_interarrival_time_positive 0)). lra. }
  rewrite (run_airport_positive v _ running_time 0 g HT').
  assert (Hsetup : setup R v 0 g
                   = mkSim (mkScheduler 0 1 [mkEvent (0 + 0) 0 k_passenger_arrivals_start])
                           [] (g_rng g) (g_wait_times g) [])
    by (destruct v; [congruence|reflexivity..]).
  rewrite Hsetup. clear Hsetup.
  destruct (expovariate R (1 / get_mean_interarrival_time 0) (g_rng g))
    as [gap0 g1] eqn:Hexp0.
  cbn [fst] in Hgap.
  pose proof (Hexpo _ g1 (get_mean_interarrival_time_positive (0 + 0 + gap0))) as Hgap1.
  destruct (expovariate R (1 / get_mean_interarrival_time (0 + 0 + gap0)) g1)
    as [gap1 g2] eqn:Hexp1.
  cbn [fst] in Hgap1.
  set (first := mkEvent (0 + 0 + gap0) 1 (k_passenger_arrivals 0)).
  set (arrival := mkEvent (0 + 0 + gap0 + 0) 2 (k_check_passenger (Passenger 1) None)).
  set (next := mkEvent (0 + 0 + gap0 + gap1) 3 (k_passenger_arrivals 1)).
  set (s1 := mkSim (mkScheduler (0 + 0) 2 [first]) [] g1 (g_wait_times g) []).
  set (s2 := mkSim (mkScheduler (0 + 0 + gap0) 4 [arrival; next]) [] g2
                   (g_wait_times g) []).
  change (3 + fuel)%nat with (S (S (S fuel))).
  rewrite (env_steps_step _ _ _ _ (mkEvent (0 + 0) 0 k_passenger_arrivals_start) [])
    by (try reflexivity; cbn; lra).
  assert (Hstep1 : resume R v k_passenger_arrivals_start
                     (set_env R (mkScheduler (0 + 0) 1 [])
                        (mkSim (mkScheduler 0 1
                                  [mkEvent (0 + 0) 0 k_passenger_arrivals_start])
                               [] (g_rng g) (g_wait_times g) []))
                   = Ok s1).
  { cbn [resume]. unfold passenger_arrivals. cbn [env set_env now rng].
    change (get_mean_interarrival_time (0 + 0)) with (get_mean_interarrival_time 0).
    rewrite Hexp0. reflexivity. }
  cbn [continuation due_time env next_sequence]. rewrite Hstep1.
  cbn [mbind result_bind].
  rewrite (env_steps_step _ _ _ _ first []) by (try reflexivity; cbn; lra).
  assert (Hstep2 : resume R v (k_passenger_arrivals 0)
                     (set_env R (mkScheduler (0 + 0 + gap0) 2 []) s1)
                   = Ok s2).
  { cbn [resume]. unfold passenger_arrivals.
    cbn [env set_env env_process now rng schedule s1].
    rewrite Hexp1. unfold s1, s2, env_timeout, env_process, set_rng, set_env.
    unfold schedule.
    cbn [env now next_sequence pending lanes rng wait_times completed enqueue].
    fold arrival next.
    rewrite earlier_later; [reflexivity| |]; cbn; [lra|lia]. }
  cbn [continuation due_time env next_sequence first s1]. fold s1. rewrite Hstep2.
  cbn [mbind result_bind].
  rewrite (env_steps_step _ _ _ _ arrival [next]) by (try reflexivity; cbn; lra).
  cbn [resume continuation arrival]. rewrite Hraise by reflexivity. reflexivity.
Qed.

(** X10: a run with no lanes ends with an exception at the first arrival
    that falls within the running time: [IndexError] in the random-selection
    program, where [random.choice] is given the empty list of lanes, and
    [TypeError] in the dynamic-selection program, where [choose_dynamic_lane]
    returns [None] for the lane and [check_passenger] subscripts it. *)
Theorem run_airport_no_lanes {R : RandomSource} (fuel : nat) (running_time : Q)
    (g : globals R) :
  expovariate_nonnegative R ->
  fst (expovariate R (1 / get_mean_interarrival_time 0) (g_rng g)) < running_time ->
  run_airport R multiple_queues_random_selection (3 + fuel) running_time 0 g
  = Raise IndexError /\
  run_airport R multiple_queues_dynamic_selection_optimal (3 + fuel) running_time 0 g
  = Raise TypeError.
Proof.
  intros Hexpo Hgap.
  assert (HT : 0 <= running_time).
  { pose proof (Hexpo _ (g_rng g) (get_mean_interarrival_time_positive 0)). lra. }
  split; apply run_airport_first_arrival; try assumption; try discriminate;
    intros nm s Hs; apply (check_passenger_no_lane nm s Hs).
Qed.

Lemma run_airport_no_lanes_witness :
  run_airport cyclic_source multiple_queues_random_selection (3 + 100) 5 0
              fresh_globals
  = Raise IndexError /\
  run_airport cyclic_source multiple_queues_dynamic_selection_optimal (3 + 100) 5 0
              fresh_globals
  = Raise TypeError.
Proof.
  apply (run_airport_no_lanes 100 5 fresh_globals).
  - exact cyclic_source_expovariate.
  - vm_compute. reflexivity.
Defined.

(** ** Every passenger is accounted for *)

Lemma named_step {R : RandomSource} (v : variant) (nm : pname) (x : Event cont)
    (rest : list (Event cont)) (s s' : sim R) :
  pending (env s) = x :: rest ->
  resume R v (continuation x)
         (set_env R (mkScheduler (due_time x) (next_sequence (env s)) rest) s)
  = Ok s' ->
  named nm s' = (named nm s + spawned nm (continuation x))%nat.
Proof.
  intros Hpending Hres. rewrite (named_resume v nm _ _ _ Hres).
  unfold named. cbn. rewrite Hpending. cbn. lia.
Qed.

Lemma created_S (v : variant) (num_lanes i : nat) (nm : pname) :
  created v num_lanes (S i) nm
  = (created v num_lanes i nm + is_named nm (Some (Passenger (S i))))%nat.
Proof.
  destruct nm as [j|l j|j]; cbn [created]; unfold is_named.
  - rewrite (bool_decide_eq_false_2 (Some _ = Some _)) by discriminate.
    rewrite Nat.add_0_r. reflexivity.
  - rewrite (bool_decide_eq_false_2 (Some _ = Some _)) by discriminate.
    rewrite Nat.add_0_r. reflexivity.
  - destruct (decide (j = S i)) as [->|Hj].
    + rewrite (bool_decide_eq_true_2 (Some _ = Some _)) by reflexivity.
      rewrite bool_decide_eq_true_2, bool_decide_eq_false_2 by lia. reflexivity.
    + rewrite (bool_decide_eq_false_2 (Some _ = Some _)) by congruence.
      repeat case_bool_decide; lia.
Qed.

Lemma accounted_step {R : RandomSource} (v : variant) (num_lanes : nat)
    (running_time : Q) (k : cont) (e : EventScheduler cont) (s s' : sim R) :
  (exists i, counters (pending (env s)) = [i] /\
             forall nm, named nm s = created v num_lanes i nm) ->
  next_event running_time (env s) = Some (k, e) ->
  resume R v k (set_env R e s) = Ok s' ->
  exists i, counters (pending (env s')) = [i] /\
            forall nm, named nm s' = created v num_lanes i nm.
Proof.
  intros (i0 & Hcount & Hall). unfold next_event.
  destruct (pending (env s)) as [|x rest] eqn:Hpending; [discriminate|].
  destruct (Qltb _ _); [discriminate|].
  intros H; injection H as <- <-. intros Hres.
  pose proof (fun nm => named_step v nm x rest s s' Hpending Hres) as Hstep.
  unfold counters in Hcount. cbn in Hcount. fold (counters rest) in Hcount.
  destruct (arrivals_counter (continuation x)) as [i|] eqn:Hx.
  - injection Hcount as -> Hrest.
    assert (Hcounter : counters (pending (env s')) = [next_counter (continuation x)]).
    { apply (counters_resume_some v _ _
               (set_env R (mkScheduler (due_time x) (next_sequence (env s)) rest) s)
               s' Hx Hrest Hres). }
    destruct (continuation x) as [nm' al|p st|p st| |i]; try discriminate.
    + injection Hx as <-. exists 0%nat. split; [exact Hcounter|].
      intros nm. rewrite Hstep, Hall. cbn. lia.
    + injection Hx as ->. exists (S i0). split; [exact Hcounter|].
      intros nm. rewrite Hstep, Hall, created_S. reflexivity.
  - exists i0. split.
    + rewrite (counters_resume_none v _
                 (set_env R (mkScheduler (due_time x) (next_sequence (env s)) rest) s)
                 s' Hx Hres).
      exact Hcount.
    + intros nm. rewrite Hstep, Hall.
      destruct (continuation x); try discriminate; cbn; lia.
Qed.

Lemma accounted_env_steps {R : RandomSource} (v : variant) (num_lanes fuel : nat)
    (running_time : Q) :
  forall (s s' : sim R) (finished : bool),
    (exists i, counters (pending (env s)) = [i] /\
               forall nm, named nm s = created v num_lanes i nm) ->
    env_steps R v fuel running_time s = Ok (s', finished) ->
    exists i, counters (pending (env s')) = [i] /\
              forall nm, named nm s' = created v num_lanes i nm.
Proof.
  induction fuel as [|fuel IH]; intros s s' finished Hinv; cbn [env_steps].
  - intros H; injection H as <- _. exact Hinv.
  - destruct (next_event running_time (env s)) as [[k e]|] eqn:Hnext.
    + destruct (resume R v _ _) as [s1|err] eqn:Hres; [|discriminate].
      cbn. apply IH. eapply accounted_step; eassumption.
    + intros H; injection H as <- _. exact Hinv.
Qed.

Lemma initial_lane_created (nm : pname) (n : nat) :
  forall a,
    sum_list
      (map (fun k => is_named nm (cont_name k))
           (flat_map (fun lane_index =>
                        map (fun j => k_check_passenger
                                        (InitialPassengerLane (lane_index + 1) (j + 1))
                                        (Some lane_index))
                            (seq 0 2))
                     (seq a n)))
    = match nm with
      | InitialPassengerLane l j =>
          if bool_decide ((a + 1 <= l <= a + n)%nat /\ (1 <= j <= 2)%nat)
          then 1%nat else 0%nat
      | _ => 0%nat
      end.
Proof.
  induction n as [|n IH]; intros a.
  - cbn. destruct nm as [j|l j|j]; try reflexivity.
    rewrite bool_decide_eq_false_2 by lia. reflexivity.
  - specialize (IH (S a)).
    cbn [seq flat_map map app cont_name sum_list] in *. cbn [Nat.add] in *.
    rewrite IH. unfold is_named.
    destruct nm as [j|l j|j].
    + rewrite !bool_decide_eq_false_2 by discriminate. reflexivity.
    + repeat case_bool_decide; simplify_eq; unfold id in *; try lia;
        exfalso; assert (l = (a + 1)%nat) by lia; subst l;
        assert (j = 1%nat \/ j = 2%nat) as [-> | ->] by lia; congruence.
    + rewrite !bool_decide_eq_false_2 by discriminate. reflexivity.
Qed.

Lemma accounted_setup {R : RandomSource} (v : variant) (num_lanes : nat)
    (g : globals R) :
  exists i, counters (pending (env (setup R v num_lanes g))) = [i] /\
            forall nm, named nm (setup R v num_lanes g) = created v num_lanes i nm.
Proof.
  exists 0%nat. split.
  - unfold setup. cbn.
    apply counters_enqueue_some; [reflexivity|].
    rewrite counters_fold_process; [reflexivity|].
    eapply Forall_impl; [apply initial_passengers_new|].
    intros k Hk. destruct k; try contradiction. reflexivity.
  - intros nm. unfold setup. set (s0 := mkSim _ _ _ _ _).
    change (env_process R ?k ?s) with (env_timeout R 0 k s) at 1.
    rewrite named_timeout, named_fold_process, is_named_None.
    replace (named nm s0) with 0%nat
      by (unfold named, s0; cbn; rewrite lanes_named_AirportSecurity; lia).
    rewrite Nat.add_0_l, Nat.add_0_r.
    destruct v; cbn [initial_passengers].
    + cbn. unfold is_named. destruct nm as [j|l j|j]; cbn [created].
      * repeat case_bool_decide; simplify_eq; unfold id in *; try lia;
          exfalso; assert (j = 1%nat \/ j = 2%nat) as [-> | ->] by lia; congruence.
      * rewrite !bool_decide_eq_false_2 by discriminate. reflexivity.
      * rewrite !bool_decide_eq_false_2 by (try discriminate; lia). reflexivity.
    + rewrite (initial_lane_created nm num_lanes 0).
      destruct nm as [j|l j|j]; cbn [created]; try reflexivity.
      rewrite bool_decide_eq_false_2 by lia. reflexivity.
    + rewrite (initial_lane_created nm num_lanes 0).
      destruct nm as [j|l j|j]; cbn [created]; try reflexivity.
      rewrite bool_decide_eq_false_2 by lia. reflexivity.
Qed.

(** X11: no passenger is lost or duplicated.  After a run, with [i] the
    counter of [passenger_arrivals], every initial passenger of [run_airport]
    and each of [Passenger 1] ... [Passenger i] is exactly once in the
    system (about to start, waiting for a resource or holding one) or in
    the completion records, and no other name is there. *)
Theorem passengers_accounted {R : RandomSource} (v : variant) (fuel : nat)
    (running_time : Q) (num_lanes : nat) (g : globals R) (s : sim R)
    (finished : bool) :
  run_airport R v fuel running_time num_lanes g = Ok (s, finished) ->
  exists i, counters (pending (env s)) = [i] /\
            forall nm, named nm s = created v num_lanes i nm.
Proof.
  intros Hrun. apply run_airport_steps in Hrun as [_ Hrun]. revert Hrun.
  apply accounted_env_steps, accounted_setup.
Qed.

Lemma passengers_accounted_witness :
  exists i, counters (pending (env dynamic_run)) = [i] /\
            forall nm, named nm dynamic_run
                       = created multiple_queues_dynamic_selection_optimal 4 i nm.
Proof.
  apply (passengers_accounted multiple_queues_dynamic_selection_optimal 400 8 4
           fresh_globals dynamic_run true).
  vm_compute. reflexivity.
Defined.

(** ** No overtaking within a lane *)

Lemma length_stage_holders (l : nat) (st : stage) (q : list (Event cont)) :
  length (stage_holders l st q) = holders l st q.
Proof.
  unfold stage_holders. induction q as [|e q IH]; [reflexivity|].
  cbn [flat_map holders]. rewrite length_app, IH. f_equal.
  destruct (continuation e); cbn; try reflexivity; case_bool_decide; reflexivity.
Qed.

Lemma stage_holders_enqueue (l : nat) (st : stage) (e : Event cont)
    (q : list (Event cont)) :
  cont_holder l st (continuation e) = [] \/ stage_holders l st q = [] ->
  stage_holders l st (enqueue e q)
  = cont_holder l st (continuation e) ++ stage_holders l st q.
Proof.
  unfold stage_holders. induction q as [|x q IH]; intros H; [reflexivity|].
  cbn [enqueue]. destruct (earlier e x); cbn [flat_map]; [reflexivity|].
  destruct H as [He|Hq].
  - rewrite IH by (left; exact He). rewrite He. reflexivity.
  - cbn [flat_map] in Hq. apply app_eq_nil in Hq as [Hx Hq].
    rewrite IH by (right; exact Hq). rewrite Hx, Hq, !app_nil_r. reflexivity.
Qed.

Lemma arrival_time_cont_holder (l : nat) (st : stage) (k : cont) :
  map arrival_time (cont_holder l st k)
  = match k with
    | k_granted p st' | k_served p st' => here l st p st'
    | _ => []
    end.
Proof.
  destruct k; cbn; try reflexivity; unfold here; case_bool_decide; reflexivity.
Qed.

Lemma stage_waiters_insert (l l0 : nat) (st st0 : stage) (ln : lane_t)
    (r : ResourcePool passenger) (lanes : list lane_t) :
  lanes !! l0 = Some ln ->
  stage_waiters l st (<[l0 := lane_set ln st0 r]> lanes)
  = if bool_decide (l0 = l /\ st0 = st) then waiters r else stage_waiters l st lanes.
Proof.
  intros Hl. unfold stage_waiters.
  destruct (decide (l0 = l)) as [->|Hne].
  - rewrite list_lookup_insert_eq by (eapply lookup_lt_Some, Hl).
    rewrite lane_get_set, Hl.
    destruct (decide (st0 = st)) as [->|Hst].
    + rewrite bool_decide_eq_true_2 by (split; reflexivity). reflexivity.
    + rewrite bool_decide_eq_false_2 by (intros [_ H]; congruence). reflexivity.
  - rewrite list_lookup_insert_ne by exact Hne.
    rewrite bool_decide_eq_false_2 by (intros [H _]; congruence). reflexivity.
Qed.

Lemma StronglySorted_snoc (t : Q) (a : list Q) :
  StronglySorted Qle a -> Forall (fun x => x <= t) a ->
  StronglySorted Qle (a ++ [t]).
Proof.
  induction 1 as [|x a Ha IH Hx]; intros Hle; cbn.
  - repeat constructor.
  - apply Forall_cons in Hle as [Hxt Hle]. constructor; [apply IH, Hle|].
    apply Forall_app. split; [exact Hx|]. apply Forall_singleton. exact Hxt.
Qed.

Lemma here_other (l : nat) (st st' : stage) (p : passenger) :
  st' <> st -> here l st p st' = [].
Proof.
  intros Hne. unfold here. rewrite bool_decide_eq_false_2; [reflexivity|].
  intros [_ H]. congruence.
Qed.

Lemma here_same (l : nat) (st : stage) (p : passenger) :
  here l st p st = if bool_decide (lane p = l) then [arrival_time p] else [].
Proof.
  unfold here. destruct (decide (lane p = l)) as [Heq|Hne].
  - rewrite !bool_decide_eq_true_2; [reflexivity | exact Heq | split; [exact Heq|reflexivity]].
  - rewrite !bool_decide_eq_false_2; [reflexivity | exact Hne | intros [H _]; congruence].
Qed.

Lemma here_log (l : nat) (st st' : stage) (p : passenger) (a : action) :
  here l st (log p a) st' = here l st p st'.
Proof. reflexivity. Qed.

Ltac here_simpl :=
  repeat match goal with
         | |- context [here ?l ?st ?p ?st'] =>
             first [ rewrite (here_other l st st' p) by discriminate
                   | rewrite (here_same l st p) ]
         end.

Section Fifo.
Context {R : RandomSource} (v : variant).
Hypothesis randbelow_ok : randbelow_in_range R.

Lemma holders_free (h : option (nat * stage)) (s : sim R) (l : nat) (ln : lane_t)
    (st : stage) :
  safety_invariant h s ->
  Forall_pools (fun _ _ r => pool_ok 1 r) (lanes s) ->
  lanes s !! l = Some ln ->
  (in_use (lane_get ln st) < capacity (lane_get ln st))%nat ->
  waiters (lane_get ln st) = [] /\ stage_holders l st (pending (env s)) = [].
Proof.
  intros Hsafe Hpools Hl Hfree.
  destruct (Hpools l ln st Hl) as (Hc & Hle & Hfull).
  pose proof (si_holders _ _ Hsafe l ln st Hl) as Hh. cbv beta in Hh.
  split.
  - destruct (waiters (lane_get ln st)) as [|w ws] eqn:Hw; [reflexivity|].
    assert (in_use (lane_get ln st) = capacity (lane_get ln st))
      by (apply Hfull; discriminate). lia.
  - apply length_zero_iff_nil. rewrite length_stage_holders. lia.
Qed.

Lemma holders_held (s : sim R) (l : nat) (st : stage) :
  safety_invariant (Some (l, st)) s ->
  Forall_pools (fun _ _ r => pool_ok 1 r) (lanes s) ->
  (l < length (lanes s))%nat ->
  stage_holders l st (pending (env s)) = [].
Proof.
  intros Hsafe Hpools Hlt.
  destruct (lookup_lt_is_Some_2 _ _ Hlt) as [ln Hl].
  destruct (Hpools l ln st Hl) as (Hc & Hle & Hfull).
  pose proof (si_holders _ _ Hsafe l ln st Hl) as Hh. cbv beta in Hh.
  rewrite holding_same in Hh.
  apply length_zero_iff_nil. rewrite length_stage_holders. lia.
Qed.

Lemma stage_line_timeout (l : nat) (st : stage) (d : Q) (k : cont) (s : sim R) :
  cont_holder l st k = [] \/ stage_holders l st (pending (env s)) = [] ->
  stage_line l st (env_timeout R d k s) = cont_holder l st k ++ stage_line l st s.
Proof.
  intros H. unfold stage_line, env_timeout, set_env, schedule.
  cbn [env pending lanes].
  rewrite stage_holders_enqueue by exact H. cbn [continuation].
  rewrite app_assoc. reflexivity.
Qed.

Lemma stage_line_serve (l : nat) (st' : stage) (p : passenger) (st : stage)
    (s : sim R) :
  stage_holders (lane p) st (pending (env s)) = [] ->
  map arrival_time (stage_line l st' (serve R p st s))
  = here l st' p st ++ map arrival_time (stage_line l st' s).
Proof.
  intros Hnone. unfold serve.
  destruct (service_bounds st) as [low high].
  destruct (uniform R low high (rng s)) as [d g].
  rewrite stage_line_timeout.
  - rewrite map_app, arrival_time_cont_holder. reflexivity.
  - cbn [cont_holder lane log]. case_bool_decide as Hc; [|left; reflexivity].
    destruct Hc as [<- <-]. right. exact Hnone.
Qed.

Lemma completed_serve (p : passenger) (st : stage) (s : sim R) :
  completed (serve R p st s) = completed s.
Proof.
  unfold serve. destruct (service_bounds st) as [low high].
  destruct (uniform R low high (rng s)) as [d g]. reflexivity.
Qed.

Lemma now_serve (p : passenger) (st : stage) (s : sim R) :
  now (env (serve R p st s)) = now (env s).
Proof.
  unfold serve. destruct (service_bounds st) as [low high].
  destruct (uniform R low high (rng s)) as [d g]. reflexivity.
Qed.

Lemma fifo_request (p : passenger) (st : stage) (s s' : sim R) :
  safety_invariant None s ->
  Forall_pools (fun _ _ r => pool_ok 1 r) (lanes s) ->
  request R p st s = Ok s' ->
  (forall l st', map arrival_time (stage_line l st' s')
                 = map arrival_time (stage_line l st' s) ++ here l st' p st) /\
  completed s' = completed s /\
  now (env s') = now (env s).
Proof.
  intros Hsafe Hpools. unfold request.
  destruct (lanes s !! lane p) as [ln|] eqn:Hl; [|discriminate].
  unfold acquire. destruct (_ <? _)%nat eqn:Hfree; intros H; injection H as <-.
  - apply Nat.ltb_lt in Hfree.
    destruct (holders_free None s (lane p) ln st Hsafe Hpools Hl Hfree) as [Hw Hh].
    split; [|split; [rewrite completed_serve; reflexivity
                    |rewrite now_serve; reflexivity]].
    intros l st'. rewrite stage_line_serve by exact Hh.
    unfold stage_line at 1. cbn [env lanes set_pool pending].
    rewrite stage_waiters_insert by exact Hl. cbn [waiters].
    unfold here. cbn [lane log arrival_time].
    case_bool_decide as Hc.
    + destruct Hc as [<- <-]. unfold stage_line, stage_waiters.
      rewrite Hh, Hl, Hw. reflexivity.
    + rewrite app_nil_r. reflexivity.
  - split; [|split; reflexivity].
    intros l st'. unfold stage_line. cbn [env lanes set_pool pending].
    rewrite stage_waiters_insert by exact Hl. cbn [waiters].
    unfold here. case_bool_decide as Hc.
    + destruct Hc as [<- <-]. unfold stage_waiters. rewrite Hl.
      rewrite !map_app. cbn. rewrite app_assoc. reflexivity.
    + rewrite app_nil_r. reflexivity.
Qed.

Lemma fifo_release_stage (p : passenger) (st : stage) (s s' : sim R) :
  safety_invariant (Some (lane p, st)) s ->
  Forall_pools (fun _ _ r => pool_ok 1 r) (lanes s) ->
  release_stage R p st s = Ok s' ->
  (forall l st', map arrival_time (stage_line l st' s')
                 = map arrival_time (stage_line l st' s)) /\
  completed s' = completed s /\
  now (env s') = now (env s).
Proof.
  intros Hsafe Hpools. unfold release_stage.
  destruct (lanes s !! lane p) as [ln|] eqn:Hl; [|discriminate].
  pose proof (si_waiters _ _ Hsafe _ _ st Hl) as Hws. cbv beta in Hws.
  assert (Hh : stage_holders (lane p) st (pending (env s)) = []).
  { apply holders_held; [exact Hsafe | exact Hpools|]. eapply lookup_lt_Some, Hl. }
  unfold release. destruct (in_use (lane_get ln st)) as [|n]; [discriminate|].
  destruct (waiters (lane_get ln st)) as [|w ws] eqn:Hw; cbn;
    intros H; injection H as <-.
  - split; [|split; reflexivity].
    intros l st'. unfold stage_line. cbn [env lanes set_pool pending].
    rewrite stage_waiters_insert by exact Hl. cbn [waiters].
    case_bool_decide as Hc; [|reflexivity].
    destruct Hc as [<- <-]. unfold stage_waiters. rewrite Hl, Hw. reflexivity.
  - apply Forall_cons in Hws as [Hlane Hws].
    split; [|split; reflexivity].
    intros l st'. rewrite stage_line_timeout.
    + unfold stage_line. cbn [env lanes set_pool pending set_env].
      rewrite stage_waiters_insert by exact Hl. cbn [waiters].
      cbn [cont_holder lane log]. rewrite Hlane.
      case_bool_decide as Hc.
      * destruct Hc as [<- <-]. unfold stage_waiters. rewrite Hh, Hl, Hw.
        reflexivity.
      * reflexivity.
    + cbn [cont_holder lane log]. rewrite Hlane.
      case_bool_decide as Hc; [|left; reflexivity].
      destruct Hc as [<- <-]. right. exact Hh.
Qed.

Lemma fifo_passenger_arrivals (i : nat) (s : sim R) :
  (forall l st, stage_line l st (passenger_arrivals R i s) = stage_line l st s) /\
  completed (passenger_arrivals R i s) = completed s /\
  now (env (passenger_arrivals R i s)) = now (env s).
Proof.
  unfold passenger_arrivals. destruct (expovariate R _ _) as [gap g].
  split; [|split; reflexivity].
  intros l st. rewrite stage_line_timeout by (left; reflexivity). reflexivity.
Qed.

Lemma fifo_select_lane (assigned_lane : option nat) (l0 : nat) (s s' : sim R) :
  select_lane R v assigned_lane s = Ok (l0, s') ->
  env s' = env s /\ lanes s' = lanes s /\ completed s' = completed s.
Proof.
  unfold select_lane, choice.
  destruct v, assigned_lane;
    try (intros H; injection H as <- <-; repeat split; reflexivity).
  - destruct (lanes s) eqn:E; [discriminate|].
    destruct (randbelow R _ _) as [i g]. destruct (_ !! i); [|discriminate].
    intros H; injection H as <- <-. repeat split; try reflexivity.
    cbn. congruence.
  - destruct (choose_dynamic_lane _) as [[ln|] i]; [|discriminate].
    intros H; injection H as <- <-. repeat split; reflexivity.
Qed.

Lemma lane_completed_depart (l : nat) (p : passenger) (s : sim R) :
  map arrival_time (lane_completed l (depart R p s))
  = map arrival_time (lane_completed l s) ++ here l body_screener p body_screener.
Proof.
  unfold lane_completed, depart. cbn [completed].
  rewrite map_app, List.filter_app, map_app. cbn [map List.filter entity lane log].
  unfold here. destruct (Nat.eqb_spec (lane p) l) as [Heq|Hne].
  - rewrite bool_decide_eq_true_2 by (split; [exact Heq | reflexivity]). reflexivity.
  - rewrite bool_decide_eq_false_2 by (intros [H _]; congruence). reflexivity.
Qed.

(** One event of the run: the line of a lane stays as it is, or the
    passenger who arrives at this instant joins its end. *)
Lemma lane_line_step (x : Event cont) (rest : list (Event cont)) (s s' : sim R)
    (l : nat) :
  safety_invariant None s ->
  Forall_pools (fun _ _ r => pool_ok 1 r) (lanes s) ->
  pending (env s) = x :: rest ->
  resume R v (continuation x)
         (set_env R (mkScheduler (due_time x) (next_sequence (env s)) rest) s)
  = Ok s' ->
  now (env s') = due_time x /\
  (map arrival_time (lane_line l s') = map arrival_time (lane_line l s) \/
   map arrival_time (lane_line l s')
   = map arrival_time (lane_line l s) ++ [due_time x]).
Proof.
  intros Hsafe Hpools Hpending.
  set (s1 := set_env R _ s).
  assert (Hsafe1 : safety_invariant (held (continuation x)) s1).
  { destruct Hsafe as [Hn Hc Hw Hh]. rewrite Hpending in Hc, Hh.
    apply Forall_cons in Hc as [Hk Hc]. split; cbn; assumption. }
  assert (Hk : cont_lane_ok (length (lanes s1)) (continuation x)).
  { pose proof (si_conts _ _ Hsafe) as Hc. rewrite Hpending in Hc.
    apply Forall_cons in Hc as [Hk _]. exact Hk. }
  assert (Hpools1 : Forall_pools (fun _ _ r => pool_ok 1 r) (lanes s1)) by exact Hpools.
  assert (Hline : forall st,
             map arrival_time (stage_line l st s)
             = map arrival_time (cont_holder l st (continuation x))
               ++ map arrival_time (stage_line l st s1)).
  { intros st. unfold stage_line. rewrite Hpending. cbn. rewrite !map_app, app_assoc.
    reflexivity. }
  assert (Hdone : lane_completed l s = lane_completed l s1) by reflexivity.
  assert (Hnow : now (env s1) = due_time x) by reflexivity.
  unfold lane_line. rewrite !map_app, !Hline, Hdone, !arrival_time_cont_holder.
  clearbody s1. clear Hline Hdone Hpending Hsafe Hpools.
  destruct (continuation x) as [nm al|p st|p st| |i];
    cbn [resume held] in *; unfold check_passenger, check_passenger_served.
  - destruct (select_lane R v al s1) as [[l0 s2]|e] eqn:Hsel; [|discriminate].
    destruct (si_select_lane v randbelow_ok al s1 Hsafe1 Hk)
      as (l0' & s2' & Hsel' & Hsafe2 & _).
    rewrite Hsel in Hsel'. injection Hsel' as <- <-.
    destruct (fifo_select_lane _ _ _ _ Hsel) as (Henv & Hlanes & Hc).
    cbn. intros Hreq.
    assert (Hpools2 : Forall_pools (fun _ _ r => pool_ok 1 r) (lanes s2))
      by (rewrite Hlanes; exact Hpools1).
    destruct (fifo_request _ _ _ _ Hsafe2 Hpools2 Hreq) as (Hst & Hc' & Hnow').
    split; [rewrite Hnow', Henv; exact Hnow|].
    unfold lane_completed. rewrite !Hst, Hc', Hc.
    replace (stage_line l body_screener s2) with (stage_line l body_screener s1)
      by (unfold stage_line; rewrite Henv, Hlanes; reflexivity).
    replace (stage_line l baggage_screener s2) with (stage_line l baggage_screener s1)
      by (unfold stage_line; rewrite Henv, Hlanes; reflexivity).
    replace (stage_line l officer s2) with (stage_line l officer s1)
      by (unfold stage_line; rewrite Henv, Hlanes; reflexivity).
    here_simpl. rewrite !app_nil_r. cbn [app lane arrival_time].
    case_bool_decide.
    + right. rewrite Hnow, !app_assoc. reflexivity.
    + left. rewrite app_nil_r. reflexivity.
  - intros H; injection H as <-.
    assert (Hh : stage_holders (lane p) st (pending (env s1)) = []).
    { apply holders_held; assumption. }
    split; [rewrite now_serve; exact Hnow|]. left.
    unfold lane_completed. rewrite completed_serve, !stage_line_serve by exact Hh.
    reflexivity.
  - destruct (release_stage R p st s1) as [s2|e] eqn:Hrel; [|discriminate].
    destruct (si_release_stage p st s1 Hsafe1 Hk) as (s2' & Hrel' & Hsafe2 & _).
    rewrite Hrel in Hrel'. injection Hrel' as <-.
    pose proof (pp_release_stage (fun _ _ r => pool_ok 1 r)
                  (fun _ _ r w r' => release_pool_ok 1 r r' w)
                  p st s1 s2 Hpools1 Hrel) as Hpools2.
    destruct (fifo_release_stage _ _ _ _ Hsafe1 Hpools1 Hrel) as (Hst & Hc & Hnow2).
    cbn. destruct st; cbn [next_stage].
    + intros Hreq.
      destruct (fifo_request _ _ _ _ Hsafe2 Hpools2 Hreq) as (Hst' & Hc' & Hnow').
      split; [rewrite Hnow', Hnow2; exact Hnow|]. left.
      unfold lane_completed. rewrite !Hst', !Hst, Hc', Hc, !here_log.
      here_simpl. rewrite ?app_nil_r. cbn [app].
      rewrite !app_assoc. reflexivity.
    + intros Hreq.
      destruct (fifo_request _ _ _ _ Hsafe2 Hpools2 Hreq) as (Hst' & Hc' & Hnow').
      split; [rewrite Hnow', Hnow2; exact Hnow|]. left.
      unfold lane_completed. rewrite !Hst', !Hst, Hc', Hc, !here_log.
      here_simpl. rewrite ?app_nil_r. cbn [app].
      rewrite !app_assoc. reflexivity.
    + intros H; injection H as <-.
      split; [cbn; rewrite Hnow2; exact Hnow|]. left.
      rewrite lane_completed_depart, here_log.
      replace (stage_line l body_screener (depart R _ s2))
        with (stage_line l body_screener s2) by reflexivity.
      replace (stage_line l baggage_screener (depart R _ s2))
        with (stage_line l baggage_screener s2) by reflexivity.
      replace (stage_line l officer (depart R _ s2))
        with (stage_line l officer s2) by reflexivity.
      rewrite !Hst. unfold lane_completed. rewrite Hc.
      here_simpl. rewrite ?app_nil_r. cbn [app].
      rewrite !app_assoc. reflexivity.
  - intros H; injection H as <-.
    destruct (fifo_passenger_arrivals 0 s1) as (Hst & Hc & Hnow').
    split; [rewrite Hnow'; exact Hnow|]. left.
    unfold lane_completed. rewrite !Hst, Hc. reflexivity.
  - intros H; injection H as <-.
    destruct (fifo_passenger_arrivals (S i)
                (env_process R (k_check_passenger (Passenger (S i)) None) s1))
      as (Hst & Hc & Hnow').
    split; [rewrite Hnow'; exact Hnow|]. left.
    unfold lane_completed. rewrite !Hst, Hc.
    change (env_process R ?k s1) with (env_timeout R 0 k s1).
    rewrite !stage_line_timeout by (left; reflexivity). reflexivity.
Qed.
End Fifo.

Section FifoRun.
Context {R : RandomSource} (v : variant).
Hypothesis uniform_ok : uniform_in_range R.
Hypothesis expovariate_ok : expovariate_nonnegative R.
Hypothesis randbelow_ok : randbelow_in_range R.

Lemma fifo_env_steps (fuel : nat) (running_time : Q) :
  forall (s s' : sim R) (finished : bool),
    safety_invariant None s ->
    Forall_pools (fun _ _ r => pool_ok 1 r) (lanes s) ->
    timing_invariant s ->
    (forall l, StronglySorted Qle (map arrival_time (lane_line l s)) /\
               Forall (fun t => t <= now (env s)) (map arrival_time (lane_line l s))) ->
    env_steps R v fuel running_time s = Ok (s', finished) ->
    forall l, StronglySorted Qle (map arrival_time (lane_line l s')).
Proof.
  induction fuel as [|fuel IH]; intros s s' finished Hsafe Hpools Htime Hline;
    cbn [env_steps].
  - intros H; injection H as <- _. intros l. apply Hline.
  - destruct (next_event running_time (env s)) as [[k e]|] eqn:Hnext.
    + pose proof (ti_next_event running_time k e s Htime Hnext) as [Htime1 Hk1].
      unfold next_event in Hnext.
      destruct (pending (env s)) as [|x rest] eqn:Hpending; [discriminate|].
      destruct (Qltb _ _); [discriminate|].
      injection Hnext as <- <-.
      destruct (resume R v _ _) as [s1|err] eqn:Hres; [|discriminate].
      cbn. apply IH.
      * pose proof Hsafe as [Hn Hc Hw Hh]. rewrite Hpending in Hc, Hh.
        apply Forall_cons in Hc as [Hk Hc].
        destruct (si_resume v randbelow_ok (continuation x)
                    (set_env R (mkScheduler (due_time x) (next_sequence (env s)) rest) s))
          as (s1' & Hres' & Hsafe1).
        { split; cbn; assumption. }
        { exact Hk. }
        rewrite Hres in Hres'. injection Hres' as <-. exact Hsafe1.
      * eapply (pp_resume v (fun _ _ r => pool_ok 1 r)); [| | |exact Hres];
          [| |exact Hpools].
        -- intros _ _ w r granted r'. apply acquire_pool_ok.
        -- intros _ _ r w r'. apply release_pool_ok.
      * eapply (ti_resume v uniform_ok expovariate_ok); [exact Htime1|exact Hk1|exact Hres].
      * intros l.
        destruct (lane_line_step v randbelow_ok x rest s s1 l Hsafe Hpools Hpending Hres)
          as [Hnow Hstep].
        destruct (Hline l) as [Hsorted Hle].
        pose proof (ti_events _ Htime) as Hev. rewrite Hpending in Hev.
        apply Forall_cons in Hev as [[Hdue _] _].
        assert (Hle' : Forall (fun t => t <= due_time x)
                              (map arrival_time (lane_line l s))).
        { eapply Forall_impl; [exact Hle|]. cbn. intros t Ht. lra. }
        rewrite Hnow. destruct Hstep as [-> | ->].
        -- split; assumption.
        -- split; [apply StronglySorted_snoc; assumption|].
           apply Forall_app. split; [exact Hle'|].
           apply Forall_singleton. lra.
    + intros H; injection H as <- _. intros l. apply Hline.
Qed.

Lemma stage_line_fold_process (l : nat) (st : stage) (ks : list cont) :
  Forall (fun k => match k with k_check_passenger _ _ => True | _ => False end) ks ->
  forall s : sim R,
    stage_line l st (fold_left (fun s k => env_process R k s) ks s) = stage_line l st s /\
    completed (fold_left (fun s k => env_process R k s) ks s) = completed s.
Proof.
  induction 1 as [|k ks Hk _ IH]; intros s; cbn [fold_left]; [split; reflexivity|].
  destruct (IH (env_process R k s)) as [-> ->].
  change (env_process R k s) with (env_timeout R 0 k s).
  rewrite stage_line_timeout by (left; destruct k; try contradiction; reflexivity).
  destruct k; try contradiction. split; reflexivity.
Qed.

Lemma lane_line_setup (num_lanes : nat) (g : globals R) (l : nat) :
  lane_line l (setup R v num_lanes g) = [].
Proof.
  unfold setup. set (s0 := mkSim _ _ _ _ _).
  assert (Hst : forall st, stage_line l st s0 = []).
  { intros st. unfold stage_line, stage_waiters, s0. cbn.
    destruct (AirportSecurity v num_lanes !! l) as [ln|] eqn:Hl; [|reflexivity].
    pose proof (Forall_waiters_AirportSecurity (fun _ _ _ => False) v num_lanes
                  l ln st Hl) as Hw.
    cbv beta in Hw. destruct (waiters (lane_get ln st)); [reflexivity|].
    apply Forall_cons in Hw as [[] _]. }
  unfold lane_line, lane_completed.
  set (s1 := fold_left _ _ s0).
  change (env_process R k_passenger_arrivals_start s1)
    with (env_timeout R 0 k_passenger_arrivals_start s1).
  rewrite !stage_line_timeout by (left; reflexivity).
  cbn [cont_holder app env_timeout set_env completed]. unfold s1.
  destruct (stage_line_fold_process l officer _ (initial_passengers_new v num_lanes) s0)
    as [-> ->].
  destruct (stage_line_fold_process l baggage_screener _
              (initial_passengers_new v num_lanes) s0) as [-> _].
  destruct (stage_line_fold_process l body_screener _
              (initial_passengers_new v num_lanes) s0) as [-> _].
  rewrite !Hst. reflexivity.
Qed.

Lemma run_airport_fifo (fuel : nat) (running_time : Q) (num_lanes : nat)
    (g : globals R) (s : sim R) (finished : bool) :
  v <> central_queue ->
  (0 < num_lanes)%nat ->
  run_airport R v fuel running_time num_lanes g = Ok (s, finished) ->
  forall l, StronglySorted Qle (map arrival_time (lane_line l s)).
Proof.
  intros Hv Hn Hrun. apply run_airport_steps in Hrun as [_ Hrun]. revert Hrun.
  apply fifo_env_steps.
  - apply (si_setup v). right. exact Hn.
  - rewrite lanes_setup. intros l ln st Hl.
    pose proof (AirportSecurity_pool_ok v num_lanes l ln st Hl) as Hok.
    cbv beta in Hok. destruct v; [congruence|exact Hok..].
  - apply ti_setup.
  - intros l. rewrite lane_line_setup. split; constructor.
Qed.
End FifoRun.

Lemma StronglySorted_prefix (a b : list Q) :
  StronglySorted Qle (a ++ b) -> StronglySorted Qle a.
Proof.
  induction a as [|x a IH]; cbn; intros H; [constructor|].
  apply StronglySorted_inv in H as [Hs Hx]. constructor; [apply IH, Hs|].
  apply Forall_app in Hx as [Hx _]. exact Hx.
Qed.

(** X12: in the programs with lanes nobody overtakes within a lane.  Listed
    from the front, the passengers who have left through a lane, in the
    order they left, followed by those at body screening, at baggage
    screening and at the boarding-pass check of that lane, each stage with
    its holder before its queue, are in the order of their arrival times;
    in particular the passengers of a lane leave in the order they
    arrived.  The random source is assumed to give service times within
    their bounds, non-negative gaps and a lane index within range. *)
Theorem no_overtaking_within_lane {R : RandomSource} (v : variant) (fuel : nat)
    (running_time : Q) (num_lanes : nat) (g : globals R) (s : sim R)
    (finished : bool) :
  v <> central_queue ->
  uniform_in_range R ->
  expovariate_nonnegative R ->
  randbelow_in_range R ->
  (0 < num_lanes)%nat ->
  run_airport R v fuel running_time num_lanes g = Ok (s, finished) ->
  forall l,
    StronglySorted Qle (map arrival_time (lane_line l s)) /\
    StronglySorted Qle (map arrival_time (lane_completed l s)).
Proof.
  intros Hv Huniform Hexpo Hrandbelow Hn Hrun l.
  pose proof (run_airport_fifo v Huniform Hexpo Hrandbelow fuel running_time
                num_lanes g s finished Hv Hn Hrun l) as Hsorted.
  split; [exact Hsorted|].
  unfold lane_line in Hsorted. rewrite map_app in Hsorted.
  apply StronglySorted_prefix in Hsorted. exact Hsorted.
Qed.

Lemma no_overtaking_within_lane_witness :
  StronglySorted Qle (map arrival_time (lane_line 0 random_run)) /\
  StronglySorted Qle (map arrival_time (lane_completed 0 random_run)).
Proof.
  apply (no_overtaking_within_lane multiple_queues_random_selection 400 8 4
           fresh_globals random_run true).
  - discriminate.
  - exact cyclic_source_uniform.
  - exact cyclic_source_expovariate.
  - exact cyclic_source_randbelow.
  - lia.
  - vm_compute. reflexivity.
Defined.

(** ** The throughput of a lane *)

Section FreshEvents.
Context {R : RandomSource} (v : variant).
Hypothesis uniform_ok : uniform_in_range R.
Context (P : Event cont -> Prop) (t : Q).
Hypothesis P_fresh : forall e, service_event_ok t e -> P e.

Lemma fe_timeout (d : Q) (k : cont) (s : sim R) :
  Forall P (pending (env s)) ->
  service_event_ok t (mkEvent (now (env s) + d) (next_sequence (env s)) k) ->
  Forall P (pending (env (env_timeout R d k s))).
Proof.
  intros Hall Hk. unfold env_timeout, set_env, schedule. cbn [env pending].
  apply Forall_enqueue. split; [apply P_fresh, Hk | exact Hall].
Qed.

Lemma fe_serve (p : passenger) (st : stage) (s : sim R) :
  now (env s) = t ->
  Forall P (pending (env s)) ->
  Forall P (pending (env (serve R p st s))).
Proof.
  intros Hnow Hall. unfold serve.
  pose proof (service_bounds_positive st) as [_ Hle].
  destruct (service_bounds st) as [low high] eqn:Hb. cbn [fst snd] in Hle.
  pose proof (uniform_ok low high (rng s) Hle) as [Hlow _].
  destruct (uniform R low high (rng s)) as [d g]. cbn [fst] in Hlow.
  apply fe_timeout; [exact Hall|].
  unfold service_event_ok. cbn [continuation due_time set_rng env].
  rewrite Hb, Hnow. cbn [fst]. lra.
Qed.

Lemma fe_request (p : passenger) (st : stage) (s s' : sim R) :
  now (env s) = t ->
  Forall P (pending (env s)) ->
  request R p st s = Ok s' ->
  Forall P (pending (env s')).
Proof.
  intros Hnow Hall. unfold request.
  destruct (lanes s !! lane p) as [ln|]; [|discriminate].
  destruct (acquire _ _) as [[] r]; intros H; injection H as <-.
  - apply fe_serve; assumption.
  - exact Hall.
Qed.

Lemma fe_release_stage (p : passenger) (st : stage) (s s' : sim R) :
  Forall P (pending (env s)) ->
  release_stage R p st s = Ok s' ->
  Forall P (pending (env s')) /\ now (env s') = now (env s).
Proof.
  intros Hall. unfold release_stage.
  destruct (lanes s !! lane p) as [ln|]; [|discriminate].
  destruct (release _) as [[[w|] r]|e]; [| |discriminate]; cbn;
    intros H; injection H as <-.
  - split; [|reflexivity]. apply fe_timeout; [exact Hall | exact I].
  - split; [exact Hall | reflexivity].
Qed.

Lemma fe_passenger_arrivals (i : nat) (s : sim R) :
  Forall P (pending (env s)) ->
  Forall P (pending (env (passenger_arrivals R i s))).
Proof.
  intros Hall. unfold passenger_arrivals. destruct (expovariate R _ _) as [gap g].
  apply fe_timeout; [exact Hall | exact I].
Qed.

Lemma fe_resume (k : cont) (s s' : sim R) :
  now (env s) = t ->
  Forall P (pending (env s)) ->
  resume R v k s = Ok s' ->
  Forall P (pending (env s')).
Proof.
  intros Hnow Hall. destruct k as [nm al|p st|p st| |i];
    cbn [resume]; unfold check_passenger, check_passenger_served.
  - destruct (select_lane R v al s) as [[l s1]|e] eqn:Hsel; [|discriminate].
    destruct (fifo_select_lane v _ _ _ _ Hsel) as (Henv & _ & _).
    cbn. apply fe_request; rewrite Henv; assumption.
  - intros H; injection H as <-. apply fe_serve; assumption.
  - destruct (release_stage R p st s) as [s1|e] eqn:Hrel; [|discriminate].
    destruct (fe_release_stage _ _ _ _ Hall Hrel) as [Hall1 Hnow1].
    cbn. destruct (next_stage st) as [st'|].
    + apply fe_request; [rewrite Hnow1; exact Hnow | exact Hall1].
    + intros H; injection H as <-. exact Hall1.
  - intros H; injection H as <-. apply fe_passenger_arrivals, Hall.
  - intros H; injection H as <-. apply fe_passenger_arrivals.
    change (env_process R ?k s) with (env_timeout R 0 k s).
    apply fe_timeout; [exact Hall | exact I].
Qed.
End FreshEvents.

Lemma stage_holders_nil (l : nat) (st : stage) (q : list (Event cont))
    (e : Event cont) :
  stage_holders l st q = [] -> e ∈ q -> cont_holder l st (continuation e) = [].
Proof.
  unfold stage_holders. induction q as [|x q IH]; intros Hnil Hin.
  - apply elem_of_nil in Hin as [].
  - cbn [flat_map] in Hnil. apply app_eq_nil in Hnil as [Hx Hq].
    apply elem_of_cons in Hin as [->|Hin]; [exact Hx | apply IH; assumption].
Qed.

Lemma count_S (n : nat) :
  2 * inject_Z (Z.of_nat (n + 1)) == 2 * inject_Z (Z.of_nat n) + 2.
Proof. rewrite Nat2Z.inj_add, inject_Z_plus. cbn. ring. Qed.

Section Throughput.
Context {R : RandomSource} (v : variant).
Hypothesis uniform_ok : uniform_in_range R.
Hypothesis expovariate_ok : expovariate_nonnegative R.
Hypothesis randbelow_ok : randbelow_in_range R.

(** One event of the run: a passenger gets through baggage screening when
    its service there ends, and at no other event. *)
Lemma past_baggage_step (x : Event cont) (rest : list (Event cont)) (s s' : sim R)
    (l : nat) :
  safety_invariant None s ->
  Forall_pools (fun _ _ r => pool_ok 1 r) (lanes s) ->
  pending (env s) = x :: rest ->
  resume R v (continuation x)
         (set_env R (mkScheduler (due_time x) (next_sequence (env s)) rest) s)
  = Ok s' ->
  past_baggage l s'
  = (past_baggage l s
     + match continuation x with
       | k_served p baggage_screener => if bool_decide (lane p = l) then 1 else 0
       | _ => 0
       end)%nat.
Proof.
  intros Hsafe Hpools Hpending.
  set (s1 := set_env R _ s).
  assert (Hsafe1 : safety_invariant (held (continuation x)) s1).
  { destruct Hsafe as [Hn Hc Hw Hh]. rewrite Hpending in Hc, Hh.
    apply Forall_cons in Hc as [Hk Hc]. split; cbn; assumption. }
  assert (Hk : cont_lane_ok (length (lanes s1)) (continuation x)).
  { pose proof (si_conts _ _ Hsafe) as Hc. rewrite Hpending in Hc.
    apply Forall_cons in Hc as [Hk _]. exact Hk. }
  assert (Hpools1 : Forall_pools (fun _ _ r => pool_ok 1 r) (lanes s1)) by exact Hpools.
  assert (Hline : forall st,
             map arrival_time (stage_line l st s)
             = map arrival_time (cont_holder l st (continuation x))
               ++ map arrival_time (stage_line l st s1)).
  { intros st. unfold stage_line. rewrite Hpending. cbn. rewrite !map_app, app_assoc.
    reflexivity. }
  assert (Hdone : lane_completed l s = lane_completed l s1) by reflexivity.
  unfold past_baggage.
  rewrite <- !(length_map arrival_time), Hline, Hdone, arrival_time_cont_holder.
  clearbody s1. clear Hline Hdone Hpending Hsafe Hpools.
  destruct (continuation x) as [nm al|p st|p st| |i];
    cbn [resume held] in *; unfold check_passenger, check_passenger_served.
  - destruct (select_lane R v al s1) as [[l0 s2]|e] eqn:Hsel; [|discriminate].
    destruct (si_select_lane v randbelow_ok al s1 Hsafe1 Hk)
      as (l0' & s2' & Hsel' & Hsafe2 & _).
    rewrite Hsel in Hsel'. injection Hsel' as <- <-.
    destruct (fifo_select_lane _ _ _ _ _ Hsel) as (Henv & Hlanes & Hc).
    cbn. intros Hreq.
    assert (Hpools2 : Forall_pools (fun _ _ r => pool_ok 1 r) (lanes s2))
      by (rewrite Hlanes; exact Hpools1).
    destruct (fifo_request _ _ _ _ Hsafe2 Hpools2 Hreq) as (Hst & Hc' & _).
    unfold lane_completed. rewrite Hst, Hc', Hc.
    replace (stage_line l body_screener s2) with (stage_line l body_screener s1)
      by (unfold stage_line; rewrite Henv, Hlanes; reflexivity).
    here_simpl. rewrite app_nil_r. cbn [app]. lia.
  - intros H; injection H as <-.
    assert (Hh : stage_holders (lane p) st (pending (env s1)) = []).
    { apply holders_held; assumption. }
    unfold lane_completed. rewrite completed_serve, stage_line_serve by exact Hh.
    lia.
  - destruct (release_stage R p st s1) as [s2|e] eqn:Hrel; [|discriminate].
    destruct (si_release_stage p st s1 Hsafe1 Hk) as (s2' & Hrel' & Hsafe2 & _).
    rewrite Hrel in Hrel'. injection Hrel' as <-.
    pose proof (pp_release_stage (fun _ _ r => pool_ok 1 r)
                  (fun _ _ r w r' => release_pool_ok 1 r r' w)
                  p st s1 s2 Hpools1 Hrel) as Hpools2.
    destruct (fifo_release_stage _ _ _ _ Hsafe1 Hpools1 Hrel) as (Hst & Hc & _).
    cbn. destruct st; cbn [next_stage].
    + intros Hreq.
      destruct (fifo_request _ _ _ _ Hsafe2 Hpools2 Hreq) as (Hst' & Hc' & _).
      unfold lane_completed. rewrite Hst', Hst, Hc', Hc, !here_log.
      here_simpl. rewrite app_nil_r. cbn [app]. lia.
    + intros Hreq.
      destruct (fifo_request _ _ _ _ Hsafe2 Hpools2 Hreq) as (Hst' & Hc' & _).
      unfold lane_completed. rewrite Hst', Hst, Hc', Hc, !here_log.
      here_simpl. rewrite length_app. cbn [app].
      case_bool_decide; cbn [length]; lia.
    + intros H; injection H as <-.
      rewrite lane_completed_depart, here_log.
      replace (stage_line l body_screener (depart R _ s2))
        with (stage_line l body_screener s2) by reflexivity.
      rewrite Hst. unfold lane_completed. rewrite Hc.
      here_simpl. rewrite !length_app. lia.
  - intros H; injection H as <-.
    destruct (fifo_passenger_arrivals 0 s1) as (Hst & Hc & _).
    unfold lane_completed. rewrite Hst, Hc. cbn [app]. lia.
  - intros H; injection H as <-.
    destruct (fifo_passenger_arrivals (S i)
                (env_process R (k_check_passenger (Passenger (S i)) None) s1))
      as (Hst & Hc & _).
    unfold lane_completed. rewrite Hst, Hc.
    change (env_process R ?k s1) with (env_timeout R 0 k s1).
    rewrite stage_line_timeout by (left; reflexivity).
    cbn [app cont_holder completed env_timeout set_env]. lia.
Qed.

Lemma th_step (running_time : Q) (x : Event cont) (rest : list (Event cont))
    (s s' : sim R) :
  safety_invariant None s ->
  Forall_pools (fun _ _ r => pool_ok 1 r) (lanes s) ->
  timing_invariant s ->
  throughput_invariant running_time s ->
  pending (env s) = x :: rest ->
  due_time x <= running_time ->
  resume R v (continuation x)
         (set_env R (mkScheduler (due_time x) (next_sequence (env s)) rest) s)
  = Ok s' ->
  throughput_invariant running_time s'.
Proof.
  intros Hsafe Hpools Htime [Hnow Hpast Hev] Hpending Hdue Hres.
  pose proof (fun l => past_baggage_step x rest s s' l Hsafe Hpools Hpending Hres)
    as Hstep.
  destruct (lane_line_step v randbelow_ok x rest s s' 0 Hsafe Hpools Hpending Hres)
    as [Hnow' _].
  pose proof (ti_events _ Htime) as Hle. rewrite Hpending in Hle, Hev.
  apply Forall_cons in Hle as [[Hle _] _].
  apply Forall_cons in Hev as [Hx Hev].
  assert (Hpast' : forall l, 2 * inject_Z (Z.of_nat (past_baggage l s')) <= due_time x).
  { intros l. rewrite Hstep. specialize (Hpast l).
    unfold baggage_event_ok in Hx.
    destruct (continuation x) as [nm al|p st|p [| |]| |i];
      rewrite ?Nat.add_0_r; try lra.
    case_bool_decide as Hl; [|rewrite Nat.add_0_r; lra].
    subst l. exact Hx. }
  split.
  - rewrite Hnow'. exact Hdue.
  - intros l. rewrite Hnow'. apply Hpast'.
  - assert (Hall : Forall (fun e => e ∈ rest \/ service_event_ok (due_time x) e)
                          (pending (env s'))).
    { eapply (fe_resume v uniform_ok _ (due_time x)); [| | |exact Hres].
      - intros e He. right. exact He.
      - reflexivity.
      - apply Forall_forall. intros e He. left. exact He. }
    eapply Forall_impl; [exact Hall|]. cbn beta.
    intros e [Hin|Hfresh]; unfold baggage_event_ok, service_event_ok in *.
    + rewrite Forall_forall in Hev. specialize (Hev e Hin). cbn beta in Hev.
      destruct (continuation e) as [nm al|p st|p [| |]| |i] eqn:He; try exact I.
      rewrite Hstep.
      destruct (continuation x) as [nm' al'|p' st'|p' [| |]| |i'] eqn:Hkx;
        rewrite ?Nat.add_0_r; try exact Hev.
      case_bool_decide as Hl; [|rewrite Nat.add_0_r; exact Hev].
      exfalso.
      assert (Hsafe1 : safety_invariant (held (continuation x))
                         (set_env R (mkScheduler (due_time x) (next_sequence (env s))
                                                 rest) s)).
      { destruct Hsafe as [Hn Hc Hw Hh]. rewrite Hpending in Hc, Hh.
        apply Forall_cons in Hc as [Hk Hc]. split; cbn; assumption. }
      rewrite Hkx in Hsafe1. cbn [held] in Hsafe1.
      assert (Hlt : (lane p' < length (lanes s))%nat).
      { pose proof (si_conts _ _ Hsafe) as Hc. rewrite Hpending in Hc.
        apply Forall_cons in Hc as [Hk _]. rewrite Hkx in Hk. exact Hk. }
      pose proof (holders_held _ _ _ Hsafe1 Hpools Hlt) as Hnone.
      cbn [env pending set_env] in Hnone.
      pose proof (stage_holders_nil _ _ _ e Hnone Hin) as Hnil.
      rewrite He in Hnil. cbn [cont_holder] in Hnil.
      rewrite bool_decide_eq_true_2 in Hnil by (split; [symmetry; exact Hl | reflexivity]).
      discriminate.
    + destruct (continuation e) as [nm al|p st|p [| |]| |i]; try exact I.
      cbn [service_bounds scan_baggage fst] in Hfresh.
      rewrite count_S. specialize (Hpast' (lane p)). lra.
Qed.

Lemma th_env_steps (fuel : nat) (running_time : Q) :
  forall (s s' : sim R) (finished : bool),
    safety_invariant None s ->
    Forall_pools (fun _ _ r => pool_ok 1 r) (lanes s) ->
    timing_invariant s ->
    throughput_invariant running_time s ->
    env_steps R v fuel running_time s = Ok (s', finished) ->
    throughput_invariant running_time s'.
Proof.
  induction fuel as [|fuel IH]; intros s s' finished Hsafe Hpools Htime Hinv;
    cbn [env_steps].
  - intros H; injection H as <- _. exact Hinv.
  - destruct (next_event running_time (env s)) as [[k e]|] eqn:Hnext.
    + pose proof (ti_next_event running_time k e s Htime Hnext) as [Htime1 Hk1].
      unfold next_event in Hnext.
      destruct (pending (env s)) as [|x rest] eqn:Hpending; [discriminate|].
      destruct (Qltb _ _) eqn:Hdue; [discriminate|]. apply Qltb_ge in Hdue.
      injection Hnext as <- <-.
      destruct (resume R v _ _) as [s1|err] eqn:Hres; [|discriminate].
      cbn. apply IH.
      * pose proof Hsafe as [Hn Hc Hw Hh]. rewrite Hpending in Hc, Hh.
        apply Forall_cons in Hc as [Hk Hc].
        destruct (si_resume v randbelow_ok (continuation x)
                    (set_env R (mkScheduler (due_time x) (next_sequence (env s)) rest) s))
          as (s1' & Hres' & Hsafe1).
        { split; cbn; assumption. }
        { exact Hk. }
        rewrite Hres in Hres'. injection Hres' as <-. exact Hsafe1.
      * eapply (pp_resume v (fun _ _ r => pool_ok 1 r)); [| | |exact Hres];
          [| |exact Hpools].
        -- intros _ _ w r granted r'. apply acquire_pool_ok.
        -- intros _ _ r w r'. apply release_pool_ok.
      * eapply (ti_resume v uniform_ok expovariate_ok); [exact Htime1|exact Hk1|exact Hres].
      * eapply th_step; eassumption.
    + intros H; injection H as <- _. exact Hinv.
Qed.

Lemma pending_fold_process (P : Event cont -> Prop) (ks : list cont) :
  (forall e, match continuation e with k_check_passenger _ _ => True | _ => False end ->
             P e) ->
  Forall (fun k => match k with k_check_passenger _ _ => True | _ => False end) ks ->
  forall s : sim R,
    Forall P (pending (env s)) ->
    Forall P (pending (env (fold_left (fun s k => env_process R k s) ks s))).
Proof.
  intros HP. induction 1 as [|k ks Hk _ IH]; intros s Hs; cbn [fold_left]; [exact Hs|].
  apply IH. cbn. apply Forall_enqueue. split; [|exact Hs]. apply HP. exact Hk.
Qed.

Lemma th_setup (running_time : Q) (num_lanes : nat) (g : globals R) :
  0 <= running_time ->
  throughput_invariant running_time (setup R v num_lanes g).
Proof.
  intros HT.
  assert (Hpast : forall l, past_baggage l (setup R v num_lanes g) = 0%nat).
  { intros l. pose proof (lane_line_setup v num_lanes g l) as Hnil.
    unfold lane_line in Hnil. apply app_eq_nil in Hnil as [Hc Hnil].
    apply app_eq_nil in Hnil as [Hb _].
    unfold past_baggage. rewrite Hc, Hb. reflexivity. }
  assert (Hnow : now (env (setup R v num_lanes g)) = 0).
  { unfold setup. cbn [env_process set_env env schedule now].
    set (s0 := mkSim _ _ _ _ _).
    assert (H0 : now (env s0) = 0) by reflexivity.
    clearbody s0. revert s0 H0.
    induction (initial_passengers v num_lanes) as [|k ks IH]; intros s0 H0; cbn.
    - exact H0.
    - apply IH. exact H0. }
  split.
  - rewrite Hnow. exact HT.
  - intros l. rewrite Hpast, Hnow. change (inject_Z (Z.of_nat 0)) with 0. lra.
  - unfold setup. cbn [env_process set_env env schedule pending].
    apply Forall_enqueue. split; [exact I|].
    apply pending_fold_process.
    + intros e He. unfold baggage_event_ok.
      destruct (continuation e); try contradiction. exact I.
    + apply initial_passengers_new.
    + constructor.
Qed.

Lemma run_airport_throughput (fuel : nat) (running_time : Q) (num_lanes : nat)
    (g : globals R) (s : sim R) (finished : bool) :
  v <> central_queue ->
  (0 < num_lanes)%nat ->
  0 <= running_time ->
  run_airport R v fuel running_time num_lanes g = Ok (s, finished) ->
  throughput_invariant running_time s.
Proof.
  intros Hv Hn HT Hrun. apply run_airport_steps in Hrun as [_ Hrun]. revert Hrun.
  apply th_env_steps.
  - apply (si_setup v). right. exact Hn.
  - rewrite lanes_setup. intros l ln st Hl.
    pose proof (AirportSecurity_pool_ok v num_lanes l ln st Hl) as Hok.
    cbv beta in Hok. destruct v; [congruence|exact Hok..].
  - apply ti_setup.
  - apply th_setup, HT.
Qed.
End Throughput.

(** X13: in the programs with lanes, baggage screening takes at least 2
    minutes and a lane screens one passenger at a time, so at any instant
    twice the number of passengers of a lane who are through baggage
    screening is at most the clock: a lane lets through at most one
    passenger per 2 minutes of running time.  The random source is assumed
    to give service times within their bounds, non-negative gaps and a lane
    index within range. *)
Theorem lane_throughput_bound {R : RandomSource} (v : variant) (fuel : nat)
    (running_time : Q) (num_lanes : nat) (g : globals R) (s : sim R)
    (finished : bool) :
  v <> central_queue ->
  uniform_in_range R ->
  expovariate_nonnegative R ->
  randbelow_in_range R ->
  (0 < num_lanes)%nat ->
  0 <= running_time ->
  run_airport R v fuel running_time num_lanes g = Ok (s, finished) ->
  forall l,
    2 * inject_Z (Z.of_nat (past_baggage l s)) <= now (env s) /\
    now (env s) <= running_time /\
    2 * inject_Z (Z.of_nat (length (lane_completed l s))) <= running_time.
Proof.
  intros Hv Huniform Hexpo Hrandbelow Hn HT Hrun l.
  destruct (run_airport_throughput v Huniform Hexpo Hrandbelow fuel running_time
              num_lanes g s finished Hv Hn HT Hrun) as [Hnow Hpast _].
  specialize (Hpast l). split; [exact Hpast|]. split; [exact Hnow|].
  assert (Hle : inject_Z (Z.of_nat (length (lane_completed l s)))
                <= inject_Z (Z.of_nat (past_baggage l s))).
  { rewrite <- Zle_Qle. unfold past_baggage. lia. }
  lra.
Qed.

Lemma lane_throughput_bound_witness :
  2 * inject_Z (Z.of_nat (past_baggage 0 dynamic_run)) <= now (env dynamic_run) /\
  now (env dynamic_run) <= 8 /\
  2 * inject_Z (Z.of_nat (length (lane_completed 0 dynamic_run))) <= 8.
Proof.
  apply (lane_throughput_bound multiple_queues_dynamic_selection_optimal 400 8 4
           fresh_globals dynamic_run true).
  - discriminate.
  - exact cyclic_source_uniform.
  - exact cyclic_source_expovariate.
  - exact cyclic_source_randbelow.
  - lia.
  - lra.
  - vm_compute. reflexivity.
Defined.

(** ** The order of the records *)

Section Departures.
Context {R : RandomSource} (v : variant).
Hypothesis uniform_ok : uniform_in_range R.
Hypothesis expovariate_ok : expovariate_nonnegative R.

Lemma completed_request (p : passenger) (st : stage) (s s' : sim R) :
  request R p st s = Ok s' ->
  completed s' = completed s /\ now (env s') = now (env s).
Proof.
  unfold request. destruct (lanes s !! lane p) as [ln|]; [|discriminate].
  destruct (acquire _ _) as [[] r]; intros H; injection H as <-.
  - rewrite completed_serve, now_serve. split; reflexivity.
  - split; reflexivity.
Qed.

Lemma completed_release_stage (p : passenger) (st : stage) (s s' : sim R) :
  release_stage R p st s = Ok s' ->
  completed s' = completed s /\ now (env s') = now (env s).
Proof.
  unfold release_stage. destruct (lanes s !! lane p) as [ln|]; [|discriminate].
  destruct (release _) as [[[w|] r]|e]; [| |discriminate]; cbn;
    intros H; injection H as <-; split; reflexivity.
Qed.

(** One event of the run: the clock stays where the event has put it, and
    at most one record is added, stamped with the clock. *)
Lemma completed_resume (k : cont) (s s' : sim R) :
  resume R v k s = Ok s' ->
  now (env s') = now (env s) /\
  (completed s' = completed s \/
   exists p, completed s' = completed s ++ [mkCompletion p (now (env s))]).
Proof.
  destruct k as [nm al|p st|p st| |i];
    cbn [resume]; unfold check_passenger, check_passenger_served.
  - destruct (select_lane R v al s) as [[l s1]|e] eqn:Hsel; [|discriminate].
    destruct (fifo_select_lane v _ _ _ _ Hsel) as (Henv & _ & Hc).
    cbn. intros Hreq. apply completed_request in Hreq as [Hc' Hnow].
    split; [rewrite Hnow, Henv; reflexivity|]. left. congruence.
  - intros H; injection H as <-. rewrite now_serve, completed_serve.
    split; [reflexivity | left; reflexivity].
  - destruct (release_stage R p st s) as [s1|e] eqn:Hrel; [|discriminate].
    apply completed_release_stage in Hrel as [Hc Hnow].
    cbn. destruct (next_stage st) as [st'|].
    + intros Hreq. apply completed_request in Hreq as [Hc' Hnow'].
      split; [congruence|]. left. congruence.
    + intros H; injection H as <-. cbn [depart env completed].
      split; [exact Hnow|]. right. eexists. rewrite Hc, Hnow. reflexivity.
  - intros H; injection H as <-.
    destruct (fifo_passenger_arrivals 0 s) as (_ & Hc & Hnow).
    split; [exact Hnow | left; exact Hc].
  - intros H; injection H as <-.
    destruct (fifo_passenger_arrivals (S i)
                (env_process R (k_check_passenger (Passenger (S i)) None) s))
      as (_ & Hc & Hnow).
    split; [exact Hnow | left; exact Hc].
Qed.

Lemma departures_env_steps (fuel : nat) (running_time : Q) :
  forall (s s' : sim R) (finished : bool),
    timing_invariant s ->
    StronglySorted Qle (map departure_time (completed s)) ->
    Forall (fun t => t <= now (env s)) (map departure_time (completed s)) ->
    env_steps R v fuel running_time s = Ok (s', finished) ->
    StronglySorted Qle (map departure_time (completed s')) /\
    Forall (fun t => t <= now (env s')) (map departure_time (completed s')).
Proof.
  induction fuel as [|fuel IH]; intros s s' finished Htime Hsorted Hle;
    cbn [env_steps].
  - intros H; injection H as <- _. split; assumption.
  - destruct (next_event running_time (env s)) as [[k e]|] eqn:Hnext.
    + pose proof (ti_next_event running_time k e s Htime Hnext) as [Htime1 Hk1].
      unfold next_event in Hnext.
      destruct (pending (env s)) as [|x rest] eqn:Hpending; [discriminate|].
      destruct (Qltb _ _); [discriminate|].
      injection Hnext as <- <-.
      destruct (resume R v _ _) as [s1|err] eqn:Hres; [|discriminate].
      cbn. pose proof (ti_events _ Htime) as Hev. rewrite Hpending in Hev.
      apply Forall_cons in Hev as [[Hdue _] _].
      destruct (completed_resume _ _ _ Hres) as [Hnow Hc].
      cbn [env set_env now completed] in Hnow, Hc.
      assert (Hle' : Forall (fun t => t <= due_time x)
                            (map departure_time (completed s))).
      { eapply Forall_impl; [exact Hle|]. cbn. intros t Ht. lra. }
      apply IH.
      * eapply (ti_resume v uniform_ok expovariate_ok); [exact Htime1|exact Hk1|exact Hres].
      * destruct Hc as [-> | [p ->]]; [exact Hsorted|].
        rewrite map_app. apply StronglySorted_snoc; assumption.
      * rewrite Hnow. destruct Hc as [-> | [p ->]]; [exact Hle'|].
        rewrite map_app. apply Forall_app. split; [exact Hle'|].
        apply Forall_singleton. cbn. lra.
    + intros H; injection H as <- _. split; assumption.
Qed.

Lemma run_airport_departures (fuel : nat) (running_time : Q) (num_lanes : nat)
    (g : globals R) (s : sim R) (finished : bool) :
  run_airport R v fuel running_time num_lanes g = Ok (s, finished) ->
  StronglySorted Qle (map departure_time (completed s)) /\
  Forall (fun t => t <= now (env s)) (map departure_time (completed s)).
Proof.
  intros Hrun. apply run_airport_steps in Hrun as [_ Hrun]. revert Hrun.
  apply departures_env_steps.
  - apply ti_setup.
  - replace (completed (setup R v num_lanes g)) with (@nil CompletionRecord);
      [constructor|].
    unfold setup. cbn [env_process set_env completed].
    symmetry. apply (stage_line_fold_process 0 officer _
                       (initial_passengers_new v num_lanes)).
  - replace (completed (setup R v num_lanes g)) with (@nil CompletionRecord);
      [constructor|].
    unfold setup. cbn [env_process set_env completed].
    symmetry. apply (stage_line_fold_process 0 officer _
                       (initial_passengers_new v num_lanes)).
Qed.
End Departures.

(** X14: the records of a run are in the order of departure: the departure
    times of the completion records, whose sojourn times the run appends to
    [wait_times] one for one, never decrease along the list, and none is
    later than the clock at the end of the run.  The random source is assumed
    to give service times within their bounds and non-negative gaps. *)
Theorem records_in_departure_order {R : RandomSource} (v : variant) (fuel : nat)
    (running_time : Q) (num_lanes : nat) (g : globals R) (s : sim R)
    (finished : bool) :
  uniform_in_range R ->
  expovariate_nonnegative R ->
  run_airport R v fuel running_time num_lanes g = Ok (s, finished) ->
  new_records g s = map sojourn_time (completed s) /\
  StronglySorted Qle (map departure_time (completed s)) /\
  Forall (fun t => t <= now (env s)) (map departure_time (completed s)).
Proof.
  intros Huniform Hexpo Hrun. split.
  - apply new_records_completed. eapply run_airport_history, Hrun.
  - apply (run_airport_departures v Huniform Hexpo fuel running_time num_lanes g s
             finished Hrun).
Qed.

Lemma records_in_departure_order_witness :
  new_records fresh_globals (central_run fresh_globals)
  = map sojourn_time (completed (central_run fresh_globals)) /\
  StronglySorted Qle (map departure_time (completed (central_run fresh_globals))) /\
  Forall (fun t => t <= now (env (central_run fresh_globals)))
         (map departure_time (completed (central_run fresh_globals))).
Proof.
  apply (records_in_departure_order central_queue 200 5 4 fresh_globals
           (central_run fresh_globals) true).
  - exact cyclic_source_uniform.
  - exact cyclic_source_expovariate.
  - vm_compute. reflexivity.
Defined.

(** ** Arriving while a lane is idle *)

(** X15: in the dynamic-selection program a passenger who arrives while some
    lane is idle, with nobody at any of its three stages, is not kept
    waiting: [check_passenger] puts it in the first idle lane, where it takes
    the slot of the officer at once and its service begins. *)
Theorem idle_lane_served_at_once {R : RandomSource} (nm : pname) (s : sim R)
    (j : nat) (ln0 : lane_t) :
  lanes s !! j = Some ln0 ->
  total_load ln0 = 0%nat ->
  exists i ln,
    lanes s !! i = Some ln /\
    total_load ln = 0%nat /\
    (forall j' ln', (j' < i)%nat -> lanes s !! j' = Some ln' ->
                    (0 < total_load ln')%nat) /\
    check_passenger R multiple_queues_dynamic_selection_optimal nm None s
    = Ok (serve R (mkPassenger nm (now (env s)) i
                     [Arrive (now (env s)); Request officer i; Acquire officer i])
                officer
                (set_pool R i officer ln
                   (mkPool (capacity (lane_get ln officer))
                           (S (in_use (lane_get ln officer))) []) s)).
Proof.
  intros Hj Hidle.
  destruct (choose_dynamic_lane_spec (lanes s)) as (ln & i & Heq & Hi & Hmin & Hfirst).
  { intros Hnil. rewrite Hnil in Hj. discriminate. }
  assert (Hzero : total_load ln = 0%nat) by (specialize (Hmin j ln0 Hj); lia).
  exists i, ln. split; [exact Hi|]. split; [exact Hzero|]. split.
  - intros j' ln' Hlt Hl'. specialize (Hfirst j' ln' Hlt Hl'). lia.
  - rewrite total_load_sum, (effective_load_cases (lane_get ln officer)) in Hzero.
    assert (Hw : waiters (lane_get ln officer) = []).
    { apply length_zero_iff_nil. lia. }
    assert (Hfree : (in_use (lane_get ln officer) <? capacity (lane_get ln officer))%nat
                    = true).
    { apply Nat.ltb_lt. destruct (_ <=? _)%nat eqn:E; [lia|].
      apply Nat.leb_gt in E. exact E. }
    unfold check_passenger, select_lane. rewrite Heq. cbn [mbind result_bind].
    rewrite Nat2Z.id. unfold request. cbn [lane log]. rewrite Hi.
    unfold acquire. rewrite Hfree, Hw. reflexivity.
Qed.

Lemma idle_lane_served_at_once_witness :
  let s := setup cyclic_source multiple_queues_dynamic_selection_optimal 4
                 fresh_globals in
  exists i ln,
    lanes s !! i = Some ln /\
    total_load ln = 0%nat /\
    (forall j' ln', (j' < i)%nat -> lanes s !! j' = Some ln' ->
                    (0 < total_load ln')%nat) /\
    check_passenger cyclic_source multiple_queues_dynamic_selection_optimal
                    (Passenger 1) None s
    = Ok (serve cyclic_source
                (mkPassenger (Passenger 1) (now (env s)) i
                   [Arrive (now (env s)); Request officer i; Acquire officer i])
                officer
                (set_pool cyclic_source i officer ln
                   (mkPool (capacity (lane_get ln officer))
                           (S (in_use (lane_get ln officer))) []) s)).
Proof.
  intros s.
  apply (idle_lane_served_at_once (Passenger 1) s 0
           (mkLane (new_pool 1) (new_pool 1) (new_pool 1))); reflexivity.
Defined.
